(** * termdev: the dual live-tree engine

A shallow embedding of the node store, flattener, lazy expansion
controller, viewport controller and network reconciler of termdev
([src/utils/tree.ts], [src/hooks/useLogTree.ts],
[src/hooks/useNetTree.ts], [src/hooks/useCdpClient.ts]) together with
the properties that the design document states about them.

Conventions of the embedding:
- a JavaScript string is a [string] (a sequence of 8-bit characters);
- counters held in refs are [N], scroll offsets and indices are [Z];
- an optional array field ([children], [args]) is a [list]: every use in
  the source treats [undefined] and the empty array alike;
- an optional boolean ([expanded], [loading]) is a [bool]: every use goes
  through [Boolean(..)] or [!];
- React state is a record, a state setter is a record update, and an
  effect is a function that runs when its dependency array changed. *)

From Stdlib Require Import ZArith NArith List String Ascii Bool Lia.
From stdpp Require Import base option list strings pretty gmap.

Local Open Scope string_scope.
Local Open Scope list_scope.

(** ** JavaScript string primitives *)

Module Js.

Definition lowerChar (c : ascii) : ascii :=
  let n := N_of_ascii c in
  if ((65 <=? n) && (n <=? 90))%N then ascii_of_N (n + 32) else c.

Fixpoint toLowerCase (s : string) : string :=
  match s with
  | EmptyString => EmptyString
  | String c r => String (lowerChar c) (toLowerCase r)
  end.

(** White space removed by [trim]: space, tab, line feed, vertical tab,
    form feed and carriage return. *)
Definition isWhite (c : ascii) : bool :=
  let n := N_of_ascii c in
  ((n =? 32) || ((9 <=? n) && (n <=? 13)))%N.

Fixpoint allWhite (s : string) : bool :=
  match s with
  | EmptyString => true
  | String c r => isWhite c && allWhite r
  end.

Fixpoint trimStart (s : string) : string :=
  match s with
  | EmptyString => EmptyString
  | String c r => if isWhite c then trimStart r else s
  end.

Fixpoint trimEnd (s : string) : string :=
  match s with
  | EmptyString => EmptyString
  | String c r => if allWhite s then EmptyString else String c (trimEnd r)
  end.

Definition trim (s : string) : string := trimEnd (trimStart s).

Fixpoint startsWith (p s : string) : bool :=
  match p, s with
  | EmptyString, _ => true
  | String a p', String b s' => if ascii_dec a b then startsWith p' s' else false
  | String _ _, EmptyString => false
  end.

(** [hay.includes(needle)] *)
Fixpoint includes (needle hay : string) : bool :=
  startsWith needle hay ||
  match hay with
  | EmptyString => false
  | String _ r => includes needle r
  end.

(** [xs.join(sep)] *)
Fixpoint join (sep : string) (xs : list string) : string :=
  match xs with
  | [] => EmptyString
  | [x] => x
  | x :: r => x +:+ sep +:+ join sep r
  end.

Definition nonEmpty (s : string) : bool :=
  match s with EmptyString => false | _ => true end.

(** [a ?? b] on an optional string *)
Definition orElse (o : option string) (d : string) : string :=
  match o with Some s => s | None => d end.

Definition newline : ascii := ascii_of_N 10.

End Js.

(** ** Data model ([src/types/log.ts]) *)

Record RemoteObject := mkRemoteObject {
  ro_type : option string;
  ro_subtype : option string;
  className : option string;
  description : option string;
  unserializableValue : option string;
  ro_value : option string;      (* [unknown]: kept as its serialised text *)
  objectId : option string;
  preview : option string        (* [unknown]: kept as its serialised text *)
}.

Inductive LogNodeKind := KText | KEntry | KArg | KProp | KMeta.

Inductive NetRole := RRequest | RHeaders | RResponse | RBody.
Inductive NetWhich := WRequest | WResponse.

Record NetNodeInfo := mkNetNodeInfo {
  requestId : string;
  role : NetRole;
  which : option NetWhich
}.

(** The fields of a [LogNode] other than its children. *)
Record NodeData := mkNodeData {
  id : string;
  kind : LogNodeKind;
  timestamp : option Z;
  label : option string;
  text : option string;
  args : list RemoteObject;
  object : option RemoteObject;
  name : option string;
  value : option RemoteObject;
  expanded : bool;
  loading : bool;
  net : option NetNodeInfo
}.

(** A [LogNode]: its own fields and the ordered list of its children. *)
#[local] Unset Elimination Schemes.
Inductive LogNode := Node (data : NodeData) (children : list LogNode).

#[local] Set Elimination Schemes.

Definition data (n : LogNode) : NodeData := let 'Node d _ := n in d.
Definition children (n : LogNode) : list LogNode := let 'Node _ cs := n in cs.
Definition nodeId (n : LogNode) : string := id (data n).

Record FlatLogLine := mkFlatLogLine {
  fl_nodeId : string;
  fl_parentId : option string;
  fl_indent : Z;
  fl_text : string;
  fl_expandable : bool;
  fl_expanded : bool
}.

(** Object-spread updates: [{ ...n, expanded: b }] and the like. *)
Definition withExpanded (b : bool) (d : NodeData) : NodeData :=
  mkNodeData (id d) (kind d) (timestamp d) (label d) (text d) (args d)
             (object d) (name d) (value d) b (loading d) (net d).

Definition withLoading (b : bool) (d : NodeData) : NodeData :=
  mkNodeData (id d) (kind d) (timestamp d) (label d) (text d) (args d)
             (object d) (name d) (value d) (expanded d) b (net d).

Definition withLabel (l : string) (d : NodeData) : NodeData :=
  mkNodeData (id d) (kind d) (timestamp d) (Some l) (text d) (args d)
             (object d) (name d) (value d) (expanded d) (loading d) (net d).

(** Node literals of the source. *)
Definition blankData (i : string) (k : LogNodeKind) : NodeData :=
  mkNodeData i k None None None [] None None None false false None.

Definition textNode (i t : string) : LogNode :=
  Node (mkNodeData i KText None None (Some t) [] None None None false false None) [].

Definition metaNode (i t : string) : LogNode :=
  Node (mkNodeData i KMeta None None (Some t) [] None None None false false None) [].

Definition entryNode (i l : string) (a : list RemoteObject) (ts : option Z) : LogNode :=
  Node (mkNodeData i KEntry ts (Some l) None a None None None false false None) [].

Definition argNode (i : string) (o : RemoteObject) : LogNode :=
  Node (mkNodeData i KArg None None None [] (Some o) None None false false None) [].

Definition propNode (i nm : string) (v : RemoteObject) : LogNode :=
  Node (mkNodeData i KProp None None None [] None (Some nm) (Some v) false false None) [].

Definition netEntry (i l : string) (info : NetNodeInfo) (cs : list LogNode) : LogNode :=
  Node (mkNodeData i KEntry None (Some l) None [] None None None false false (Some info)) cs.

(** Induction over a node and the forest below it. *)
Section LogNode_induction.
Variable P : LogNode -> Prop.
Variable Q : list LogNode -> Prop.
Hypothesis HNode : forall d cs, Q cs -> P (Node d cs).
Hypothesis HNil : Q [].
Hypothesis HCons : forall n ns, P n -> Q ns -> Q (n :: ns).

Fixpoint LogNode_forest_ind (n : LogNode) : P n :=
  match n with
  | Node d cs =>
      HNode d cs
        ((fix go (l : list LogNode) : Q l :=
            match l with
            | [] => HNil
            | x :: r => HCons x r (LogNode_forest_ind x) (go r)
            end) cs)
  end.

Definition forest_ind (l : list LogNode) : Q l :=
  (fix go (l : list LogNode) : Q l :=
     match l with
     | [] => HNil
     | x :: r => HCons x r (LogNode_forest_ind x) (go r)
     end) l.
End LogNode_induction.

(** ** Tree utilities ([src/utils/tree.ts]) *)

Module Tree.

(** [String(s).split("\n")] *)
Fixpoint splitLines (s : string) : list string :=
  match s with
  | EmptyString => [EmptyString]
  | String c r =>
      if ascii_dec c Js.newline then EmptyString :: splitLines r
      else match splitLines r with
           | h :: t => String c h :: t
           | [] => [String c EmptyString]
           end
  end.

Definition clamp (n lo hi : Z) : Z := Z.max lo (Z.min hi n).

Definition isObjectExpandable (obj : option RemoteObject) : bool :=
  match obj with
  | Some o => match objectId o with
              | Some i => Js.nonEmpty i
              | None => false
              end
  | None => false
  end.

Definition nonEmptyList {A} (l : list A) : bool :=
  match l with [] => false | _ => true end.

(** [findNodeById]: first node with the identifier, in depth-first
    pre-order. *)
Fixpoint findNode (i : string) (n : LogNode) : option LogNode :=
  match n with
  | Node d cs =>
      if String.eqb (id d) i then Some n
      else (fix go (l : list LogNode) : option LogNode :=
              match l with
              | [] => None
              | c :: r => match findNode i c with
                          | Some f => Some f
                          | None => go r
                          end
              end) cs
  end.

Fixpoint findNodeById (nodes : list LogNode) (i : string) : option LogNode :=
  match nodes with
  | [] => None
  | n :: r => match findNode i n with
              | Some f => Some f
              | None => findNodeById r i
              end
  end.

Section WithFormat.
  (** [formatRemoteObject] of [src/format.ts] renders a remote value on one
      line. *)
Variable formatRemoteObject : RemoteObject -> string.

Definition expandableOf (d : NodeData) (cs : list LogNode) : bool :=
  match kind d with
  | KEntry => nonEmptyList (args d) || nonEmptyList cs || loading d
  | KArg => isObjectExpandable (object d)
  | KProp => isObjectExpandable (value d)
  | _ => false
  end.

Definition argsPreview (a : list RemoteObject) : string :=
  Js.join " " (map formatRemoteObject a).

Definition lineText (d : NodeData) : string :=
  match kind d with
  | KText => Js.orElse (text d) ""
  | KMeta => Js.orElse (text d) ""
  | KEntry =>
      let l := Js.orElse (label d) "" in
      let p := argsPreview (args d) in
      if Js.nonEmpty p then l +:+ " " +:+ p else l
  | KArg => match object d with
            | Some o => formatRemoteObject o
            | None => ""
            end
  | KProp =>
      Js.orElse (name d) "?" +:+ ": " +:+
      match value d with
      | Some v => formatRemoteObject v
      | None => "undefined"
      end
  end.

Definition lineOf (parentId : option string) (indent : Z) (n : LogNode)
  : FlatLogLine :=
  mkFlatLogLine (nodeId n) parentId indent (lineText (data n))
                (expandableOf (data n) (children n)) (expanded (data n)).

Fixpoint flattenNode (parentId : option string) (indent : Z) (n : LogNode)
  : list FlatLogLine :=
  match n with
  | Node d cs =>
      lineOf parentId indent n ::
      (if expanded d
       then (fix go (l : list LogNode) : list FlatLogLine :=
               match l with
               | [] => []
               | c :: r => flattenNode (Some (id d)) (indent + 1) c ++ go r
               end) cs
       else [])
  end.

Fixpoint flattenLogTree (nodes : list LogNode) (parentId : option string)
         (indent : Z) : list FlatLogLine :=
  match nodes with
  | [] => []
  | n :: r => flattenNode parentId indent n ++ flattenLogTree r parentId indent
  end.

End WithFormat.

(** [updateNodeById].  The updater is a JavaScript closure: it may advance
    a counter held in a ref, so it is a state transformer over the state
    [S] it closes over.  The boolean is the variable [changed] of the
    source: [true] exactly when the returned array is a fresh one, [false]
    when the argument itself is returned. *)
Section Update.
Context {S : Type}.
Variable i : string.
Variable updater : LogNode -> S -> LogNode * S.

Fixpoint updateNode (n : LogNode) (s : S) : LogNode * bool * S :=
  match n with
  | Node d cs =>
      if String.eqb (id d) i then
        let '(n', s') := updater n s in (n', true, s')
      else
        let '(cs', ch, s') :=
          (fix go (l : list LogNode) (s : S) : list LogNode * bool * S :=
             match l with
             | [] => ([], false, s)
             | c :: r =>
                 let '(c', b1, s1) := updateNode c s in
                 let '(r', b2, s2) := go r s1 in
                 (c' :: r', b1 || b2, s2)
             end) cs s in
        if ch then (Node d cs', true, s') else (n, false, s')
  end.

Fixpoint mapUpdate (l : list LogNode) (s : S) : list LogNode * bool * S :=
  match l with
  | [] => ([], false, s)
  | c :: r =>
      let '(c', b1, s1) := updateNode c s in
      let '(r', b2, s2) := mapUpdate r s1 in
      (c' :: r', b1 || b2, s2)
  end.

Definition updateNodeByIdM (nodes : list LogNode) (s : S) : list LogNode * S :=
  let '(next, changed, s') := mapUpdate nodes s in
  (if changed then next else nodes, s').
End Update.

(** [updateNodeById] with an updater that closes over no mutable state. *)
Definition pureUpdater (f : LogNode -> LogNode) : LogNode -> unit -> LogNode * unit :=
  fun n u => (f n, u).

Definition updateNodeById (nodes : list LogNode) (i : string)
           (f : LogNode -> LogNode) : list LogNode :=
  fst (updateNodeByIdM i (pureUpdater f) nodes tt).

(** Whether some node of the subtree (of the forest) carries the identifier. *)
Fixpoint hasId (i : string) (n : LogNode) : bool :=
  match n with
  | Node d cs =>
      String.eqb (id d) i ||
      (fix go (l : list LogNode) : bool :=
         match l with
         | [] => false
         | c :: r => hasId i c || go r
         end) cs
  end.

Fixpoint hasIdIn (i : string) (l : list LogNode) : bool :=
  match l with
  | [] => false
  | c :: r => hasId i c || hasIdIn i r
  end.

(** [updateNodeById] once more, recording for every element of the returned
    array where it comes from: [Kept n] is the branch [return n] (the very
    object of the argument array), [Applied n r] is [return updater(n)] with
    result [r], and [Spread n cs] is [return { ...n, children: .. }] around
    a fresh array whose elements are [cs]. *)
#[local] Unset Elimination Schemes.
Inductive Cell :=
| Kept (n : LogNode)
| Applied (n r : LogNode)
| Spread (n : LogNode) (cs : list Cell).
#[local] Set Elimination Schemes.

Fixpoint erase (c : Cell) : LogNode :=
  match c with
  | Kept n => n
  | Applied _ r => r
  | Spread n cs =>
      Node (data n)
           ((fix go (l : list Cell) : list LogNode :=
               match l with
               | [] => []
               | x :: r => erase x :: go r
               end) cs)
  end.

Definition fresh (c : Cell) : bool :=
  match c with Kept _ => false | _ => true end.

Section Trace.
Context {S : Type}.
Variable i : string.
Variable updater : LogNode -> S -> LogNode * S.

Fixpoint traceNode (n : LogNode) (s : S) : Cell * S :=
  match n with
  | Node d cs =>
      if String.eqb (id d) i then
        let '(r, s') := updater n s in (Applied n r, s')
      else
        let '(cells, s') :=
          (fix go (l : list LogNode) (s : S) : list Cell * S :=
             match l with
             | [] => ([], s)
             | c :: r =>
                 let '(c', s1) := traceNode c s in
                 let '(r', s2) := go r s1 in
                 (c' :: r', s2)
             end) cs s in
        if existsb fresh cells then (Spread n cells, s') else (Kept n, s')
  end.

Fixpoint traceList (l : list LogNode) (s : S) : list Cell * S :=
  match l with
  | [] => ([], s)
  | c :: r =>
      let '(c', s1) := traceNode c s in
      let '(r', s2) := traceList r s1 in
      (c' :: r', s2)
  end.
End Trace.

(** A cell is path-local for the node it replaces: kept when the node's
    subtree holds no match, applied when the node is a match, and rebuilt
    around path-local children when the match lies below. *)
#[local] Unset Elimination Schemes.
Inductive PathLocal (i : string) : LogNode -> Cell -> Prop :=
| PL_kept (n : LogNode) :
    hasId i n = false -> PathLocal i n (Kept n)
| PL_applied (n r : LogNode) :
    nodeId n = i -> PathLocal i n (Applied n r)
| PL_spread (d : NodeData) (cs : list LogNode) (cells : list Cell) :
    id d <> i -> hasIdIn i cs = true ->
    Forall2 (PathLocal i) cs cells ->
    PathLocal i (Node d cs) (Spread (Node d cs) cells).
#[local] Set Elimination Schemes.

(** The identifiers of all nodes of a forest, in depth-first pre-order. *)
Fixpoint idsOf (n : LogNode) : list string :=
  match n with
  | Node d cs =>
      id d :: (fix go (l : list LogNode) : list string :=
                 match l with
                 | [] => []
                 | c :: r => idsOf c ++ go r
                 end) cs
  end.

Fixpoint nodeIds (l : list LogNode) : list string :=
  match l with
  | [] => []
  | c :: r => idsOf c ++ nodeIds r
  end.

(** How many nodes of a forest carry an identifier. *)
Definition occurrences (i : string) (l : list LogNode) : nat :=
  length (List.filter (String.eqb i) (nodeIds l)).

End Tree.

(** ** Contexts: a forest with one node singled out *)

Module Zipper.
Import Tree.

(** The position of a node in a forest: among the roots, between the
    siblings [before] and [after], or below a root with fields [d], itself
    between siblings. *)
Inductive Ctx :=
| Here (before after : list LogNode)
| Below (before : list LogNode) (d : NodeData) (inner : Ctx) (after : list LogNode).

Fixpoint plug (c : Ctx) (t : LogNode) : list LogNode :=
  match c with
  | Here b a => b ++ t :: a
  | Below b d inner a => b ++ Node d (plug inner t) :: a
  end.

(** No node of the context carries the identifier. *)
Fixpoint avoids (i : string) (c : Ctx) : bool :=
  match c with
  | Here b a => negb (hasIdIn i b) && negb (hasIdIn i a)
  | Below b d inner a =>
      negb (hasIdIn i b) && negb (String.eqb (id d) i) &&
      avoids i inner && negb (hasIdIn i a)
  end.

End Zipper.

(** ** Constants ([src/utils/constants.ts]) *)

Definition LOG_MAX_LINES : nat := N.to_nat 5000.
Definition NET_MAX_ITEMS : nat := N.to_nat 1500.
Definition HEADER_LIMIT : nat := 120.
Definition BODY_LINE_LIMIT : nat := 300.

(** The eviction step shared by every append:
    [if (next.length > cap) return next.slice(next.length - cap); return next]. *)
Definition keepLast {A : Type} (cap : nat) (next : list A) : list A :=
  if (cap <? length next)%nat then drop (length next - cap) next else next.

(** JavaScript truthiness of an optional string ([!x] is its negation). *)
Definition truthy (o : option string) : bool :=
  match o with Some s => Js.nonEmpty s | None => false end.

(** [flat[flat.length - 1]?.nodeId] *)
Definition lastNodeId (flat : list FlatLogLine) : option string :=
  fl_nodeId <$> last flat.

(** [flat.findIndex(l => l.nodeId === i)], [-1] when absent. *)
Fixpoint findIndex (i : string) (flat : list FlatLogLine) : Z :=
  match flat with
  | [] => -1
  | l :: r =>
      if String.eqb (fl_nodeId l) i then 0
      else let k := findIndex i r in if (k <? 0)%Z then -1 else (k + 1)%Z
  end.

(** ** The log store ([src/hooks/useLogTree.ts]) *)

Module LogStore.
Import Tree.

(** The hook's state variables and refs. *)
Record State := mkState {
  logTree : list LogNode;
  followTail : bool;
  logScrollTop : Z;
  selectedLogNodeId : option string;
  logSearchOpen : bool;
  logSearchQuery : string;
  nextNodeIdRef : N;
  isExpandingRef : bool
}.

Definition initial : State := mkState [] true 0 None false "" 0 false.

Definition setLogTree (t : list LogNode) (s : State) : State :=
  mkState t (followTail s) (logScrollTop s) (selectedLogNodeId s)
          (logSearchOpen s) (logSearchQuery s) (nextNodeIdRef s) (isExpandingRef s).

Definition setFollowTail (b : bool) (s : State) : State :=
  mkState (logTree s) b (logScrollTop s) (selectedLogNodeId s)
          (logSearchOpen s) (logSearchQuery s) (nextNodeIdRef s) (isExpandingRef s).

Definition setLogScrollTop (z : Z) (s : State) : State :=
  mkState (logTree s) (followTail s) z (selectedLogNodeId s)
          (logSearchOpen s) (logSearchQuery s) (nextNodeIdRef s) (isExpandingRef s).

Definition setSelectedLogNodeId (o : option string) (s : State) : State :=
  mkState (logTree s) (followTail s) (logScrollTop s) o
          (logSearchOpen s) (logSearchQuery s) (nextNodeIdRef s) (isExpandingRef s).

Definition setLogSearchQuery (q : string) (s : State) : State :=
  mkState (logTree s) (followTail s) (logScrollTop s) (selectedLogNodeId s)
          (logSearchOpen s) q (nextNodeIdRef s) (isExpandingRef s).

Definition setNextNodeId (c : N) (s : State) : State :=
  mkState (logTree s) (followTail s) (logScrollTop s) (selectedLogNodeId s)
          (logSearchOpen s) (logSearchQuery s) c (isExpandingRef s).

Definition setIsExpanding (b : bool) (s : State) : State :=
  mkState (logTree s) (followTail s) (logScrollTop s) (selectedLogNodeId s)
          (logSearchOpen s) (logSearchQuery s) (nextNodeIdRef s) b.

(** [`n${k}`] *)
Definition nId (k : N) : string := "n" +:+ pretty k.

Section WithFormat.
Variable formatRemoteObject : RemoteObject -> string.

(** The predicate of [filteredLogTree] for a normalised, non-empty query. *)
Definition matchesLog (q : string) (n : LogNode) : bool :=
  let d := data n in
  let hay := Js.toLowerCase (Js.orElse (label d) "" +:+ " " +:+ Js.orElse (text d) "") in
  match kind d with
  | KEntry =>
      if Js.includes q (Js.toLowerCase (argsPreview formatRemoteObject (args d)))
      then true else Js.includes q hay
  | _ => Js.includes q hay
  end.

Definition filterTree (query : string) (tree : list LogNode) : list LogNode :=
  let q := Js.toLowerCase (Js.trim query) in
  if Js.nonEmpty q then List.filter (matchesLog q) tree else tree.

Definition filteredLogTree (s : State) : list LogNode :=
  filterTree (logSearchQuery s) (logTree s).

Definition flatLogs (s : State) : list FlatLogLine :=
  flattenLogTree formatRemoteObject (filteredLogTree s) None 0.

Definition selectedLogIndex (s : State) : Z :=
  let flat := flatLogs s in
  match flat with
  | [] => -1
  | _ =>
      let n := Z.of_nat (length flat) in
      match selectedLogNodeId s with
      | Some i =>
          if Js.nonEmpty i then
            let idx := findIndex i flat in
            if (0 <=? idx)%Z then idx else (n - 1)%Z
          else (n - 1)%Z
      | None => (n - 1)%Z
      end
  end.

End WithFormat.

(** *** Appending and clearing *)

(** [newLines.map(t => ({ id: `n${++nodeCounter}`, kind: "text", text: t }))] *)
Fixpoint numberLines (c : N) (ls : list string) : list LogNode :=
  match ls with
  | [] => []
  | t :: r => textNode (nId (c + 1)) t :: numberLines (c + 1) r
  end.

Definition appendTextLog (line : string) (s : State) : State :=
  let newLines := splitLines line in
  let nodes := numberLines (nextNodeIdRef s) newLines in
  let c := (nextNodeIdRef s + N.of_nat (length newLines))%N in
  setLogTree (keepLast LOG_MAX_LINES (logTree s ++ nodes)) (setNextNodeId c s).

Definition appendEntryLog (l : string) (a : list RemoteObject)
           (ts : option Z) (s : State) : State :=
  let c := (nextNodeIdRef s + 1)%N in
  setLogTree (keepLast LOG_MAX_LINES (logTree s ++ [entryNode (nId c) l a ts]))
             (setNextNodeId c s).

Definition clearLogs (s : State) : State :=
  setFollowTail true
    (setLogScrollTop 0 (setSelectedLogNodeId None (setLogTree [] s))).

(** *** Lazy expansion *)

(** [args.map((obj, i) => ({ id: `${node.id}:arg:${i}`, kind: "arg",
    object: obj, expanded: false }))], from index [k]. *)
Fixpoint argChildren (parent : string) (k : N) (a : list RemoteObject)
  : list LogNode :=
  match a with
  | [] => []
  | o :: r => argNode (parent +:+ ":arg:" +:+ pretty k) o :: argChildren parent (k + 1) r
  end.

Definition ensureEntryChildren (n : LogNode) : LogNode :=
  match kind (data n) with
  | KEntry =>
      if nonEmptyList (children n) then n
      else Node (data n) (argChildren (nodeId n) 0 (args (data n)))
  | _ => n
  end.

(** The expandable test of [toggleExpandSelected]. *)
Definition toggleExpandable (d : NodeData) : bool :=
  match kind d with
  | KEntry => nonEmptyList (args d)
  | KArg => isObjectExpandable (object d)
  | KProp => isObjectExpandable (value d)
  | _ => false
  end.

(** The call [getProperties(objectId)] a gesture is suspended on, and the
    node its result will be written to. *)
Record Pending := mkPending {
  target : string;
  fetchObjectId : string
}.

Definition objectIdOf (o : option RemoteObject) : string :=
  match o with
  | Some r => Js.orElse (objectId r) ""
  | None => ""
  end.

(** [{ ...n, loading: true, children: [loading meta] }] with the meta child's
    identifier drawn from the counter. *)
Definition loadingUpdater (n : LogNode) (c : N) : LogNode * N :=
  (Node (withLoading true (data n))
        [metaNode (nId (c + 1)) "(loading properties...)"], (c + 1)%N).

(** The updater of the entry branch. *)
Definition entryUpdater (nextExpanded autoExpandArg0 : bool) (n : LogNode) (c : N)
  : LogNode * N :=
  let ensured := ensureEntryChildren n in
  if negb autoExpandArg0 then
    (Node (withExpanded nextExpanded (data ensured)) (children ensured), c)
  else
    match children ensured with
    | first :: rest =>
        let updatedFirst :=
          Node (withLoading true (withExpanded true (data first)))
               [metaNode (nId (c + 1)) "(loading properties...)"] in
        (Node (withExpanded nextExpanded (data ensured)) (updatedFirst :: rest),
         (c + 1)%N)
    | [] => (Node (withExpanded nextExpanded (data ensured)) [], c)
    end.

Definition expandedUpdater (b : bool) (n : LogNode) : LogNode :=
  Node (withExpanded b (data n)) (children n).

(** [{ ...n, loading: false, children }] *)
Definition childrenUpdater (cs : list LogNode) (n : LogNode) : LogNode :=
  Node (withLoading false (data n)) cs.

(** [{ ...n, loading: false, children: [error meta] }] *)
Definition errorUpdater (prefix err : string) (mk : N -> string)
           (n : LogNode) (c : N) : LogNode * N :=
  (Node (withLoading false (data n)) [metaNode (mk (c + 1)%N) (prefix +:+ err)],
   (c + 1)%N).

(** Apply a counter-advancing updater to the tree of the store. *)
Definition updateTreeM (i : string) (u : LogNode -> N -> LogNode * N) (s : State)
  : State :=
  let '(t, c) := updateNodeByIdM i u (logTree s) (nextNodeIdRef s) in
  setLogTree t (setNextNodeId c s).

Definition updateTree (i : string) (f : LogNode -> LogNode) (s : State) : State :=
  setLogTree (updateNodeById (logTree s) i f) s.

Section Toggle.
Variable formatRemoteObject : RemoteObject -> string.

(** [toggleExpandSelected] up to its first [await]: the new state and the
    fetch it is suspended on, if any. *)
Definition toggleExpandSelected (s : State) : State * option Pending :=
  if isExpandingRef s then (s, None) else
  let flat := flatLogs formatRemoteObject s in
  match flat with
  | [] => (s, None)
  | _ =>
    let nodeId :=
      match selectedLogNodeId s with
      | Some i => i
      | None => Js.orElse (lastNodeId flat) ""
      end in
    if negb (Js.nonEmpty nodeId) then (s, None) else
    match findNodeById (logTree s) nodeId with
    | None => (s, None)
    | Some node =>
      let d := data node in
      if negb (toggleExpandable d) then (s, None) else
      let nextExpanded := negb (expanded d) in
      match kind d with
      | KEntry =>
          let firstArg := head (args d) in
          let autoExpandArg0 :=
            nextExpanded && (length (args d) =? 1)%nat && isObjectExpandable firstArg in
          let s1 := updateTreeM nodeId (entryUpdater nextExpanded autoExpandArg0) s in
          if autoExpandArg0 then
            (setIsExpanding true s1,
             Some (mkPending (nodeId +:+ ":arg:0") (objectIdOf firstArg)))
          else (s1, None)
      | _ =>
          let s1 := updateTree nodeId (expandedUpdater nextExpanded) s in
          if negb nextExpanded then (s1, None) else
          let obj := match kind d with KArg => object d | _ => value d end in
          if negb (isObjectExpandable obj) then (s1, None) else
          if nonEmptyList (children node) && negb (loading d) then (s1, None) else
          (updateTreeM nodeId loadingUpdater (setIsExpanding true s1),
           Some (mkPending nodeId (objectIdOf obj)))
      end
    end
  end.

End Toggle.

(** The rest of [toggleExpandSelected], run when the awaited promise
    settles: the [try] branch on fulfilment, the [catch] branch on
    rejection with [String(err)], and [finally] in both. *)
Definition fetchResolved (p : Pending) (cs : list LogNode) (s : State) : State :=
  setIsExpanding false (updateTree (target p) (childrenUpdater cs) s).

Definition fetchRejected (p : Pending) (err : string) (s : State) : State :=
  setIsExpanding false (updateTreeM (target p) (errorUpdater "[props] ! " err nId) s).

(** *** The follow-tail and search effects *)

(** The dependency array of the follow-tail effect:
    [[flatLogs.length, followTail, visibleLogLines, selectedLogNodeId]]. *)
Record Deps := mkDeps {
  depLength : Z;
  depFollowTail : bool;
  depVisible : Z;
  depSelected : option string
}.

Definition optStringEqb (a b : option string) : bool :=
  match a, b with
  | Some x, Some y => String.eqb x y
  | None, None => true
  | _, _ => false
  end.

Definition depsEqb (a b : Deps) : bool :=
  (depLength a =? depLength b)%Z && Bool.eqb (depFollowTail a) (depFollowTail b) &&
  (depVisible a =? depVisible b)%Z && optStringEqb (depSelected a) (depSelected b).

(** The hook between two renders: its state, and the dependency arrays its
    two effects last ran with ([None] before the first render). *)
Record Hook := mkHook {
  st : State;
  followDeps : option Deps;
  searchDeps : option string
}.

Definition mount : Hook := mkHook initial None None.

Definition followEffect (flat : list FlatLogLine) (visibleLogLines : Z)
           (s : State) : State :=
  match flat with
  | [] => setLogScrollTop 0 (setSelectedLogNodeId None s)
  | _ =>
      let n := Z.of_nat (length flat) in
      let s1 := if negb (truthy (selectedLogNodeId s))
                then setSelectedLogNodeId (lastNodeId flat) s else s in
      if followTail s then
        setLogScrollTop (Z.max 0 (n - visibleLogLines))
                        (setSelectedLogNodeId (lastNodeId flat) s1)
      else
        setLogScrollTop (clamp (logScrollTop s1) 0 (Z.max 0 (n - visibleLogLines))) s1
  end.

Definition searchEffect (s : State) : State :=
  if Js.nonEmpty (Js.trim (logSearchQuery s)) then setFollowTail false s else s.

Section Render.
Variable formatRemoteObject : RemoteObject -> string.
Variable visibleLogLines : Z.

(** One render followed by its effects: an effect runs only when its
    dependency array differs from the one of the previous render. *)
Definition commit (h : Hook) : Hook :=
  let s := st h in
  let flat := flatLogs formatRemoteObject s in
  let deps := mkDeps (Z.of_nat (length flat)) (followTail s) visibleLogLines
                     (selectedLogNodeId s) in
  let runFollow :=
    match followDeps h with Some d => negb (depsEqb d deps) | None => true end in
  let runSearch :=
    match searchDeps h with
    | Some q => negb (String.eqb q (logSearchQuery s))
    | None => true
    end in
  let s1 := if runFollow then followEffect flat visibleLogLines s else s in
  let s2 := if runSearch then
              (if Js.nonEmpty (Js.trim (logSearchQuery s)) then setFollowTail false s1 else s1)
            else s1 in
  mkHook s2 (Some deps) (Some (logSearchQuery s)).

(** React renders again while effects change the state; three rounds reach
    the fixed point from any state. *)
Definition render (h : Hook) : Hook := commit (commit (commit h)).

(** A state transition requested between two renders, then the renders. *)
Definition act (f : State -> State) (h : Hook) : Hook :=
  render (mkHook (f (st h)) (followDeps h) (searchDeps h)).

End Render.

(** *** Gestures and the fetch they wait for *)

(** How the promise returned by [getProperties] settles. *)
Inductive FetchResult :=
| Fulfilled (cs : list LogNode)
| Failed (err : string).

Definition settle (p : Pending) (r : FetchResult) (s : State) : State :=
  match r with
  | Fulfilled cs => fetchResolved p cs s
  | Failed err => fetchRejected p err s
  end.

(** A store together with the fetch in flight, if any, and the number of
    calls made to [getProperties] so far. *)
Record Session := mkSession {
  store : State;
  inFlight : option Pending;
  fetchCalls : nat
}.

Inductive Gesture :=
| Select (i : string)
| Toggle
| Settle (r : FetchResult).

Section Run.
Variable formatRemoteObject : RemoteObject -> string.

Definition step (g : Gesture) (x : Session) : Session :=
  match g with
  | Select i =>
      mkSession (setSelectedLogNodeId (Some i) (store x)) (inFlight x) (fetchCalls x)
  | Toggle =>
      let '(s', p) := toggleExpandSelected formatRemoteObject (store x) in
      match p with
      | Some q => mkSession s' (Some q) (Datatypes.S (fetchCalls x))
      | None => mkSession s' (inFlight x) (fetchCalls x)
      end
  | Settle r =>
      match inFlight x with
      | Some p => mkSession (settle p r (store x)) None (fetchCalls x)
      | None => x
      end
  end.

Definition run (gs : list Gesture) (x : Session) : Session :=
  foldl (fun acc g => step g acc) x gs.

End Run.

End LogStore.

(** ** The network store ([src/hooks/useNetTree.ts]) *)

Module NetStore.
Import Tree.

Definition Headers : Type := list (string * string).

(** Modelled from the spec: the type [NetRecord] of [src/types/network.ts]
    is not among the sources.  One record per request: method, url,
    per-phase header maps, status, statusText, mimeType, protocol, remote
    endpoint, cache and service-worker flags, request and response body
    cache, start and end timestamps, error text, canceled flag; the fields
    are named as the hooks read and write them.  [None] is [undefined].
    Numbers are integers; a header map is the list of its entries in
    [Object.entries] order. *)
Record NetRecord := mkNetRecord {
  r_requestId : string;
  startTimestamp : option Z;
  endTimestamp : option Z;
  method : option string;
  url : option string;
  requestHeaders : option Headers;
  postData : option string;
  initiator : option string;
  r_type : option string;
  status : option Z;
  statusText : option string;
  mimeType : option string;
  protocol : option string;
  remoteIPAddress : option string;
  remotePort : option Z;
  fromDiskCache : option bool;
  fromServiceWorker : option bool;
  responseHeaders : option Headers;
  encodedDataLength : option Z;
  errorText : option string;
  canceled : option bool;
  responseBody : option (string * bool)
}.

(** [Partial<NetRecord>]: for each field, [None] when the patch has no such
    key, [Some v] when it has the key with value [v] (possibly
    [undefined]). *)
Record Patch := mkPatch {
  p_requestId : option string;
  p_startTimestamp : option (option Z);
  p_endTimestamp : option (option Z);
  p_method : option (option string);
  p_url : option (option string);
  p_requestHeaders : option (option Headers);
  p_postData : option (option string);
  p_initiator : option (option string);
  p_type : option (option string);
  p_status : option (option Z);
  p_statusText : option (option string);
  p_mimeType : option (option string);
  p_protocol : option (option string);
  p_remoteIPAddress : option (option string);
  p_remotePort : option (option Z);
  p_fromDiskCache : option (option bool);
  p_fromServiceWorker : option (option bool);
  p_responseHeaders : option (option Headers);
  p_encodedDataLength : option (option Z);
  p_errorText : option (option string);
  p_canceled : option (option bool);
  p_responseBody : option (option (string * bool))
}.

Definition emptyPatch : Patch :=
  mkPatch None None None None None None None None None None None
          None None None None None None None None None None None.

(** [{ requestId: rid }] *)
Definition freshRecord (rid : string) : NetRecord :=
  mkNetRecord rid None None None None None None None None None None
              None None None None None None None None None None None.

(** One key of [{ ...prev, ...patch }]. *)
Definition over {A : Type} (p : option A) (old : A) : A :=
  match p with Some v => v | None => old end.

(** [{ ...prev, ...patch }] *)
Definition merge (prev : NetRecord) (p : Patch) : NetRecord :=
  mkNetRecord
    (over (p_requestId p) (r_requestId prev))
    (over (p_startTimestamp p) (startTimestamp prev))
    (over (p_endTimestamp p) (endTimestamp prev))
    (over (p_method p) (method prev))
    (over (p_url p) (url prev))
    (over (p_requestHeaders p) (requestHeaders prev))
    (over (p_postData p) (postData prev))
    (over (p_initiator p) (initiator prev))
    (over (p_type p) (r_type prev))
    (over (p_status p) (status prev))
    (over (p_statusText p) (statusText prev))
    (over (p_mimeType p) (mimeType prev))
    (over (p_protocol p) (protocol prev))
    (over (p_remoteIPAddress p) (remoteIPAddress prev))
    (over (p_remotePort p) (remotePort prev))
    (over (p_fromDiskCache p) (fromDiskCache prev))
    (over (p_fromServiceWorker p) (fromServiceWorker prev))
    (over (p_responseHeaders p) (responseHeaders prev))
    (over (p_encodedDataLength p) (encodedDataLength prev))
    (over (p_errorText p) (errorText prev))
    (over (p_canceled p) (canceled prev))
    (over (p_responseBody p) (responseBody prev)).

(** The hook's state variables and refs. *)
Record State := mkState {
  netTree : list LogNode;
  followNetTail : bool;
  netScrollTop : Z;
  selectedNetNodeId : option string;
  netSearchOpen : bool;
  netSearchQuery : string;
  netByIdRef : gmap string NetRecord;
  isExpandingRef : bool;
  nextNodeIdRef : N
}.

Definition initial : State := mkState [] true 0 None false "" ∅ false 0.

Definition setNetTree (t : list LogNode) (s : State) : State :=
  mkState t (followNetTail s) (netScrollTop s) (selectedNetNodeId s)
          (netSearchOpen s) (netSearchQuery s) (netByIdRef s)
          (isExpandingRef s) (nextNodeIdRef s).

Definition setNetById (m : gmap string NetRecord) (s : State) : State :=
  mkState (netTree s) (followNetTail s) (netScrollTop s) (selectedNetNodeId s)
          (netSearchOpen s) (netSearchQuery s) m
          (isExpandingRef s) (nextNodeIdRef s).

Definition setIsExpanding (b : bool) (s : State) : State :=
  mkState (netTree s) (followNetTail s) (netScrollTop s) (selectedNetNodeId s)
          (netSearchOpen s) (netSearchQuery s) (netByIdRef s)
          b (nextNodeIdRef s).

Definition setNextNodeId (c : N) (s : State) : State :=
  mkState (netTree s) (followNetTail s) (netScrollTop s) (selectedNetNodeId s)
          (netSearchOpen s) (netSearchQuery s) (netByIdRef s)
          (isExpandingRef s) c.

(** [upsertNet] *)
Definition upsertNet (rid : string) (patch : Patch) (s : State) : State :=
  let prev := default (freshRecord rid) (netByIdRef s !! rid) in
  setNetById (<[rid := merge prev patch]> (netByIdRef s)) s.

Definition getNetRecord (rid : string) (s : State) : option NetRecord :=
  netByIdRef s !! rid.

Definition clearNetwork (s : State) : State :=
  mkState [] true 0 None (netSearchOpen s) "" ∅
          (isExpandingRef s) (nextNodeIdRef s).

(** Computations that draw identifiers from [nextNodeIdRef]. *)
Definition Gen (A : Type) : Type := N -> A * N.

Definition ret {A : Type} (a : A) : Gen A := fun c => (a, c).

Definition bind {A B : Type} (m : Gen A) (k : A -> Gen B) : Gen B :=
  fun c => let '(a, c1) := m c in k a c1.

(** [`net_n${k}`] *)
Definition netId (k : N) : string := "net_n" +:+ pretty k.

Definition newNodeId : Gen string := fun c => (netId (c + 1), (c + 1)%N).

Fixpoint mapGen {A B : Type} (f : A -> Gen B) (l : list A) : Gen (list B) :=
  match l with
  | [] => ret []
  | a :: r => bind (f a) (fun b => bind (mapGen f r) (fun bs => ret (b :: bs)))
  end.

Definition newText (t : string) : Gen LogNode :=
  bind newNodeId (fun i => ret (textNode i t)).

Definition newMeta (t : string) : Gen LogNode :=
  bind newNodeId (fun i => ret (metaNode i t)).

(** [cond ? [node] : []] for the conditional pushes. *)
Definition pushIf (b : bool) (m : Gen LogNode) : Gen (list LogNode) :=
  if b then bind m (fun n => ret [n]) else ret [].

(** *** Labels and children of a request node *)

Section Projection.
(** [formatTime] of [src/format.ts], and the sort of header entries by
    [localeCompare] on their names. *)
Variable formatTime : Z -> string.
Variable sortEntries : Headers -> Headers.

Definition truthyText (o : option string) : bool :=
  match o with Some s => Js.nonEmpty s | None => false end.

Definition truthyFlag (o : option bool) : bool :=
  match o with Some b => b | None => false end.

(** [getNetLabel]; [now] is the reading of [Date.now()]. *)
Definition getNetLabel (rid : string) (now : Z) (s : State) : string :=
  let r := netByIdRef s !! rid in
  let time := formatTime (default now (r ≫= startTimestamp)) in
  let method := default "" (r ≫= method) in
  let url := default "" (r ≫= url) in
  let status := r ≫= status in
  let tail :=
    if truthyText (r ≫= errorText) then " ✖ " +:+ default "" (r ≫= errorText)
    else match status with
         | Some st => " " +:+ pretty st
         | None => ""
         end in
  Js.trimEnd ("[" +:+ time +:+ "] " +:+ method +:+ " " +:+ url +:+ tail).

Definition buildHeadersChildren (headers : option Headers) : Gen (list LogNode) :=
  let entries := sortEntries (default [] headers) in
  let sliced := take HEADER_LIMIT entries in
  bind (mapGen (fun kv => newText (fst kv +:+ ": " +:+ snd kv)) sliced) (fun children =>
  bind (pushIf (HEADER_LIMIT <? length entries)%nat
          (newMeta ("… (" +:+ pretty (length entries - HEADER_LIMIT)%nat +:+ " more headers)")))
       (fun more =>
  let children := children ++ more in
  bind (pushIf (negb (nonEmptyList children)) (newMeta "(no headers)")) (fun none =>
  ret (children ++ none)))).

Definition headerCount (h : option Headers) : string :=
  pretty (length (default [] h)).

Definition buildNetChildren (rid : string) (s : State) : Gen (list LogNode) :=
  let r := netByIdRef s !! rid in
  bind (pushIf (truthyText (r ≫= r_type))
          (newText ("type: " +:+ default "" (r ≫= r_type)))) (fun m1 =>
  bind (pushIf (truthyText (r ≫= initiator))
          (newText ("initiator: " +:+ default "" (r ≫= initiator)))) (fun m2 =>
  bind (pushIf (bool_decide (is_Some (r ≫= encodedDataLength)))
          (newText ("bytes: " +:+ pretty (default 0%Z (r ≫= encodedDataLength))))) (fun m3 =>
  let meta := m1 ++ m2 ++ m3 in
  bind (buildHeadersChildren (r ≫= requestHeaders)) (fun reqHeaderChildren =>
  let reqHeadersNode :=
    netEntry ("net:" +:+ rid +:+ ":reqHeaders")
             ("Request Headers (" +:+ headerCount (r ≫= requestHeaders) +:+ ")")
             (mkNetNodeInfo rid RHeaders (Some WRequest)) reqHeaderChildren in
  let resLineParts :=
    match r ≫= status with Some st => [pretty st] | None => [] end ++
    (if truthyText (r ≫= statusText) then [default "" (r ≫= statusText)] else []) ++
    (if truthyText (r ≫= mimeType) then [default "" (r ≫= mimeType)] else []) in
  bind (pushIf (truthyText (r ≫= protocol))
          (newText ("protocol: " +:+ default "" (r ≫= protocol)))) (fun r1 =>
  bind (pushIf (truthyText (r ≫= remoteIPAddress))
          (newText ("remote: " +:+ default "" (r ≫= remoteIPAddress) +:+
                    match r ≫= remotePort with
                    | Some p => ":" +:+ pretty p
                    | None => ""
                    end))) (fun r2 =>
  bind (pushIf (truthyFlag (r ≫= fromDiskCache)) (newText "fromDiskCache: true")) (fun r3 =>
  bind (pushIf (truthyFlag (r ≫= fromServiceWorker))
          (newText "fromServiceWorker: true")) (fun r4 =>
  let resMeta := r1 ++ r2 ++ r3 ++ r4 in
  bind (buildHeadersChildren (r ≫= responseHeaders)) (fun resHeaderChildren =>
  let resHeadersNode :=
    netEntry ("net:" +:+ rid +:+ ":resHeaders")
             ("Response Headers (" +:+ headerCount (r ≫= responseHeaders) +:+ ")")
             (mkNetNodeInfo rid RHeaders (Some WResponse)) resHeaderChildren in
  bind (newMeta "(press z to load)") (fun bodyHint =>
  let bodyNode :=
    netEntry ("net:" +:+ rid +:+ ":body") "Response Body"
             (mkNetNodeInfo rid RBody None) [bodyHint] in
  let responseNode :=
    netEntry ("net:" +:+ rid +:+ ":response")
             ("Response" +:+
              (if nonEmptyList resLineParts then ": " +:+ Js.join " " resLineParts else ""))
             (mkNetNodeInfo rid RResponse None)
             (resHeadersNode :: resMeta ++ [bodyNode]) in
  bind (newMeta "(press z to view)") (fun reqBodyHint =>
  let reqBodyNode :=
    netEntry ("net:" +:+ rid +:+ ":reqBody") "Request Body"
             (mkNetNodeInfo rid RBody (Some WRequest)) [reqBodyHint] in
  let reqMeta := if truthyText (r ≫= postData) then [reqBodyNode] else [] in
  ret (meta ++ reqHeadersNode :: reqMeta ++ [responseNode])))))))))))).

(** Apply a counter-advancing updater to the tree of the store. *)
Definition updateTreeM (i : string) (u : LogNode -> N -> LogNode * N) (s : State)
  : State :=
  let '(t, c) := updateNodeByIdM i u (netTree s) (nextNodeIdRef s) in
  setNetTree t (setNextNodeId c s).

Definition updateTree (i : string) (f : LogNode -> LogNode) (s : State) : State :=
  setNetTree (updateNodeById (netTree s) i f) s.

Definition labelUpdater (l : string) (n : LogNode) : LogNode :=
  Node (withLabel l (data n)) (children n).

Definition ensureNetRequestNode (rid : string) (now : Z) (s : State) : State :=
  let i := "net:" +:+ rid in
  match findNodeById (netTree s) i with
  | Some _ => updateTree i (labelUpdater (getNetLabel rid now s)) s
  | None =>
      let node :=
        Node (mkNodeData i KEntry None (Some (getNetLabel rid now s)) None []
                         None None None false false
                         (Some (mkNetNodeInfo rid RRequest None))) [] in
      setNetTree (keepLast NET_MAX_ITEMS (netTree s ++ [node])) s
  end.

(** The updater of [updateNetNodeLabel]: children are rebuilt only when the
    node already has some. *)
Definition relabelUpdater (rid : string) (now : Z) (s : State)
           (n : LogNode) (c : N) : LogNode * N :=
  let '(cs, c') :=
    if nonEmptyList (children n) then buildNetChildren rid s c else (children n, c) in
  (Node (withLabel (getNetLabel rid now s) (data n)) cs, c').

Definition updateNetNodeLabel (rid : string) (now : Z) (s : State) : State :=
  updateTreeM ("net:" +:+ rid) (relabelUpdater rid now s) s.

(** The four callbacks wired in [src/tui.tsx]. *)
Definition onNetworkRequest (rid : string) (patch : Patch) (now : Z) (s : State)
  : State :=
  ensureNetRequestNode rid now (upsertNet rid patch s).

Definition onNetworkUpdate (rid : string) (patch : Patch) (now : Z) (s : State)
  : State :=
  updateNetNodeLabel rid now (ensureNetRequestNode rid now (upsertNet rid patch s)).

Definition onNetworkResponse := onNetworkUpdate.
Definition onNetworkFinished := onNetworkUpdate.
Definition onNetworkFailed := onNetworkUpdate.

End Projection.

(** *** Filtering, flattening and lazy expansion *)

Section Expansion.
(** [formatRemoteObject] of [src/format.ts], the header sort, and
    [JSON.stringify(JSON.parse(s), null, 2)] ([None] when parsing throws). *)
Variable formatRemoteObject : RemoteObject -> string.
Variable sortEntries : Headers -> Headers.
Variable jsonPretty : string -> option string.

Definition matchesNet (q : string) (n : LogNode) : bool :=
  let d := data n in
  Js.includes q (Js.toLowerCase (Js.orElse (label d) "" +:+ " " +:+ Js.orElse (text d) "")).

Definition filteredNetTree (s : State) : list LogNode :=
  let q := Js.toLowerCase (Js.trim (netSearchQuery s)) in
  if Js.nonEmpty q then List.filter (matchesNet q) (netTree s) else netTree s.

Definition flatNet (s : State) : list FlatLogLine :=
  flattenLogTree formatRemoteObject (filteredNetTree s) None 0.

(** [tryPrettifyJson] and [formatResponseBody] of [src/utils/tree.ts]. *)
Definition tryPrettifyJson (body : string) : string * bool :=
  let trimmed := Js.trim body in
  if negb (Js.startsWith "{" trimmed) && negb (Js.startsWith "[" trimmed)
  then (body, false)
  else match jsonPretty trimmed with
       | Some pretty => (pretty, true)
       | None => (body, false)
       end.

Definition formatResponseBody (body : string) (base64Encoded : bool)
  : list string * string :=
  if base64Encoded then
    let preview :=
      if (100 <? String.length body)%nat
      then String.substring 0 100 body +:+ "..." else body in
    ([preview], "(base64 encoded)")
  else
    let '(formatted, isJson) := tryPrettifyJson body in
    (splitLines formatted, if isJson then "(json, formatted)" else "(text)").

(** The children shown under a body node. *)
Definition bodyChildren (lines : list string) (typeHint : string)
  : Gen (list LogNode) :=
  bind (newMeta typeHint) (fun hint =>
  bind (mapGen newText (take BODY_LINE_LIMIT lines)) (fun shown =>
  bind (pushIf (BODY_LINE_LIMIT <? length lines)%nat
          (newMeta ("… (" +:+ pretty (length lines - BODY_LINE_LIMIT)%nat +:+ " more lines)")))
       (fun more =>
  ret (hint :: shown ++ more)))).

Definition setChildrenOf (i : string) (build : Gen (list LogNode)) (s : State)
  : State :=
  let '(cs, c) := build (nextNodeIdRef s) in
  updateTree i (fun n => Node (data n) cs) (setNextNodeId c s).

(** The call [getResponseBody(requestId)] a gesture is suspended on, and
    the node its result will be written to. *)
Record Pending := mkPending {
  target : string;
  fetchRequestId : string
}.

Definition requestUpdater (rid : string) (nextExpanded : bool) (s : State)
           (n : LogNode) (c : N) : LogNode * N :=
  let '(cs, c') :=
    if nonEmptyList (children n) then (children n, c) else buildNetChildren sortEntries rid s c in
  (Node (withExpanded nextExpanded (data n)) cs, c').

Definition expandedUpdater (b : bool) (n : LogNode) : LogNode :=
  Node (withExpanded b (data n)) (children n).

Definition loadingUpdater (n : LogNode) (c : N) : LogNode * N :=
  (Node (withLoading true (data n))
        [metaNode (netId (c + 1)) "(loading response body...)"], (c + 1)%N).

(** [toggleNetExpandSelected] up to its first [await]. *)
Definition toggleNetExpandSelected (s : State) : State * option Pending :=
  if isExpandingRef s then (s, None) else
  let flat := flatNet s in
  match flat with
  | [] => (s, None)
  | _ =>
    let nodeId :=
      match selectedNetNodeId s with
      | Some i => i
      | None => Js.orElse (lastNodeId flat) ""
      end in
    if negb (Js.nonEmpty nodeId) then (s, None) else
    match findNodeById (netTree s) nodeId with
    | None => (s, None)
    | Some node =>
      let d := data node in
      let hasChildren := nonEmptyList (children node) in
      let expandable :=
        match kind d with
        | KEntry => hasChildren || bool_decide (is_Some (net d))
        | _ => false
        end in
      if negb expandable then (s, None) else
      let nextExpanded := negb (expanded d) in
      match net d with
      | Some (mkNetNodeInfo rid RRequest _) =>
          (updateTreeM nodeId (requestUpdater rid nextExpanded s) s, None)
      | Some (mkNetNodeInfo rid RBody (Some WRequest)) =>
          let s1 := updateTree nodeId (expandedUpdater nextExpanded) s in
          if negb nextExpanded then (s1, None) else
          let record := netByIdRef s1 !! rid in
          if truthyText (record ≫= postData) then
            let '(lines, typeHint) :=
              formatResponseBody (default "" (record ≫= postData)) false in
            (setChildrenOf nodeId (bodyChildren lines typeHint) s1, None)
          else (s1, None)
      | Some (mkNetNodeInfo rid RBody _) =>
          let s1 := updateTree nodeId (expandedUpdater nextExpanded) s in
          if negb nextExpanded then (s1, None) else
          let record := netByIdRef s1 !! rid in
          match record ≫= responseBody with
          | Some (body, base64Encoded) =>
              let '(lines, typeHint) := formatResponseBody body base64Encoded in
              (setChildrenOf nodeId (bodyChildren lines typeHint) s1, None)
          | None =>
              (updateTreeM nodeId loadingUpdater (setIsExpanding true s1),
               Some (mkPending nodeId rid))
          end
      | _ => (updateTree nodeId (expandedUpdater nextExpanded) s, None)
      end
    end
  end.

(** The rest of the gesture, run when the awaited promise settles. *)
Definition patchResponseBody (body : string * bool) : Patch :=
  mkPatch None None None None None None None None None None None
          None None None None None None None None None None (Some (Some body)).

Definition fetchResolved (p : Pending) (body : string) (base64Encoded : bool)
           (s : State) : State :=
  let s1 := upsertNet (fetchRequestId p) (patchResponseBody (body, base64Encoded)) s in
  let '(lines, typeHint) := formatResponseBody body base64Encoded in
  let '(cs, c) := bodyChildren lines typeHint (nextNodeIdRef s1) in
  setIsExpanding false
    (updateTree (target p) (fun n => Node (withLoading false (data n)) cs)
                (setNextNodeId c s1)).

Definition errorUpdater (err : string) (n : LogNode) (c : N) : LogNode * N :=
  (Node (withLoading false (data n)) [metaNode (netId (c + 1)) ("[body] ! " +:+ err)],
   (c + 1)%N).

Definition fetchRejected (p : Pending) (err : string) (s : State) : State :=
  setIsExpanding false (updateTreeM (target p) (errorUpdater err) s).

End Expansion.

(** *** Gestures and the fetch they wait for *)

(** How the promise returned by [getResponseBody] settles. *)
Inductive FetchResult :=
| Fulfilled (body : string) (base64Encoded : bool)
| Failed (err : string).

Record Session := mkSession {
  store : State;
  inFlight : option Pending;
  fetchCalls : nat
}.

Inductive Gesture :=
| Select (i : string)
| Toggle
| Settle (r : FetchResult).

Definition setSelectedNetNodeId (o : option string) (s : State) : State :=
  mkState (netTree s) (followNetTail s) (netScrollTop s) o
          (netSearchOpen s) (netSearchQuery s) (netByIdRef s)
          (isExpandingRef s) (nextNodeIdRef s).

Section Run.
Variable formatRemoteObject : RemoteObject -> string.
Variable sortEntries : Headers -> Headers.
Variable jsonPretty : string -> option string.

Definition settle (p : Pending) (r : FetchResult) (s : State) : State :=
  match r with
  | Fulfilled body base64Encoded => fetchResolved jsonPretty p body base64Encoded s
  | Failed err => fetchRejected p err s
  end.

Definition step (g : Gesture) (x : Session) : Session :=
  match g with
  | Select i =>
      mkSession (setSelectedNetNodeId (Some i) (store x)) (inFlight x) (fetchCalls x)
  | Toggle =>
      let '(s', p) :=
        toggleNetExpandSelected formatRemoteObject sortEntries jsonPretty (store x) in
      match p with
      | Some q => mkSession s' (Some q) (Datatypes.S (fetchCalls x))
      | None => mkSession s' (inFlight x) (fetchCalls x)
      end
  | Settle r =>
      match inFlight x with
      | Some p => mkSession (settle p r (store x)) None (fetchCalls x)
      | None => x
      end
  end.

Definition run (gs : list Gesture) (x : Session) : Session :=
  foldl (fun acc g => step g acc) x gs.

End Run.

End NetStore.

(** ** The protocol client ([src/hooks/useCdpClient.ts]) *)

Module Cdp.
Import NetStore.

(** The patches built by the four network listeners, from the fields of
    the protocol payload they read ([None]: the field is missing). *)
Definition requestWillBeSent (ts : option Z) (method url : option string)
           (headers : option Headers) (postData initiatorUrl type : option string)
  : Patch :=
  mkPatch None (Some ts) None
          (Some (Some (default "" method))) (Some (Some (default "" url)))
          (Some (Some (default [] headers))) (Some postData)
          (Some (if truthyText initiatorUrl then initiatorUrl else None))
          (Some (if truthyText type then type else None))
          None None None None None None None None None None None None None.

Definition responseReceived (status : option Z)
           (statusText mimeType protocol remoteIPAddress : option string)
           (remotePort : option Z) (fromDiskCache fromServiceWorker : option bool)
           (headers : option Headers) : Patch :=
  mkPatch None None None None None None None None None
          (Some status) (Some statusText) (Some mimeType) (Some protocol)
          (Some remoteIPAddress) (Some remotePort)
          (Some (Some (truthyFlag fromDiskCache)))
          (Some (Some (truthyFlag fromServiceWorker)))
          (Some (Some (default [] headers)))
          None None None None.

Definition loadingFinished (ts encodedDataLength : option Z) : Patch :=
  mkPatch None None (Some ts) None None None None None None None None None
          None None None None None None (Some encodedDataLength) None None None.

Definition loadingFailed (ts : option Z) (errorText : option string)
           (canceled : option bool) : Patch :=
  mkPatch None None (Some ts) None None None None None None None None None
          None None None None None None None
          (Some (Some (default "failed" errorText)))
          (Some (Some (truthyFlag canceled))) None.

(** One element of the property list after the filter and the map of
    [getProperties]. *)
Record PropertyItem := mkPropertyItem {
  pi_name : string;
  pi_value : RemoteObject;
  pi_enumerable : bool
}.

(** [`prop_${++nodeCounter}_${Date.now()}`] *)
Definition propId (k : N) (now : Z) : string :=
  "prop_" +:+ pretty k +:+ "_" +:+ pretty now.

Fixpoint propNodes (clock : N -> Z) (k : N) (items : list PropertyItem)
  : list LogNode :=
  match items with
  | [] => []
  | it :: r =>
      propNode (propId (k + 1) (clock (k + 1)%N)) (pi_name it) (pi_value it)
      :: propNodes clock (k + 1) r
  end.

Definition LIMIT : nat := 80.

(** The nodes [getProperties] resolves to, from the sorted items;
    [clock k] is the reading of [Date.now()] when the [k]-th identifier of
    the call is drawn. *)
Definition getPropertiesNodes (clock : N -> Z) (items : list PropertyItem)
  : list LogNode :=
  let sliced := take LIMIT items in
  let children := propNodes clock 0 sliced in
  if (LIMIT <? length items)%nat then
    let k := N.of_nat (length sliced) in
    children ++
    [metaNode (propId (k + 1) (clock (k + 1)%N))
              ("… (" +:+ pretty (length items - LIMIT)%nat +:+ " more properties)")]
  else children.

End Cdp.

(** ** Text copied to the clipboard ([src/utils/tree.ts], [src/tui.tsx]) *)

Module Clip.
Import Tree.

Section WithFormat.
Variable formatRemoteObject : RemoteObject -> string.

(** ["  ".repeat(indent)] *)
Fixpoint pad (indent : nat) : string :=
  match indent with
  | O => EmptyString
  | Datatypes.S k => "  " +:+ pad k
  end.

(** The line [serializeNodeDeep] writes for one node. *)
Definition deepLine (indent : nat) (d : NodeData) : string :=
  let p := pad indent in
  match kind d with
  | KText | KMeta => Js.trimEnd (p +:+ Js.orElse (text d) "")
  | KEntry =>
      let l := Js.orElse (label d) "" in
      let preview := argsPreview formatRemoteObject (args d) in
      Js.trimEnd (p +:+ (if Js.nonEmpty preview
                         then Js.trimEnd (l +:+ " " +:+ preview) else l))
  | KArg =>
      Js.trimEnd (p +:+ match object d with
                        | Some o => formatRemoteObject o
                        | None => ""
                        end)
  | KProp =>
      Js.trimEnd (p +:+ Js.orElse (name d) "?" +:+ ": " +:+
                  match value d with
                  | Some v => formatRemoteObject v
                  | None => "undefined"
                  end)
  end.

Fixpoint serializeNodeDeep (node : LogNode) (indent : nat) : list string :=
  match node with
  | Node d cs =>
      deepLine indent d ::
      (fix go (l : list LogNode) : list string :=
         match l with
         | [] => []
         | c :: r => serializeNodeDeep c (Datatypes.S indent) ++ go r
         end) cs
  end.

Fixpoint serializeBodyOnly (node : LogNode) : list string :=
  match node with
  | Node d cs =>
      match kind d with
      | KMeta => []
      | KText => [Js.orElse (text d) ""]
      | _ =>
          (fix go (l : list LogNode) : list string :=
             match l with
             | [] => []
             | c :: r => serializeBodyOnly c ++ go r
             end) cs
      end
  end.

(** The text the [y] key copies for the node [root]. *)
Definition copyText (root : LogNode) : string :=
  match net (data root) with
  | Some (mkNetNodeInfo _ RBody _) =>
      Js.join (String Js.newline EmptyString) (serializeBodyOnly root)
  | _ => Js.join (String Js.newline EmptyString) (serializeNodeDeep root 0)
  end.

End WithFormat.
End Clip.

(** ** Keys and scrolling of the log pane ([src/tui.tsx]) *)

Module Tui.
Import Tree LogStore.

(** The updater of the effect that keeps the selected line of the log (and
    of the network) pane on screen. *)
Definition scrollIntoView (selectedIndex len visibleLogLines top : Z) : Z :=
  let maxTop := Z.max 0 (len - visibleLogLines) in
  let nextTop := clamp top 0 maxTop in
  let nextTop := if (selectedIndex <? nextTop)%Z then selectedIndex else nextTop in
  if (nextTop + visibleLogLines <=? selectedIndex)%Z
  then (selectedIndex - visibleLogLines + 1)%Z else nextTop.

(** The updater of the same effect for the target list. *)
Definition scrollTargetIntoView (selectedIndex len visibleTargetItems top : Z) : Z :=
  let maxTop := Z.max 0 (len - visibleTargetItems) in
  let curTop := clamp top 0 maxTop in
  if (selectedIndex <? curTop)%Z then selectedIndex
  else if (curTop + visibleTargetItems <=? selectedIndex)%Z
       then (selectedIndex - visibleTargetItems + 1)%Z
       else curTop.

Definition setLogSearchOpen (b : bool) (s : State) : State :=
  mkState (logTree s) (followTail s) (logScrollTop s) (selectedLogNodeId s)
          b (logSearchQuery s) (nextNodeIdRef s) (isExpandingRef s).

(** The keys handled by [useInput] when the log pane has the focus and no
    prompt is open. *)
Inductive Key :=
| KeyUp | KeyDown | KeyPageUp | KeyPageDown
| KeyFollow | KeySearch | KeyClear.

Section WithFormat.
Variable formatRemoteObject : RemoteObject -> string.
Variable visibleLogLines : Z.

(** The effect of [src/tui.tsx] that scrolls the selected log line into
    view; [active] tells whether the log pane has the focus. *)
Definition scrollEffect (active : bool) (s : State) : State :=
  if negb active then s else
  let flat := flatLogs formatRemoteObject s in
  match flat with
  | [] => s
  | _ =>
      let idx := selectedLogIndex formatRemoteObject s in
      if (idx <? 0)%Z then s
      else setLogScrollTop
             (scrollIntoView idx (Z.of_nat (length flat)) visibleLogLines
                             (logScrollTop s)) s
  end.

(** [setActiveSelected(activeFlat[nextIdx]?.nodeId ?? null)] *)
Definition selectAt (flat : list FlatLogLine) (nextIdx : Z) (s : State) : State :=
  setSelectedLogNodeId (fl_nodeId <$> flat !! Z.to_nat nextIdx) s.

Definition useInput (k : Key) (s : State) : State :=
  let flat := flatLogs formatRemoteObject s in
  let n := Z.of_nat (length flat) in
  let activeIndex := selectedLogIndex formatRemoteObject s in
  match k with
  | KeyUp =>
      match flat with
      | [] => s
      | _ => selectAt flat (clamp (activeIndex - 1) 0 (n - 1)) (setFollowTail false s)
      end
  | KeyDown =>
      match flat with
      | [] => s
      | _ =>
          let nextIdx := clamp (activeIndex + 1) 0 (n - 1) in
          setFollowTail (nextIdx =? n - 1)%Z (selectAt flat nextIdx s)
      end
  | KeyPageUp =>
      match flat with
      | [] => s
      | _ =>
          selectAt flat (clamp (activeIndex - visibleLogLines) 0 (n - 1))
                   (setFollowTail false s)
      end
  | KeyPageDown =>
      match flat with
      | [] => s
      | _ =>
          let nextIdx := clamp (activeIndex + visibleLogLines) 0 (n - 1) in
          setFollowTail (nextIdx =? n - 1)%Z (selectAt flat nextIdx s)
      end
  | KeyFollow => setFollowTail true s
  | KeySearch => setFollowTail false (setLogSearchOpen true s)
  | KeyClear => clearLogs s
  end.

End WithFormat.
End Tui.

(** ** Collapsing the region of the selection ([src/hooks/useLogTree.ts]) *)

Module Region.
Import Tree LogStore.



Section WithFormat.
Variable formatRemoteObject : RemoteObject -> string.


End WithFormat.
End Region.

(** ** Sample forests used by the statements below *)

Module Samples.

(** A root entry labelled "alpha", without arguments, holding one child. *)
Definition alphaRoot (i : string) (isExpanded : bool) (c : LogNode) : LogNode :=
  Node (mkNodeData i KEntry None (Some "alpha") None [] None None None
                   isExpanded false None) [c].

(** A leaf entry labelled "needle". *)
Definition needleChild (i : string) : LogNode :=
  Node (mkNodeData i KEntry None (Some "needle") None [] None None None
                   false false None) [].

(** A remote object with an identity, hence expandable. *)
Definition remoteObj (oid : string) : RemoteObject :=
  mkRemoteObject (Some "object") None None (Some "Object") None None (Some oid) None.

(** A stand-in for [formatRemoteObject]: the object's description. *)
Definition describe (o : RemoteObject) : string :=
  Js.orElse (description o) "".

(** Stand-ins for the header sort and for JSON pretty-printing. *)
Definition keepOrder (h : NetStore.Headers) : NetStore.Headers := h.
Definition notJson (s : string) : option string := None.
Definition clockTime (t : Z) : string := pretty t.

(** Two log entries, each with one expandable argument. *)
Definition twoEntries : LogStore.State :=
  LogStore.appendEntryLog "second" [remoteObj "o2"] None
    (LogStore.appendEntryLog "first" [remoteObj "o1"] None LogStore.initial).

(** ... the first of them expanded, its argument being fetched. *)
Definition firstInFlight : LogStore.Session :=
  LogStore.run describe [LogStore.Select "n1"; LogStore.Toggle]
               (LogStore.mkSession twoEntries None 0).

(** One entry with two arguments, the first expandable and collapsed under
    the expanded entry. *)
Definition twoArgs : LogStore.Session :=
  LogStore.run describe [LogStore.Select "n1"; LogStore.Toggle]
    (LogStore.mkSession
       (LogStore.appendEntryLog "pair" [remoteObj "o1"; remoteObj "o2"] None
                                LogStore.initial) None 0).

Definition entryData1 : NodeData :=
  mkNodeData "n1" KEntry None (Some "first") None [remoteObj "o1"] None None None
             true false None.

Definition argLoading : LogNode :=
  Node (mkNodeData "n1:arg:0" KArg None None None [] (Some (remoteObj "o1")) None None
                   true true None)
       [metaNode "n3" "(loading properties...)"].

Definition secondEntry : LogNode := entryNode "n2" "second" [remoteObj "o2"] None.

(** A text of [k] lines. *)
Definition manyLines (k : nat) : string :=
  Js.join (String Js.newline EmptyString) (replicate k "a").

(** The log hook, 20 lines visible, after one append that fills the store
    to its cap, and after one more line. *)
Definition atCap : LogStore.Hook :=
  LogStore.act describe 20 (LogStore.appendTextLog (manyLines LOG_MAX_LINES))
               LogStore.mount.

Definition pastCap : LogStore.Hook :=
  LogStore.act describe 20 (LogStore.appendTextLog "x") atCap.

(** Two expansions whose property fetches both complete while [Date.now()]
    reads 1000. *)
Definition oneProperty (nm oid : string) : list LogNode :=
  Cdp.getPropertiesNodes (fun _ => 1000%Z)
                         [Cdp.mkPropertyItem nm (remoteObj oid) true].

Definition sameMillisecond : LogStore.Session :=
  LogStore.run describe
    [LogStore.Settle (LogStore.Fulfilled (oneProperty "a" "o3"));
     LogStore.Select "n2"; LogStore.Toggle;
     LogStore.Settle (LogStore.Fulfilled (oneProperty "b" "o4"))]
    firstInFlight.

End Samples.

(** * Properties *)

(** ** Equations of the tree utilities *)

Module TreeFacts.
Import Tree.

Lemma findNode_eq (i : string) (d : NodeData) (cs : list LogNode) :
  findNode i (Node d cs) =
  if String.eqb (id d) i then Some (Node d cs) else findNodeById cs i.
Proof.
  simpl. destruct (String.eqb (id d) i); [reflexivity|].
  induction cs as [|c r IH]; simpl; [reflexivity|].
  destruct (findNode i c); [reflexivity|apply IH].
Qed.

Lemma flattenNode_eq (fmt : RemoteObject -> string) (p : option string) (k : Z)
      (d : NodeData) (cs : list LogNode) :
  flattenNode fmt p k (Node d cs) =
  lineOf fmt p k (Node d cs) ::
  (if expanded d then flattenLogTree fmt cs (Some (id d)) (k + 1) else []).
Proof.
  simpl. f_equal. destruct (expanded d); [|reflexivity].
  induction cs as [|c r IH]; simpl; [reflexivity|]. now rewrite IH.
Qed.

Lemma flattenLogTree_app (fmt : RemoteObject -> string) (a b : list LogNode)
      (p : option string) (k : Z) :
  flattenLogTree fmt (a ++ b) p k = flattenLogTree fmt a p k ++ flattenLogTree fmt b p k.
Proof.
  induction a as [|n r IH]; simpl; [reflexivity|].
  now rewrite IH, app_assoc.
Qed.

Section UpdateFacts.
Context {S : Type}.
Variable i : string.
Variable updater : LogNode -> S -> LogNode * S.

Lemma updateNode_eq (d : NodeData) (cs : list LogNode) (s : S) :
  updateNode i updater (Node d cs) s =
  if String.eqb (id d) i then
    let '(n', s') := updater (Node d cs) s in (n', true, s')
  else
    let '(cs', ch, s') := mapUpdate i updater cs s in
    if ch then (Node d cs', true, s') else (Node d cs, false, s').
Proof.
  simpl. destruct (String.eqb (id d) i); [reflexivity|].
  match goal with
  | |- match ?X with pair _ _ => _ end = _ =>
      assert (E : X = mapUpdate i updater cs s)
  end.
  { revert s. induction cs as [|c r IH]; intros t; simpl; [reflexivity|].
    destruct (updateNode i updater c t) as [[c' b1] s1]. now rewrite IH. }
  now rewrite E.
Qed.

End UpdateFacts.

Lemma hasId_eq (i : string) (d : NodeData) (cs : list LogNode) :
  hasId i (Node d cs) = String.eqb (id d) i || hasIdIn i cs.
Proof.
  simpl. f_equal. induction cs as [|c r IH]; simpl; [reflexivity|]. now rewrite IH.
Qed.

Lemma erase_Spread (n : LogNode) (cs : list Cell) :
  erase (Spread n cs) = Node (data n) (map erase cs).
Proof. reflexivity. Qed.

Section TraceFacts.
Context {S : Type}.
Variable i : string.
Variable updater : LogNode -> S -> LogNode * S.

Lemma traceNode_eq (d : NodeData) (cs : list LogNode) (s : S) :
  traceNode i updater (Node d cs) s =
  if String.eqb (id d) i then
    let '(r, s') := updater (Node d cs) s in (Applied (Node d cs) r, s')
  else
    let '(cells, s') := traceList i updater cs s in
    if existsb fresh cells then (Spread (Node d cs) cells, s')
    else (Kept (Node d cs), s').
Proof.
  simpl. destruct (String.eqb (id d) i); [reflexivity|].
  match goal with
  | |- match ?X with pair _ _ => _ end = _ =>
      assert (E : X = traceList i updater cs s)
  end.
  { revert s. induction cs as [|c r IH]; intros t; simpl; [reflexivity|].
    destruct (traceNode i updater c t) as [c' s1]. now rewrite IH. }
  now rewrite E.
Qed.

(** What the trace of one node says. *)
Definition traceNodeSpec (n : LogNode) : Prop :=
  forall s, exists c s',
    traceNode i updater n s = (c, s') /\
    updateNode i updater n s = (erase c, hasId i n, s') /\
    fresh c = hasId i n /\
    PathLocal i n c /\
    (if hasId i n then True else c = Kept n /\ s' = s).

Definition traceListSpec (l : list LogNode) : Prop :=
  forall s, exists cells s',
    traceList i updater l s = (cells, s') /\
    mapUpdate i updater l s = (map erase cells, hasIdIn i l, s') /\
    existsb fresh cells = hasIdIn i l /\
    Forall2 (PathLocal i) l cells /\
    (if hasIdIn i l then True else cells = map Kept l /\ s' = s).

Lemma trace_spec (l : list LogNode) : traceListSpec l.
Proof.
  revert l. apply (forest_ind traceNodeSpec traceListSpec).
  - (* a node *)
    intros d cs H0 s. rewrite traceNode_eq, updateNode_eq, hasId_eq.
    destruct (String.eqb (id d) i) eqn:E.
    + destruct (updater (Node d cs) s) as [r s'].
      exists (Applied (Node d cs) r), s'. simpl.
      repeat split; try reflexivity.
      apply PL_applied. apply String.eqb_eq in E. exact E.
    + destruct (H0 s) as (cells & s' & Ht & Hm & Hf & Hp & Hn).
      rewrite Ht, Hm, Hf. simpl.
      destruct (hasIdIn i cs) eqn:Ein.
      * exists (Spread (Node d cs) cells), s'. rewrite erase_Spread. simpl.
        repeat split; try reflexivity.
        apply PL_spread; [|exact Ein|exact Hp].
        apply String.eqb_neq in E. exact E.
      * destruct Hn as [-> ->].
        exists (Kept (Node d cs)), s. simpl. repeat split; try reflexivity.
        apply PL_kept. rewrite hasId_eq, E, Ein. reflexivity.
  - intros s. exists [], s. simpl. repeat split; constructor.
  - intros n ns H1 H2 s. simpl.
    destruct (H1 s) as (c & s1 & Ht & Hu & Hf & Hp & Hn).
    destruct (H2 s1) as (cells & s2 & Ht' & Hu' & Hf' & Hp' & Hn').
    rewrite Ht, Ht', Hu, Hu'. exists (c :: cells), s2. simpl.
    rewrite Hf, Hf'. repeat split; try reflexivity.
    + constructor; assumption.
    + destruct (hasId i n); simpl; [exact I|].
      destruct (hasIdIn i ns); [exact I|].
      destruct Hn as [-> ->]. destruct Hn' as [-> ->]. split; reflexivity.
Qed.

End TraceFacts.
End TreeFacts.

(** ** The flattener and the root-only filter *)

Module FilterFacts.
Import Tree TreeFacts LogStore Samples.

Section WithFormat.
Variable fmt : RemoteObject -> string.

(** Whether a root survives the filter for a raw query. *)
Definition keeps (query : string) (n : LogNode) : bool :=
  let q := Js.toLowerCase (Js.trim query) in
  if Js.nonEmpty q then matchesLog fmt q n else true.

Lemma filterTree_keeps (query : string) (tree : list LogNode) :
  filterTree fmt query tree = List.filter (keeps query) tree.
Proof.
  unfold filterTree, keeps.
  destruct (Js.nonEmpty (Js.toLowerCase (Js.trim query))); [reflexivity|].
  induction tree as [|n r IH]; simpl; [reflexivity|]. now rewrite <- IH.
Qed.

Lemma filterTree_app (query : string) (a b : list LogNode) :
  filterTree fmt query (a ++ b) = filterTree fmt query a ++ filterTree fmt query b.
Proof. rewrite !filterTree_keeps. apply List.filter_app. Qed.

Lemma keeps_children (query : string) (d : NodeData) (cs cs' : list LogNode) :
  keeps query (Node d cs) = keeps query (Node d cs').
Proof. reflexivity. Qed.

Lemma flat_around (query : string) (pre post : list LogNode) (n : LogNode) :
  flattenLogTree fmt (filterTree fmt query (pre ++ n :: post)) None 0 =
  flattenLogTree fmt (filterTree fmt query pre) None 0 ++
  (if keeps query n then flattenNode fmt None 0 n else []) ++
  flattenLogTree fmt (filterTree fmt query post) None 0.
Proof.
  rewrite filterTree_app, flattenLogTree_app. f_equal.
  rewrite !filterTree_keeps. simpl.
  destruct (keeps query n); reflexivity.
Qed.

End WithFormat.

(** C4. Filtering acts on root nodes only: a root that does not match the
    query disappears with its whole subtree, a root that matches is walked in
    full, and whether a root matches does not depend on its children.  A
    root entry "alpha" with a child "needle" shows no line under the query
    "needle" (whatever the child is), and under "alpha" shows the root
    followed, when the root is expanded, by its child. *)
Theorem root_only_filter (fmt : RemoteObject -> string) :
  (forall (query : string) (pre post : list LogNode) (n : LogNode),
      flattenLogTree fmt (filterTree fmt query (pre ++ n :: post)) None 0 =
      flattenLogTree fmt (filterTree fmt query pre) None 0 ++
      (if keeps fmt query n then flattenNode fmt None 0 n else []) ++
      flattenLogTree fmt (filterTree fmt query post) None 0) /\
  (forall (query : string) (d : NodeData) (cs cs' : list LogNode),
      keeps fmt query (Node d cs) = keeps fmt query (Node d cs')) /\
  (forall (r : string) (b : bool) (c : LogNode),
      flattenLogTree fmt (filterTree fmt "needle" [alphaRoot r b c]) None 0 = []) /\
  (forall (r k : string) (b : bool),
      flattenLogTree fmt (filterTree fmt "alpha" [alphaRoot r b (needleChild k)]) None 0 =
      mkFlatLogLine r None 0 "alpha" true b ::
      (if b then [mkFlatLogLine k (Some r) 1 "needle" false false] else [])).
Proof.
  split; [|split; [|split]].
  - intros. apply flat_around.
  - intros. apply keeps_children.
  - intros. reflexivity.
  - intros r k b. destruct b; reflexivity.
Qed.

End FilterFacts.

(** ** Clearing a store *)

Module ClearFacts.

(** C10. [clearLogs] empties the log forest, resets the selection to none
    and the scroll offset to 0 and turns follow-tail on, leaving the log
    search query as it was; [clearNetwork] does the same for the network
    store and also empties the record map and resets the network search
    query to the empty string. *)
Theorem clear_asymmetry (s : LogStore.State) (n : NetStore.State) :
  (LogStore.logTree (LogStore.clearLogs s) = [] /\
   LogStore.selectedLogNodeId (LogStore.clearLogs s) = None /\
   LogStore.logScrollTop (LogStore.clearLogs s) = 0%Z /\
   LogStore.followTail (LogStore.clearLogs s) = true /\
   LogStore.logSearchQuery (LogStore.clearLogs s) = LogStore.logSearchQuery s) /\
  (NetStore.netTree (NetStore.clearNetwork n) = [] /\
   NetStore.selectedNetNodeId (NetStore.clearNetwork n) = None /\
   NetStore.netScrollTop (NetStore.clearNetwork n) = 0%Z /\
   NetStore.followNetTail (NetStore.clearNetwork n) = true /\
   NetStore.netByIdRef (NetStore.clearNetwork n) = ∅ /\
   NetStore.netSearchQuery (NetStore.clearNetwork n) = "").
Proof. repeat split. Qed.

End ClearFacts.

(** ** Point mutation *)

Module UpdateFacts.
Import Tree TreeFacts.

(** C7. [updateNodeById] rebuilds only the path to a matched node: in the
    array it returns, the element for a root whose subtree holds no node
    with the identifier is the very object of the argument ([Kept]), a
    matched node is replaced by the updater's result ([Applied]), and a node
    above a match is spread around a children array built the same way
    ([Spread]); the flag [changed] is set exactly when some node carries the
    identifier, and when none does the argument array itself is returned and
    the updater never runs. *)
Theorem updateNodeById_path_local {S : Type} (i : string)
        (updater : LogNode -> S -> LogNode * S) (nodes : list LogNode) (s : S) :
  exists (cells : list Cell) (s' : S),
    traceList i updater nodes s = (cells, s') /\
    Forall2 (PathLocal i) nodes cells /\
    mapUpdate i updater nodes s = (map erase cells, hasIdIn i nodes, s') /\
    updateNodeByIdM i updater nodes s =
      (if hasIdIn i nodes then map erase cells else nodes, s') /\
    (if hasIdIn i nodes then True else cells = map Kept nodes /\ s' = s).
Proof.
  destruct (trace_spec i updater nodes s) as (cells & s' & Ht & Hm & Hf & Hp & Hn).
  exists cells, s'. repeat split; try assumption.
  unfold updateNodeByIdM. rewrite Hm. reflexivity.
Qed.

End UpdateFacts.

(** ** Eviction at the cap *)

Module CapFacts.
Import Tree LogStore.

Lemma keepLast_drop {A : Type} (cap : nat) (l : list A) :
  keepLast cap l = drop (length l - cap) l.
Proof.
  unfold keepLast. destruct (Nat.ltb_spec cap (length l)); [reflexivity|].
  replace (length l - cap)%nat with 0%nat by lia. reflexivity.
Qed.

Lemma keepLast_length {A : Type} (cap : nat) (l : list A) :
  length (keepLast cap l) = Nat.min (length l) cap.
Proof. rewrite keepLast_drop, length_drop. lia. Qed.


Lemma numberLines_app (c : N) (a b : list string) :
  numberLines c (a ++ b) =
  numberLines c a ++ numberLines (c + N.of_nat (length a)) b.
Proof.
  revert c. induction a as [|x r IH]; intros c; simpl.
  - now rewrite N.add_0_r.
  - rewrite IH. do 3 f_equal. lia.
Qed.


(** A line without a line feed is not split. *)
Fixpoint hasNewline (s : string) : bool :=
  match s with
  | EmptyString => false
  | String c r => if ascii_dec c Js.newline then true else hasNewline r
  end.









End CapFacts.

(** ** Finding and updating by identifier *)

Module PointFacts.
Import Tree TreeFacts Zipper.

Lemma findNodeById_hasIdIn (i : string) (l : list LogNode) :
  hasIdIn i l = bool_decide (is_Some (findNodeById l i)).
Proof.
  revert l.
  apply (forest_ind
           (fun n => hasId i n = bool_decide (is_Some (findNode i n)))
           (fun l => hasIdIn i l = bool_decide (is_Some (findNodeById l i)))).
  - intros d cs IH. rewrite hasId_eq, findNode_eq.
    destruct (String.eqb (id d) i); simpl; [reflexivity|exact IH].
  - reflexivity.
  - intros n ns Hn Hns. simpl. rewrite Hn, Hns.
    destruct (findNode i n); reflexivity.
Qed.

Lemma findNodeById_None (i : string) (l : list LogNode) :
  findNodeById l i = None -> hasIdIn i l = false.
Proof. intros H. rewrite findNodeById_hasIdIn, H. reflexivity. Qed.

Lemma findNodeById_Some (i : string) (l : list LogNode) (n : LogNode) :
  findNodeById l i = Some n -> hasIdIn i l = true.
Proof.
  intros H. rewrite findNodeById_hasIdIn, H. apply bool_decide_eq_true. eauto.
Qed.

Lemma findNodeById_id (i : string) (l : list LogNode) (n : LogNode) :
  findNodeById l i = Some n -> nodeId n = i.
Proof.
  revert l n.
  apply (forest_ind
           (fun m => forall n, findNode i m = Some n -> nodeId n = i)
           (fun l => forall n, findNodeById l i = Some n -> nodeId n = i)).
  - intros d cs IH n. rewrite findNode_eq.
    destruct (String.eqb (id d) i) eqn:E; [|apply IH].
    intros [= <-]. apply String.eqb_eq in E. exact E.
  - intros n [=].
  - intros m ms Hm Hms n. simpl.
    destruct (findNode i m) eqn:E; [intros [= <-]; now apply Hm|apply Hms].
Qed.

Lemma findNode_hasId (i : string) (n : LogNode) :
  hasId i n = bool_decide (is_Some (findNode i n)).
Proof.
  pose proof (findNodeById_hasIdIn i [n]) as H. cbn [hasIdIn findNodeById] in H.
  rewrite orb_false_r in H. rewrite H. destruct (findNode i n); reflexivity.
Qed.

Lemma findNode_None (i : string) (n : LogNode) :
  findNode i n = None -> hasId i n = false.
Proof. intros H. rewrite findNode_hasId, H. reflexivity. Qed.

Section Update.
Context {S : Type}.
Variable i : string.
Variable updater : LogNode -> S -> LogNode * S.

(** Without a match the argument is returned and the updater is not run. *)
Lemma mapUpdate_absent (l : list LogNode) (s : S) :
  hasIdIn i l = false -> mapUpdate i updater l s = (l, false, s).
Proof.
  intros H.
  destruct (trace_spec i updater l s) as (cells & s' & _ & Hm & _ & _ & Hn).
  rewrite H in Hn, Hm. destruct Hn as [-> ->]. rewrite Hm.
  rewrite map_map. simpl. now rewrite map_id.
Qed.

Lemma updateNode_absent (n : LogNode) (s : S) :
  hasId i n = false -> updateNode i updater n s = (n, false, s).
Proof.
  intros H. assert (E : hasIdIn i [n] = false) by (simpl; now rewrite H).
  pose proof (mapUpdate_absent [n] s E) as Hm. cbn [mapUpdate] in Hm.
  destruct (updateNode i updater n s) as [[n' b1] s1].
  injection Hm as -> Hb ->. rewrite orb_false_r in Hb. now subst.
Qed.

Lemma updateNodeByIdM_absent (l : list LogNode) (s : S) :
  findNodeById l i = None -> updateNodeByIdM i updater l s = (l, s).
Proof.
  intros H. unfold updateNodeByIdM.
  rewrite mapUpdate_absent by (now apply findNodeById_None). reflexivity.
Qed.

(** The array returned is always the mapped one, up to its identity. *)
Lemma updateNodeByIdM_map (l : list LogNode) (s : S) :
  updateNodeByIdM i updater l s =
  (fst (fst (mapUpdate i updater l s)), snd (mapUpdate i updater l s)).
Proof.
  unfold updateNodeByIdM.
  destruct (hasIdIn i l) eqn:E.
  - destruct (trace_spec i updater l s) as (cells & s' & _ & Hm & _).
    rewrite Hm, E. reflexivity.
  - rewrite mapUpdate_absent by exact E. reflexivity.
Qed.

(** The first match, in the order of [findNodeById], is the first node the
    updater runs on. *)
Hypothesis updater_id : forall n s, nodeId (fst (updater n s)) = nodeId n.

Lemma find_mapUpdate (l : list LogNode) (s : S) :
  findNodeById (fst (fst (mapUpdate i updater l s))) i =
  (fun n => fst (updater n s)) <$> findNodeById l i.
Proof.
  revert l s.
  apply (forest_ind
           (fun n => forall s,
                findNode i (fst (fst (updateNode i updater n s))) =
                (fun m => fst (updater m s)) <$> findNode i n)
           (fun l => forall s,
                findNodeById (fst (fst (mapUpdate i updater l s))) i =
                (fun m => fst (updater m s)) <$> findNodeById l i)).
  - intros d cs IH s. rewrite updateNode_eq, findNode_eq.
    destruct (String.eqb (id d) i) eqn:E.
    + pose proof (updater_id (Node d cs) s) as Hid.
      change ((fun m : LogNode => fst (updater m s)) <$> Some (Node d cs))
        with (Some (fst (updater (Node d cs) s))).
      destruct (updater (Node d cs) s) as [[d' cs'] s'].
      unfold nodeId in Hid. cbn [fst snd data] in Hid |- *.
      rewrite findNode_eq, Hid, E. reflexivity.
    + specialize (IH s).
      destruct (mapUpdate i updater cs s) as [[cs' ch] s'] eqn:Em. simpl in IH.
      destruct ch; cbn [fst snd]; rewrite findNode_eq, E; [exact IH|].
      destruct (hasIdIn i cs) eqn:Eh.
      * destruct (trace_spec i updater cs s) as (cells & s2 & _ & Hm & _).
        rewrite Hm, Eh in Em. discriminate.
      * rewrite findNodeById_hasIdIn in Eh.
        destruct (findNodeById cs i); [|reflexivity].
        apply bool_decide_eq_false in Eh. exfalso. apply Eh. eauto.
  - intros s. reflexivity.
  - intros n ns Hn Hns s. specialize (Hn s). cbn [mapUpdate findNodeById].
    destruct (findNode i n) as [f|] eqn:Ef.
    + destruct (updateNode i updater n s) as [[n' b1] s1].
      destruct (mapUpdate i updater ns s1) as [[r' b2] s2].
      cbn [fst snd findNodeById] in Hn |- *. rewrite Hn. reflexivity.
    + rewrite (updateNode_absent n s) by (now apply findNode_None).
      specialize (Hns s).
      destruct (mapUpdate i updater ns s) as [[r' b2] s2].
      cbn [fst snd findNodeById] in Hns |- *. rewrite Ef. exact Hns.
Qed.

Lemma find_updateNodeByIdM (l : list LogNode) (s : S) :
  findNodeById (fst (updateNodeByIdM i updater l s)) i =
  (fun n => fst (updater n s)) <$> findNodeById l i.
Proof. rewrite updateNodeByIdM_map. apply find_mapUpdate. Qed.

End Update.

End PointFacts.

(** ** Updating a node singled out by a context *)

Module PlugFacts.
Import Tree TreeFacts Zipper PointFacts.

Section Plug.
Context {S : Type}.
Variable i : string.
Variable updater : LogNode -> S -> LogNode * S.

Lemma mapUpdate_app (a b : list LogNode) (s : S) :
  mapUpdate i updater (a ++ b) s =
  let '(a', b1, s1) := mapUpdate i updater a s in
  let '(b', b2, s2) := mapUpdate i updater b s1 in
  (a' ++ b', b1 || b2, s2).
Proof.
  revert s. induction a as [|x r IH]; intros s; simpl.
  - destruct (mapUpdate i updater b s) as [[b' b2] s2]. reflexivity.
  - destruct (updateNode i updater x s) as [[x' bx] sx].
    rewrite IH.
    destruct (mapUpdate i updater r sx) as [[r' br] sr].
    destruct (mapUpdate i updater b sr) as [[b' b2] s2].
    simpl. now rewrite orb_assoc.
Qed.

Lemma updateNode_match (t : LogNode) (s : S) :
  nodeId t = i ->
  updateNode i updater t s = (fst (updater t s), true, snd (updater t s)).
Proof.
  destruct t as [d cs]. unfold nodeId. simpl data. intros H.
  rewrite updateNode_eq. apply String.eqb_eq in H. rewrite H.
  destruct (updater (Node d cs) s). reflexivity.
Qed.

Lemma mapUpdate_plug (c : Ctx) (t : LogNode) (s : S) :
  avoids i c = true -> nodeId t = i ->
  mapUpdate i updater (plug c t) s =
  (plug c (fst (updater t s)), true, snd (updater t s)).
Proof.
  intros Ha Ht. revert Ha. induction c as [b a|b d inner IH a]; simpl; intros Ha.
  - apply andb_true_iff in Ha as [Hb Haft].
    apply negb_true_iff in Hb, Haft.
    rewrite mapUpdate_app, (mapUpdate_absent i updater b s Hb). simpl.
    rewrite (updateNode_match t s Ht).
    rewrite (mapUpdate_absent i updater a _ Haft). reflexivity.
  - apply andb_true_iff in Ha as [Ha Haft].
    apply andb_true_iff in Ha as [Ha Hin].
    apply andb_true_iff in Ha as [Hb Hd].
    apply negb_true_iff in Hb, Haft, Hd.
    rewrite mapUpdate_app, (mapUpdate_absent i updater b s Hb).
    cbn [mapUpdate]. rewrite updateNode_eq, Hd, (IH Hin).
    rewrite (mapUpdate_absent i updater a _ Haft). reflexivity.
Qed.

Lemma updateNodeByIdM_plug (c : Ctx) (t : LogNode) (s : S) :
  avoids i c = true -> nodeId t = i ->
  updateNodeByIdM i updater (plug c t) s =
  (plug c (fst (updater t s)), snd (updater t s)).
Proof.
  intros Ha Ht. unfold updateNodeByIdM. rewrite (mapUpdate_plug c t s Ha Ht).
  reflexivity.
Qed.

End Plug.

Lemma updateNodeById_plug (i : string) (f : LogNode -> LogNode) (c : Ctx) (t : LogNode) :
  avoids i c = true -> nodeId t = i ->
  updateNodeById (plug c t) i f = plug c (f t).
Proof.
  intros Ha Ht. unfold updateNodeById.
  rewrite (updateNodeByIdM_plug i (pureUpdater f) c t tt Ha Ht). reflexivity.
Qed.

Lemma findNodeById_app_absent (i : string) (a b : list LogNode) :
  hasIdIn i a = false -> findNodeById (a ++ b) i = findNodeById b i.
Proof.
  induction a as [|x r IH]; simpl; [reflexivity|].
  intros H. apply orb_false_iff in H as [Hx Hr].
  assert (E : hasIdIn i [x] = false) by (simpl; now rewrite Hx).
  rewrite findNodeById_hasIdIn in E. simpl in E.
  destruct (findNode i x).
  - apply bool_decide_eq_false in E. exfalso. apply E. eauto.
  - now apply IH.
Qed.

Lemma findNodeById_plug (i : string) (c : Ctx) (t : LogNode) :
  avoids i c = true -> nodeId t = i -> findNodeById (plug c t) i = Some t.
Proof.
  intros Ha Ht. revert Ha. induction c as [b a|b d inner IH a]; simpl; intros Ha.
  - apply andb_true_iff in Ha as [Hb _]. apply negb_true_iff in Hb.
    rewrite findNodeById_app_absent by exact Hb. simpl.
    destruct t as [d cs]. rewrite findNode_eq.
    unfold nodeId in Ht. simpl in Ht. apply String.eqb_eq in Ht. now rewrite Ht.
  - apply andb_true_iff in Ha as [Ha _].
    apply andb_true_iff in Ha as [Ha Hin].
    apply andb_true_iff in Ha as [Hb Hd].
    apply negb_true_iff in Hb, Hd.
    rewrite findNodeById_app_absent by exact Hb. cbn [findNodeById].
    rewrite findNode_eq, Hd, (IH Hin). reflexivity.
Qed.

End PlugFacts.

(** ** The single-flight guard *)

Module SingleFlight.
Import Tree.

Ltac break_toggle H :=
  repeat match type of H with
         | (if ?b then _ else _) = _ => destruct b eqn:?
         | (match ?x with _ => _ end) = _ => destruct x eqn:?
         | (let '(_, _) := ?x in _) = _ => destruct x eqn:?
         | (_, None) = (_, Some _) => discriminate H
         end.

Lemma log_updateTreeM_guard (i : string) (u : LogNode -> N -> LogNode * N)
      (s : LogStore.State) :
  LogStore.isExpandingRef (LogStore.updateTreeM i u s) = LogStore.isExpandingRef s.
Proof.
  unfold LogStore.updateTreeM.
  destruct (updateNodeByIdM i u (LogStore.logTree s) (LogStore.nextNodeIdRef s)).
  reflexivity.
Qed.

Lemma net_updateTreeM_guard (i : string) (u : LogNode -> N -> LogNode * N)
      (s : NetStore.State) :
  NetStore.isExpandingRef (NetStore.updateTreeM i u s) = NetStore.isExpandingRef s.
Proof.
  unfold NetStore.updateTreeM.
  destruct (updateNodeByIdM i u (NetStore.netTree s) (NetStore.nextNodeIdRef s)).
  reflexivity.
Qed.

Lemma log_fetch_holds_guard (fmt : RemoteObject -> string)
      (s s' : LogStore.State) (p : LogStore.Pending) :
  LogStore.toggleExpandSelected fmt s = (s', Some p) ->
  LogStore.isExpandingRef s' = true.
Proof.
  unfold LogStore.toggleExpandSelected. intros H.
  break_toggle H; injection H as <- _;
    first [reflexivity | apply log_updateTreeM_guard].
Qed.

Lemma net_fetch_holds_guard (fmt : RemoteObject -> string)
      (sortEntries : NetStore.Headers -> NetStore.Headers)
      (jsonPretty : string -> option string)
      (s s' : NetStore.State) (p : NetStore.Pending) :
  NetStore.toggleNetExpandSelected fmt sortEntries jsonPretty s = (s', Some p) ->
  NetStore.isExpandingRef s' = true.
Proof.
  unfold NetStore.toggleNetExpandSelected. intros H.
  break_toggle H; injection H as <- _;
    first [reflexivity | apply net_updateTreeM_guard].
Qed.

(** C1. One guard per store: while a fetch is in flight ([isExpandingRef]
    is set), a toggle changes nothing in the store and issues no fetch, so
    the node it aimed at stays as it was; a toggle that issues a fetch sets
    the guard, and only the completion of that fetch (fulfilled or failed)
    clears it.  The dropped request is not remembered anywhere, and the
    completion of the first fetch is applied as if it had never been made. *)
Theorem single_flight :
  (forall (fmt : RemoteObject -> string) (s : LogStore.State),
      LogStore.isExpandingRef s = true ->
      LogStore.toggleExpandSelected fmt s = (s, None)) /\
  (forall (fmt : RemoteObject -> string) (s s' : LogStore.State) (p : LogStore.Pending),
      LogStore.toggleExpandSelected fmt s = (s', Some p) ->
      LogStore.isExpandingRef s' = true) /\
  (forall (p : LogStore.Pending) (r : LogStore.FetchResult) (s : LogStore.State),
      LogStore.isExpandingRef (LogStore.settle p r s) = false) /\
  (forall (fmt : RemoteObject -> string) (x : LogStore.Session) (r : LogStore.FetchResult),
      LogStore.isExpandingRef (LogStore.store x) = true ->
      LogStore.step fmt LogStore.Toggle x = x /\
      LogStore.run fmt [LogStore.Toggle; LogStore.Settle r] x =
      LogStore.step fmt (LogStore.Settle r) x) /\
  (forall (fmt : RemoteObject -> string) (sortEntries : NetStore.Headers -> NetStore.Headers)
          (jsonPretty : string -> option string) (s : NetStore.State),
      NetStore.isExpandingRef s = true ->
      NetStore.toggleNetExpandSelected fmt sortEntries jsonPretty s = (s, None)) /\
  (forall (fmt : RemoteObject -> string) (sortEntries : NetStore.Headers -> NetStore.Headers)
          (jsonPretty : string -> option string) (s s' : NetStore.State)
          (p : NetStore.Pending),
      NetStore.toggleNetExpandSelected fmt sortEntries jsonPretty s = (s', Some p) ->
      NetStore.isExpandingRef s' = true) /\
  (forall (jsonPretty : string -> option string) (p : NetStore.Pending)
          (r : NetStore.FetchResult) (s : NetStore.State),
      NetStore.isExpandingRef (NetStore.settle jsonPretty p r s) = false).
Proof.
  repeat apply conj.
  - intros fmt s H. unfold LogStore.toggleExpandSelected. now rewrite H.
  - apply log_fetch_holds_guard.
  - intros p [cs|err] s; reflexivity.
  - intros fmt [s fl k] r H. simpl in H.
    assert (E : LogStore.step fmt LogStore.Toggle (LogStore.mkSession s fl k)
                = LogStore.mkSession s fl k).
    { unfold LogStore.step, LogStore.toggleExpandSelected. simpl. now rewrite H. }
    split; [exact E|]. unfold LogStore.run. cbn [foldl]. now rewrite E.
  - intros fmt sortEntries jsonPretty s H.
    unfold NetStore.toggleNetExpandSelected. now rewrite H.
  - apply net_fetch_holds_guard.
  - intros jsonPretty p [body b64|err] s; simpl.
    + unfold NetStore.fetchResolved.
      destruct (NetStore.formatResponseBody jsonPretty body b64) as [lines hint].
      destruct (NetStore.bodyChildren lines hint _). reflexivity.
    + reflexivity.
Qed.

(** C1 at a concrete input: with two expandable entries in the log store
    and the first one's fetch in flight, a toggle on the second is dropped. *)
Lemma single_flight_witness :
  LogStore.toggleExpandSelected Samples.describe
    (LogStore.setSelectedLogNodeId (Some "n2") (LogStore.store Samples.firstInFlight)) =
  (LogStore.setSelectedLogNodeId (Some "n2") (LogStore.store Samples.firstInFlight), None).
Proof.
  apply (proj1 single_flight). vm_compute. reflexivity.
Defined.

End SingleFlight.

(** ** Failure of a fetch *)

Module FailureFacts.
Import Tree Zipper PointFacts PlugFacts.

Lemma log_rejected_plug (c : Ctx) (d : NodeData) (cs : list LogNode)
      (p : LogStore.Pending) (err : string) (s : LogStore.State) :
  LogStore.logTree s = plug c (Node d cs) ->
  id d = LogStore.target p ->
  avoids (LogStore.target p) c = true ->
  LogStore.settle p (LogStore.Failed err) s =
  LogStore.mkState
    (plug c (Node (withLoading false d)
                  [metaNode (LogStore.nId (LogStore.nextNodeIdRef s + 1))
                            ("[props] ! " +:+ err)]))
    (LogStore.followTail s) (LogStore.logScrollTop s) (LogStore.selectedLogNodeId s)
    (LogStore.logSearchOpen s) (LogStore.logSearchQuery s)
    (LogStore.nextNodeIdRef s + 1)%N false.
Proof.
  intros Ht Hid Ha.
  unfold LogStore.settle, LogStore.fetchRejected, LogStore.updateTreeM.
  rewrite Ht.
  rewrite (updateNodeByIdM_plug (LogStore.target p) _ c (Node d cs) _ Ha Hid).
  reflexivity.
Qed.

Lemma net_rejected_plug (jsonPretty : string -> option string)
      (c : Ctx) (d : NodeData) (cs : list LogNode)
      (p : NetStore.Pending) (err : string) (s : NetStore.State) :
  NetStore.netTree s = plug c (Node d cs) ->
  id d = NetStore.target p ->
  avoids (NetStore.target p) c = true ->
  NetStore.settle jsonPretty p (NetStore.Failed err) s =
  NetStore.mkState
    (plug c (Node (withLoading false d)
                  [metaNode (NetStore.netId (NetStore.nextNodeIdRef s + 1))
                            ("[body] ! " +:+ err)]))
    (NetStore.followNetTail s) (NetStore.netScrollTop s) (NetStore.selectedNetNodeId s)
    (NetStore.netSearchOpen s) (NetStore.netSearchQuery s) (NetStore.netByIdRef s)
    false (NetStore.nextNodeIdRef s + 1)%N.
Proof.
  intros Ht Hid Ha.
  unfold NetStore.settle, NetStore.fetchRejected, NetStore.updateTreeM.
  rewrite Ht.
  rewrite (updateNodeByIdM_plug (NetStore.target p) _ c (Node d cs) _ Ha Hid).
  reflexivity.
Qed.

Lemma log_rejected_find (p : LogStore.Pending) (err : string) (s : LogStore.State) :
  findNodeById (LogStore.logTree (LogStore.settle p (LogStore.Failed err) s))
               (LogStore.target p) =
  (fun n => fst (LogStore.errorUpdater "[props] ! " err LogStore.nId n
                                       (LogStore.nextNodeIdRef s)))
    <$> findNodeById (LogStore.logTree s) (LogStore.target p).
Proof.
  unfold LogStore.settle, LogStore.fetchRejected, LogStore.updateTreeM.
  pose proof (find_updateNodeByIdM (LogStore.target p)
                (LogStore.errorUpdater "[props] ! " err LogStore.nId)
                (fun n c => eq_refl) (LogStore.logTree s) (LogStore.nextNodeIdRef s)) as E.
  destruct (updateNodeByIdM (LogStore.target p)
              (LogStore.errorUpdater "[props] ! " err LogStore.nId)
              (LogStore.logTree s) (LogStore.nextNodeIdRef s)).
  exact E.
Qed.

Lemma net_rejected_find (jsonPretty : string -> option string)
      (p : NetStore.Pending) (err : string) (s : NetStore.State) :
  findNodeById (NetStore.netTree (NetStore.settle jsonPretty p (NetStore.Failed err) s))
               (NetStore.target p) =
  (fun n => fst (NetStore.errorUpdater err n (NetStore.nextNodeIdRef s)))
    <$> findNodeById (NetStore.netTree s) (NetStore.target p).
Proof.
  unfold NetStore.settle, NetStore.fetchRejected, NetStore.updateTreeM.
  pose proof (find_updateNodeByIdM (NetStore.target p) (NetStore.errorUpdater err)
                (fun n c => eq_refl) (NetStore.netTree s) (NetStore.nextNodeIdRef s)) as E.
  destruct (updateNodeByIdM (NetStore.target p) (NetStore.errorUpdater err)
              (NetStore.netTree s) (NetStore.nextNodeIdRef s)).
  exact E.
Qed.

Lemma log_rejected_guard (p : LogStore.Pending) (err : string) (s : LogStore.State) :
  LogStore.isExpandingRef (LogStore.settle p (LogStore.Failed err) s) = false.
Proof. reflexivity. Qed.

Lemma net_rejected_guard (jsonPretty : string -> option string)
      (p : NetStore.Pending) (err : string) (s : NetStore.State) :
  NetStore.isExpandingRef (NetStore.settle jsonPretty p (NetStore.Failed err) s) = false.
Proof. reflexivity. Qed.

(** C8, as the code has it.  When the fetch of an expansion fails, the
    completion is an ordinary state transition that releases the guard.
    The node that [findNodeById] reaches under the awaited identifier
    keeps its fields with [loading] cleared and gets as its only child a
    meta node whose text is the failure message behind the prefix
    "[props] ! " (log store) or "[body] ! " (network store), in every
    store.  When no other node carries the awaited identifier, nothing
    else changes: the forest is the old one with that node replaced, the
    counter advances by the one identifier drawn, and every other state
    variable is as before. *)
Theorem fetch_failure_sentinel :
  let sentinel := fun (i t : string) =>
    Node (mkNodeData i KMeta None None (Some t) [] None None None false false None) [] in
  let cleared := fun (d : NodeData) =>
    mkNodeData (id d) (kind d) (timestamp d) (label d) (text d) (args d)
               (object d) (name d) (value d) (expanded d) false (net d) in
  (forall (p : LogStore.Pending) (err : string) (s : LogStore.State),
      LogStore.isExpandingRef (LogStore.settle p (LogStore.Failed err) s) = false /\
      findNodeById (LogStore.logTree (LogStore.settle p (LogStore.Failed err) s))
                   (LogStore.target p) =
      (fun n => Node (cleared (data n))
                     [sentinel ("n" +:+ pretty (LogStore.nextNodeIdRef s + 1)%N)
                               ("[props] ! " +:+ err)])
        <$> findNodeById (LogStore.logTree s) (LogStore.target p)) /\
  (forall (c : Ctx) (d : NodeData) (cs : list LogNode)
          (p : LogStore.Pending) (err : string) (s : LogStore.State),
      LogStore.logTree s = plug c (Node d cs) ->
      id d = LogStore.target p ->
      avoids (LogStore.target p) c = true ->
      LogStore.settle p (LogStore.Failed err) s =
      LogStore.mkState
        (plug c (Node (cleared d)
                      [sentinel ("n" +:+ pretty (LogStore.nextNodeIdRef s + 1)%N)
                                ("[props] ! " +:+ err)]))
        (LogStore.followTail s) (LogStore.logScrollTop s)
        (LogStore.selectedLogNodeId s) (LogStore.logSearchOpen s)
        (LogStore.logSearchQuery s) (LogStore.nextNodeIdRef s + 1)%N false) /\
  (forall (jsonPretty : string -> option string)
          (p : NetStore.Pending) (err : string) (s : NetStore.State),
      NetStore.isExpandingRef (NetStore.settle jsonPretty p (NetStore.Failed err) s)
        = false /\
      findNodeById (NetStore.netTree (NetStore.settle jsonPretty p (NetStore.Failed err) s))
                   (NetStore.target p) =
      (fun n => Node (cleared (data n))
                     [sentinel ("net_n" +:+ pretty (NetStore.nextNodeIdRef s + 1)%N)
                               ("[body] ! " +:+ err)])
        <$> findNodeById (NetStore.netTree s) (NetStore.target p)) /\
  (forall (jsonPretty : string -> option string)
          (c : Ctx) (d : NodeData) (cs : list LogNode)
          (p : NetStore.Pending) (err : string) (s : NetStore.State),
      NetStore.netTree s = plug c (Node d cs) ->
      id d = NetStore.target p ->
      avoids (NetStore.target p) c = true ->
      NetStore.settle jsonPretty p (NetStore.Failed err) s =
      NetStore.mkState
        (plug c (Node (cleared d)
                      [sentinel ("net_n" +:+ pretty (NetStore.nextNodeIdRef s + 1)%N)
                                ("[body] ! " +:+ err)]))
        (NetStore.followNetTail s) (NetStore.netScrollTop s)
        (NetStore.selectedNetNodeId s) (NetStore.netSearchOpen s)
        (NetStore.netSearchQuery s) (NetStore.netByIdRef s)
        false (NetStore.nextNodeIdRef s + 1)%N).
Proof.
  intros sentinel cleared. split; [|split; [|split]].
  - intros p err s. split; [apply log_rejected_guard|apply log_rejected_find].
  - apply log_rejected_plug.
  - intros jsonPretty p err s.
    split; [apply net_rejected_guard|apply net_rejected_find].
  - apply net_rejected_plug.
Qed.

(** C8 at a concrete input: the fetch for the argument of the first entry
    fails while a second entry sits beside it. *)
Lemma fetch_failure_sentinel_witness :
  LogStore.settle (LogStore.mkPending "n1:arg:0" "o1") (LogStore.Failed "Error: gone")
                  (LogStore.store Samples.firstInFlight) =
  LogStore.mkState
    [Node Samples.entryData1
          [Node (mkNodeData "n1:arg:0" KArg None None None []
                            (Some (Samples.remoteObj "o1")) None None true false None)
                [Node (mkNodeData "n4" KMeta None None (Some "[props] ! Error: gone") []
                                  None None None false false None) []]];
     Samples.secondEntry]
    true 0 (Some "n1") false "" 4 false.
Proof.
  refine (proj1 (proj2 fetch_failure_sentinel)
            (Below [] Samples.entryData1 (Here [] []) [Samples.secondEntry])
            (data Samples.argLoading) (children Samples.argLoading)
            (LogStore.mkPending "n1:arg:0" "o1") "Error: gone"
            (LogStore.store Samples.firstInFlight) _ _ _).
  - vm_compute. reflexivity.
  - reflexivity.
  - vm_compute. reflexivity.
Defined.

(** C8 fails when two nodes carry the awaited identifier.  After the two
    property fetches of [Samples.sameMillisecond] both entries hold a
    property node named "prop_1_1000".  Expanding that identifier issues
    one fetch, for the object of the first of them; when it fails, the
    property node under the second entry, which belongs to another object,
    has its children replaced by a sentinel of its own, and two identifiers
    are drawn. *)
Lemma failure_rewrites_every_match :
  let x := LogStore.run Samples.describe
             [LogStore.Select "prop_1_1000"; LogStore.Toggle] Samples.sameMillisecond in
  let p := LogStore.mkPending "prop_1_1000" "o3" in
  let s' := LogStore.settle p (LogStore.Failed "gone") (LogStore.store x) in
  LogStore.inFlight x = Some p /\
  children <$> findNodeById (LogStore.logTree (LogStore.store x)) "n2:arg:0" =
    Some [Node (mkNodeData "prop_1_1000" KProp None None None [] None (Some "b")
                           (Some (Samples.remoteObj "o4")) true true None)
               [Node (mkNodeData "n6" KMeta None None (Some "(loading properties...)") []
                                 None None None false false None) []]] /\
  children <$> findNodeById (LogStore.logTree s') "n2:arg:0" =
    Some [Node (mkNodeData "prop_1_1000" KProp None None None [] None (Some "b")
                           (Some (Samples.remoteObj "o4")) true false None)
               [Node (mkNodeData "n8" KMeta None None (Some "[props] ! gone") []
                                 None None None false false None) []]] /\
  findNodeById (LogStore.logTree s') "prop_1_1000" =
    Some (Node (mkNodeData "prop_1_1000" KProp None None None [] None (Some "a")
                           (Some (Samples.remoteObj "o3")) true false None)
               [Node (mkNodeData "n7" KMeta None None (Some "[props] ! gone") []
                                 None None None false false None) []]) /\
  LogStore.nextNodeIdRef (LogStore.store x) = 6%N /\
  LogStore.nextNodeIdRef s' = 8%N.
Proof. vm_compute. repeat split; reflexivity. Qed.

End FailureFacts.

(** ** What a point mutation leaves visible *)

Module KeyFacts.
Import Tree TreeFacts PointFacts LogStore.

(** The fields of a root that the filter reads. *)
Definition rootKey (n : LogNode) : LogNodeKind * option string * option string * list RemoteObject :=
  (kind (data n), label (data n), text (data n), args (data n)).

Section Keys.
Variable fmt : RemoteObject -> string.

Lemma matchesLog_key (q : string) (a b : LogNode) :
  rootKey a = rootKey b -> matchesLog fmt q a = matchesLog fmt q b.
Proof.
  unfold rootKey, matchesLog. intros [= E1 E2 E3 E4]. now rewrite E1, E2, E3, E4.
Qed.

Lemma filterTree_length_keys (q : string) (a b : list LogNode) :
  map rootKey a = map rootKey b ->
  length (filterTree fmt q a) = length (filterTree fmt q b).
Proof.
  unfold filterTree.
  destruct (Js.nonEmpty (Js.toLowerCase (Js.trim q))).
  - revert b. induction a as [|x r IH]; intros [|y t] H; try discriminate; [reflexivity|].
    cbn [map] in H.
    assert (Hk : rootKey x = rootKey y) by congruence.
    assert (Hr : map rootKey r = map rootKey t) by congruence.
    simpl. rewrite (matchesLog_key _ x y Hk).
    destruct (matchesLog fmt (Js.toLowerCase (Js.trim q)) y); simpl; rewrite (IH t Hr); reflexivity.
  - intros H. rewrite <- (length_map rootKey a), H. apply length_map.
Qed.

Lemma flattenNode_nonempty (p : option string) (k : Z) (n : LogNode) :
  flattenNode fmt p k n <> [].
Proof. destruct n as [d cs]. rewrite flattenNode_eq. discriminate. Qed.

Lemma flattenLogTree_nil (l : list LogNode) (p : option string) (k : Z) :
  flattenLogTree fmt l p k = [] <-> l = [].
Proof.
  split; [|intros ->; reflexivity].
  destruct l as [|n r]; [reflexivity|]. simpl. intros H.
  apply app_eq_nil in H as [H _]. now apply flattenNode_nonempty in H.
Qed.

(** Whether the flattened sequence has a line. *)
Definition hasLines (s : State) : bool := nonEmptyList (flatLogs fmt s).

Lemma hasLines_keys (s s' : State) :
  map rootKey (logTree s) = map rootKey (logTree s') ->
  logSearchQuery s = logSearchQuery s' ->
  hasLines s = hasLines s'.
Proof.
  intros Hk Hq. unfold hasLines, flatLogs, filteredLogTree. rewrite <- Hq.
  pose proof (filterTree_length_keys (logSearchQuery s) _ _ Hk) as Hl.
  destruct (filterTree fmt (logSearchQuery s) (logTree s)) as [|x r] eqn:E1;
    destruct (filterTree fmt (logSearchQuery s) (logTree s')) as [|y t] eqn:E2;
    try discriminate; [reflexivity|].
  simpl.
  destruct (flattenNode fmt None 0 x ++ flattenLogTree fmt r None 0) eqn:Ex.
  { apply app_eq_nil in Ex as [Ex _]. now apply flattenNode_nonempty in Ex. }
  destruct (flattenNode fmt None 0 y ++ flattenLogTree fmt t None 0) eqn:Ey.
  { apply app_eq_nil in Ey as [Ey _]. now apply flattenNode_nonempty in Ey. }
  reflexivity.
Qed.

End Keys.

Section UpdateKeys.
Context {S : Type}.
Variable i : string.
Variable updater : LogNode -> S -> LogNode * S.
Hypothesis updater_key : forall n s, rootKey (fst (updater n s)) = rootKey n.

Lemma updateNode_key (n : LogNode) (s : S) :
  rootKey (fst (fst (updateNode i updater n s))) = rootKey n.
Proof.
  destruct n as [d cs]. rewrite updateNode_eq.
  destruct (String.eqb (id d) i).
  - specialize (updater_key (Node d cs) s).
    destruct (updater (Node d cs) s) as [n' s']. exact updater_key.
  - destruct (mapUpdate i updater cs s) as [[cs' ch] s'].
    destruct ch; reflexivity.
Qed.

Lemma mapUpdate_keys (l : list LogNode) (s : S) :
  map rootKey (fst (fst (mapUpdate i updater l s))) = map rootKey l.
Proof.
  revert s. induction l as [|n r IH]; intros s; [reflexivity|].
  cbn [mapUpdate]. pose proof (updateNode_key n s) as Hn.
  destruct (updateNode i updater n s) as [[n' b1] s1].
  specialize (IH s1).
  destruct (mapUpdate i updater r s1) as [[r' b2] s2].
  cbn [fst snd map] in *. now rewrite Hn, IH.
Qed.

Lemma updateNodeByIdM_keys (l : list LogNode) (s : S) :
  map rootKey (fst (updateNodeByIdM i updater l s)) = map rootKey l.
Proof. rewrite updateNodeByIdM_map. apply mapUpdate_keys. Qed.

End UpdateKeys.

Lemma updateNodeById_keys (i : string) (f : LogNode -> LogNode) (l : list LogNode) :
  (forall n, rootKey (f n) = rootKey n) ->
  map rootKey (updateNodeById l i f) = map rootKey l.
Proof.
  intros H. unfold updateNodeById. apply updateNodeByIdM_keys.
  intros n s. apply H.
Qed.

Lemma find_updateNodeById (i : string) (f : LogNode -> LogNode) (l : list LogNode) :
  (forall n, nodeId (f n) = nodeId n) ->
  findNodeById (updateNodeById l i f) i = f <$> findNodeById l i.
Proof.
  intros H. unfold updateNodeById.
  rewrite (find_updateNodeByIdM i (pureUpdater f)); [reflexivity|].
  intros n s. apply H.
Qed.

End KeyFacts.

(** ** Expanding, collapsing and expanding again *)

Module RoundTrip.
Import Tree TreeFacts PointFacts KeyFacts LogStore.

Section Log.
Variable fmt : RemoteObject -> string.

(** The store is idle, shows some line, and the selection is the node
    [node], found under the identifier [i]. *)
Definition aimedAt (s : State) (i : string) (node : LogNode) : Prop :=
  isExpandingRef s = false /\
  hasLines fmt s = true /\
  selectedLogNodeId s = Some i /\
  Js.nonEmpty i = true /\
  findNodeById (logTree s) i = Some node.

(** An argument or property node whose value has a remote identity. *)
Definition valueNode (d : NodeData) : bool :=
  match kind d with
  | KArg => isObjectExpandable (object d)
  | KProp => isObjectExpandable (value d)
  | _ => false
  end.

Definition valueOf (d : NodeData) : option RemoteObject :=
  match kind d with KArg => object d | _ => value d end.

Lemma toggle_value_fetch (s : State) (i : string) (node : LogNode) :
  aimedAt s i node ->
  valueNode (data node) = true ->
  expanded (data node) = false ->
  nonEmptyList (children node) && negb (loading (data node)) = false ->
  toggleExpandSelected fmt s =
  (updateTreeM i loadingUpdater
     (setIsExpanding true (updateTree i (expandedUpdater true) s)),
   Some (mkPending i (objectIdOf (valueOf (data node))))).
Proof.
  intros (Hg & Hl & Hs & Hi & Hf) Hv He Hc.
  unfold toggleExpandSelected, hasLines in *. rewrite Hg.
  destruct (flatLogs fmt s); [discriminate|].
  rewrite Hs, Hi, Hf. cbn [negb].
  unfold valueNode, valueOf, toggleExpandable in *.
  destruct (kind (data node)); try discriminate;
    rewrite Hv, He, Hc; reflexivity.
Qed.

Lemma toggle_value_collapse (s : State) (i : string) (node : LogNode) :
  aimedAt s i node ->
  valueNode (data node) = true ->
  expanded (data node) = true ->
  toggleExpandSelected fmt s = (updateTree i (expandedUpdater false) s, None).
Proof.
  intros (Hg & Hl & Hs & Hi & Hf) Hv He.
  unfold toggleExpandSelected, hasLines in *. rewrite Hg.
  destruct (flatLogs fmt s); [discriminate|].
  rewrite Hs, Hi, Hf. cbn [negb].
  unfold valueNode, toggleExpandable in *.
  destruct (kind (data node)); try discriminate;
    rewrite Hv, He; reflexivity.
Qed.

Lemma toggle_value_cached (s : State) (i : string) (node : LogNode) :
  aimedAt s i node ->
  valueNode (data node) = true ->
  expanded (data node) = false ->
  nonEmptyList (children node) = true ->
  loading (data node) = false ->
  toggleExpandSelected fmt s = (updateTree i (expandedUpdater true) s, None).
Proof.
  intros (Hg & Hl & Hs & Hi & Hf) Hv He Hc Hld.
  unfold toggleExpandSelected, hasLines in *. rewrite Hg.
  destruct (flatLogs fmt s); [discriminate|].
  rewrite Hs, Hi, Hf. cbn [negb].
  unfold valueNode, valueOf, toggleExpandable in *.
  destruct (kind (data node)); try discriminate;
    rewrite Hv, He, Hc, Hld; reflexivity.
Qed.

(** Point mutations of the store: what they find and what they keep. *)
Lemma updateTree_find (i : string) (f : LogNode -> LogNode) (s : State) :
  (forall n, nodeId (f n) = nodeId n) ->
  findNodeById (logTree (updateTree i f s)) i = f <$> findNodeById (logTree s) i.
Proof. intros H. apply find_updateNodeById, H. Qed.

Lemma updateTreeM_find (i : string) (u : LogNode -> N -> LogNode * N) (s : State) :
  (forall n c, nodeId (fst (u n c)) = nodeId n) ->
  findNodeById (logTree (updateTreeM i u s)) i =
  (fun n => fst (u n (nextNodeIdRef s))) <$> findNodeById (logTree s) i.
Proof.
  intros H. unfold updateTreeM.
  pose proof (find_updateNodeByIdM i u H (logTree s) (nextNodeIdRef s)) as E.
  destruct (updateNodeByIdM i u (logTree s) (nextNodeIdRef s)). exact E.
Qed.

Lemma updateTree_hasLines (i : string) (f : LogNode -> LogNode) (s : State) :
  (forall n, rootKey (f n) = rootKey n) ->
  hasLines fmt (updateTree i f s) = hasLines fmt s.
Proof.
  intros H. apply hasLines_keys; [|reflexivity].
  apply updateNodeById_keys, H.
Qed.

Lemma updateTreeM_hasLines (i : string) (u : LogNode -> N -> LogNode * N) (s : State) :
  (forall n c, rootKey (fst (u n c)) = rootKey n) ->
  hasLines fmt (updateTreeM i u s) = hasLines fmt s.
Proof.
  intros H. unfold updateTreeM.
  pose proof (updateNodeByIdM_keys i u H (logTree s) (nextNodeIdRef s)) as E.
  destruct (updateNodeByIdM i u (logTree s) (nextNodeIdRef s)) as [t c].
  apply hasLines_keys; [exact E|reflexivity].
Qed.

(** The fetched set is populated: a non-empty list of children, or the
    error sentinel. *)
Definition populated (r : FetchResult) : bool :=
  match r with Fulfilled cs => nonEmptyList cs | Failed _ => true end.

Definition childrenAfter (r : FetchResult) (c : N) : list LogNode :=
  match r with
  | Fulfilled cs => cs
  | Failed err => [metaNode (nId (c + 1)) ("[props] ! " +:+ err)]
  end.

Lemma settle_find (p : Pending) (r : FetchResult) (s : State) :
  findNodeById (logTree (settle p r s)) (target p) =
  (fun n => Node (withLoading false (data n)) (childrenAfter r (nextNodeIdRef s)))
    <$> findNodeById (logTree s) (target p).
Proof.
  destruct r as [cs|err]; cbn [settle childrenAfter].
  - unfold fetchResolved.
    change (logTree (setIsExpanding false ?x)) with (logTree x).
    rewrite updateTree_find by reflexivity. reflexivity.
  - unfold fetchRejected.
    change (logTree (setIsExpanding false ?x)) with (logTree x).
    rewrite updateTreeM_find by reflexivity. reflexivity.
Qed.

Lemma settle_hasLines (p : Pending) (r : FetchResult) (s : State) :
  hasLines fmt (settle p r s) = hasLines fmt s.
Proof.
  destruct r as [cs|err]; cbn [settle].
  - unfold fetchResolved.
    change (hasLines fmt (setIsExpanding false ?x)) with (hasLines fmt x).
    apply updateTree_hasLines. reflexivity.
  - unfold fetchRejected.
    change (hasLines fmt (setIsExpanding false ?x)) with (hasLines fmt x).
    apply updateTreeM_hasLines. reflexivity.
Qed.

(** Expanding a value node that has no children yet issues one fetch; once
    that fetch has populated the node, collapsing it and expanding it again
    issue none, and the children are still there. *)
Lemma log_round_trip (s : State) (i : string) (node : LogNode) (r : FetchResult) :
  isExpandingRef s = false ->
  hasLines fmt s = true ->
  Js.nonEmpty i = true ->
  findNodeById (logTree s) i = Some node ->
  valueNode (data node) = true ->
  expanded (data node) = false ->
  children node = [] ->
  populated r = true ->
  let first := run fmt [Select i; Toggle] (mkSession s None 0) in
  let x := run fmt [Settle r; Select i; Toggle; Select i; Toggle] first in
  fetchCalls first = 1%nat /\
  fetchCalls x = 1%nat /\
  inFlight x = None /\
  findNodeById (logTree (store x)) i =
    Some (Node (withLoading false (withExpanded true (data node)))
               (childrenAfter r (nextNodeIdRef (store first)))).
Proof.
  intros Hg Hl Hi Hf Hv He Hc Hp.
  (* the first expansion *)
  set (sa := setSelectedLogNodeId (Some i) s).
  assert (Ha : aimedAt sa i node) by (repeat split; assumption).
  pose proof (toggle_value_fetch sa i node Ha Hv He) as T1.
  rewrite Hc in T1. specialize (T1 eq_refl).
  set (s1 := updateTreeM i loadingUpdater
               (setIsExpanding true (updateTree i (expandedUpdater true) sa))) in *.
  set (p := mkPending i (objectIdOf (valueOf (data node)))) in *.
  assert (E1 : run fmt [Select i; Toggle] (mkSession s None 0) =
               mkSession s1 (Some p) 1).
  { unfold run. cbn [foldl step store inFlight fetchCalls]. fold sa.
    rewrite T1. reflexivity. }
  cbv zeta. rewrite E1. cbn [fetchCalls store].
  split; [reflexivity|].
  assert (F1 : findNodeById (logTree s1) i =
               Some (Node (withLoading true (withExpanded true (data node)))
                          [metaNode (nId (nextNodeIdRef s + 1)) "(loading properties...)"])).
  { unfold s1. rewrite updateTreeM_find by reflexivity.
    change (logTree (setIsExpanding true ?x)) with (logTree x).
    rewrite updateTree_find by reflexivity. unfold sa.
    change (logTree (setSelectedLogNodeId (Some i) s)) with (logTree s).
    rewrite Hf. reflexivity. }
  assert (L1 : hasLines fmt s1 = true).
  { unfold s1. rewrite updateTreeM_hasLines by reflexivity.
    change (hasLines fmt (setIsExpanding true ?x)) with (hasLines fmt x).
    rewrite updateTree_hasLines by reflexivity. exact Hl. }
  (* the fetch settles *)
  set (s2 := setSelectedLogNodeId (Some i) (settle p r s1)).
  set (n2 := Node (withLoading false (withExpanded true (data node)))
                  (childrenAfter r (nextNodeIdRef s1))).
  assert (F2 : findNodeById (logTree s2) i = Some n2).
  { unfold s2. change (logTree (setSelectedLogNodeId (Some i) ?x)) with (logTree x).
    pose proof (settle_find p r s1) as Sf. change (target p) with i in Sf.
    rewrite Sf, F1. reflexivity. }
  assert (A2 : aimedAt s2 i n2).
  { repeat split; try assumption.
    - unfold s2. destruct r; reflexivity.
    - unfold s2.
      change (hasLines fmt (setSelectedLogNodeId (Some i) ?x)) with (hasLines fmt x).
      rewrite settle_hasLines. exact L1. }
  (* collapsing *)
  pose proof (toggle_value_collapse s2 i n2 A2 Hv eq_refl) as T2.
  set (s3 := setSelectedLogNodeId (Some i) (updateTree i (expandedUpdater false) s2)).
  set (n3 := Node (withExpanded false (data n2)) (children n2)).
  assert (F3 : findNodeById (logTree s3) i = Some n3).
  { unfold s3. change (logTree (setSelectedLogNodeId (Some i) ?x)) with (logTree x).
    rewrite updateTree_find by reflexivity. rewrite F2. reflexivity. }
  assert (A3 : aimedAt s3 i n3).
  { destruct A2 as (G2 & L2 & _ & _ & _). repeat split; try assumption.
    unfold s3.
    change (hasLines fmt (setSelectedLogNodeId (Some i) ?x)) with (hasLines fmt x).
    rewrite updateTree_hasLines by reflexivity. exact L2. }
  (* expanding again *)
  assert (P3 : nonEmptyList (children n3) = true).
  { unfold n3, n2. cbn [children]. destruct r; [exact Hp|reflexivity]. }
  pose proof (toggle_value_cached s3 i n3 A3 Hv eq_refl P3 eq_refl) as T3.
  unfold run. cbn [foldl step store inFlight fetchCalls].
  fold s2. rewrite T2. cbn [store inFlight fetchCalls].
  fold s3. rewrite T3. cbn [store inFlight fetchCalls].
  split; [reflexivity|]. split; [reflexivity|].
  rewrite updateTree_find by reflexivity. rewrite F3. reflexivity.
Qed.

End Log.
End RoundTrip.

(** ** The same round trip on a response body *)

Module NetRoundTrip.
Import Tree TreeFacts PointFacts KeyFacts NetStore.

Section Net.
Variable fmt : RemoteObject -> string.
Variable sortEntries : Headers -> Headers.
Variable jsonPretty : string -> option string.

Lemma matchesNet_key (q : string) (a b : LogNode) :
  rootKey a = rootKey b -> matchesNet q a = matchesNet q b.
Proof.
  unfold rootKey, matchesNet. intros E.
  assert (E2 : label (data a) = label (data b)) by congruence.
  assert (E3 : text (data a) = text (data b)) by congruence.
  now rewrite E2, E3.
Qed.

Definition hasLines (s : State) : bool := nonEmptyList (flatNet fmt s).

Lemma net_hasLines_keys (s s' : State) :
  map rootKey (netTree s) = map rootKey (netTree s') ->
  netSearchQuery s = netSearchQuery s' ->
  hasLines s = hasLines s'.
Proof.
  intros Hk Hq. unfold hasLines, flatNet, filteredNetTree. rewrite <- Hq.
  set (q := Js.toLowerCase (Js.trim (netSearchQuery s))).
  assert (Hl : forall a b : list LogNode,
             map rootKey a = map rootKey b ->
             nonEmptyList (flattenLogTree fmt a None 0) =
             nonEmptyList (flattenLogTree fmt b None 0)).
  { intros [|x r] [|y t] H; try discriminate; [reflexivity|]. simpl.
    destruct x as [dx cx], y as [dy cy]. rewrite !flattenNode_eq. reflexivity. }
  destruct (Js.nonEmpty q); [|now apply Hl].
  apply Hl. clear Hl. revert Hk. generalize (netTree s'). generalize (netTree s).
  induction l as [|x r IH]; intros [|y t] H; try discriminate; [reflexivity|].
  cbn [map] in H.
  assert (Hx : rootKey x = rootKey y) by congruence.
  assert (Hr : map rootKey r = map rootKey t) by congruence.
  simpl. rewrite (matchesNet_key q x y Hx).
  destruct (matchesNet q y); cbn [map]; rewrite (IH t Hr); [now rewrite Hx|reflexivity].
Qed.

Lemma net_updateTree_find (i : string) (f : LogNode -> LogNode) (s : State) :
  (forall n, nodeId (f n) = nodeId n) ->
  findNodeById (netTree (updateTree i f s)) i = f <$> findNodeById (netTree s) i.
Proof. intros H. apply find_updateNodeById, H. Qed.

Lemma net_updateTreeM_find (i : string) (u : LogNode -> N -> LogNode * N) (s : State) :
  (forall n c, nodeId (fst (u n c)) = nodeId n) ->
  findNodeById (netTree (updateTreeM i u s)) i =
  (fun n => fst (u n (nextNodeIdRef s))) <$> findNodeById (netTree s) i.
Proof.
  intros H. unfold updateTreeM.
  pose proof (find_updateNodeByIdM i u H (netTree s) (nextNodeIdRef s)) as E.
  destruct (updateNodeByIdM i u (netTree s) (nextNodeIdRef s)). exact E.
Qed.

Lemma net_updateTree_hasLines (i : string) (f : LogNode -> LogNode) (s : State) :
  (forall n, rootKey (f n) = rootKey n) ->
  hasLines (updateTree i f s) = hasLines s.
Proof.
  intros H. apply net_hasLines_keys; [|reflexivity].
  apply updateNodeById_keys, H.
Qed.

Lemma net_updateTreeM_hasLines (i : string) (u : LogNode -> N -> LogNode * N) (s : State) :
  (forall n c, rootKey (fst (u n c)) = rootKey n) ->
  hasLines (updateTreeM i u s) = hasLines s.
Proof.
  intros H. unfold updateTreeM.
  pose proof (updateNodeByIdM_keys i u H (netTree s) (nextNodeIdRef s)) as E.
  destruct (updateNodeByIdM i u (netTree s) (nextNodeIdRef s)) as [t c].
  apply net_hasLines_keys; [exact E|reflexivity].
Qed.

Lemma updateTreeM_records (i : string) (u : LogNode -> N -> LogNode * N) (s : State) :
  netByIdRef (updateTreeM i u s) = netByIdRef s.
Proof.
  unfold updateTreeM.
  destruct (updateNodeByIdM i u (netTree s) (nextNodeIdRef s)). reflexivity.
Qed.

Lemma updateTreeM_selected (i : string) (u : LogNode -> N -> LogNode * N) (s : State) :
  selectedNetNodeId (updateTreeM i u s) = selectedNetNodeId s.
Proof.
  unfold updateTreeM.
  destruct (updateNodeByIdM i u (netTree s) (nextNodeIdRef s)). reflexivity.
Qed.

(** The store is idle, shows some line, and the selection is [node], found
    under [i]: the response-body node of request [rid]. *)
Definition aimedAtBody (s : State) (i rid : string) (node : LogNode) : Prop :=
  isExpandingRef s = false /\
  hasLines s = true /\
  selectedNetNodeId s = Some i /\
  Js.nonEmpty i = true /\
  findNodeById (netTree s) i = Some node /\
  kind (data node) = KEntry /\
  (net (data node) = Some (mkNetNodeInfo rid RBody None) \/
   net (data node) = Some (mkNetNodeInfo rid RBody (Some WResponse))).

Definition cachedBody (s : State) (rid : string) : option (string * bool) :=
  (netByIdRef s !! rid) ≫= responseBody.

Lemma toggle_body_fetch (s : State) (i rid : string) (node : LogNode) :
  aimedAtBody s i rid node ->
  expanded (data node) = false ->
  cachedBody s rid = None ->
  toggleNetExpandSelected fmt sortEntries jsonPretty s =
  (updateTreeM i loadingUpdater
     (setIsExpanding true (updateTree i (expandedUpdater true) s)),
   Some (mkPending i rid)).
Proof.
  intros (Hg & Hl & Hs & Hi & Hf & Hk & Hn) He Hc.
  unfold toggleNetExpandSelected, hasLines, cachedBody in *. rewrite Hg.
  destruct (flatNet fmt s); [discriminate|].
  rewrite Hs, Hi, Hf, Hk, He. cbn [negb].
  change (netByIdRef (updateTree i (expandedUpdater true) s)) with (netByIdRef s).
  destruct Hn as [Hn|Hn]; rewrite Hn; cbn [bool_decide orb negb];
    rewrite orb_true_r; cbn [negb]; rewrite Hc; reflexivity.
Qed.

Lemma toggle_body_collapse (s : State) (i rid : string) (node : LogNode) :
  aimedAtBody s i rid node ->
  expanded (data node) = true ->
  toggleNetExpandSelected fmt sortEntries jsonPretty s =
  (updateTree i (expandedUpdater false) s, None).
Proof.
  intros (Hg & Hl & Hs & Hi & Hf & Hk & Hn) He.
  unfold toggleNetExpandSelected, hasLines in *. rewrite Hg.
  destruct (flatNet fmt s); [discriminate|].
  rewrite Hs, Hi, Hf, Hk, He. cbn [negb].
  destruct Hn as [Hn|Hn]; rewrite Hn; cbn [bool_decide orb negb];
    rewrite orb_true_r; reflexivity.
Qed.

Lemma toggle_body_cached (s : State) (i rid : string) (node : LogNode)
      (body : string) (b64 : bool) :
  aimedAtBody s i rid node ->
  expanded (data node) = false ->
  cachedBody s rid = Some (body, b64) ->
  toggleNetExpandSelected fmt sortEntries jsonPretty s =
  (let '(lines, typeHint) := formatResponseBody jsonPretty body b64 in
   setChildrenOf i (bodyChildren lines typeHint)
                 (updateTree i (expandedUpdater true) s), None).
Proof.
  intros (Hg & Hl & Hs & Hi & Hf & Hk & Hn) He Hc.
  unfold toggleNetExpandSelected, hasLines, cachedBody in *. rewrite Hg.
  destruct (flatNet fmt s); [discriminate|].
  rewrite Hs, Hi, Hf, Hk, He. cbn [negb].
  change (netByIdRef (updateTree i (expandedUpdater true) s)) with (netByIdRef s).
  destruct Hn as [Hn|Hn]; rewrite Hn; cbn [bool_decide orb negb];
    rewrite orb_true_r; cbn [negb]; rewrite Hc;
    destruct (formatResponseBody jsonPretty body b64); reflexivity.
Qed.

Lemma bodyChildren_nonempty (lines : list string) (hint : string) (c : N) :
  nonEmptyList (fst (bodyChildren lines hint c)) = true.
Proof.
  unfold bodyChildren, newMeta. repeat unfold bind. unfold newNodeId, ret.
  cbn beta iota zeta.
  repeat match goal with
         | |- context [match ?x with pair _ _ => _ end] => destruct x
         end.
  reflexivity.
Qed.

Lemma upsert_cachedBody (rid : string) (body : string * bool) (s : State) :
  cachedBody (upsertNet rid (patchResponseBody body) s) rid = Some body.
Proof.
  unfold cachedBody, upsertNet. cbn [netByIdRef setNetById].
  rewrite lookup_insert_eq. reflexivity.
Qed.

(** Expanding a response-body node whose body is not cached issues one
    fetch; once the body has arrived it is cached on the record, and
    collapsing then expanding again rebuilds the children from the record
    without a fetch. *)
Lemma net_round_trip (s : State) (i rid : string) (node : LogNode)
      (body : string) (b64 : bool) :
  isExpandingRef s = false ->
  hasLines s = true ->
  Js.nonEmpty i = true ->
  findNodeById (netTree s) i = Some node ->
  kind (data node) = KEntry ->
  (net (data node) = Some (mkNetNodeInfo rid RBody None) \/
   net (data node) = Some (mkNetNodeInfo rid RBody (Some WResponse))) ->
  expanded (data node) = false ->
  cachedBody s rid = None ->
  let first := run fmt sortEntries jsonPretty [Select i; Toggle] (mkSession s None 0) in
  let x := run fmt sortEntries jsonPretty
               [Settle (Fulfilled body b64); Select i; Toggle; Select i; Toggle] first in
  fetchCalls first = 1%nat /\
  fetchCalls x = 1%nat /\
  inFlight x = None /\
  cachedBody (store x) rid = Some (body, b64) /\
  exists n' : LogNode,
    findNodeById (netTree (store x)) i = Some n' /\
    expanded (data n') = true /\
    loading (data n') = false /\
    nonEmptyList (children n') = true.
Proof.
  intros Hg Hl Hi Hf Hk Hn He Hc.
  set (sa := setSelectedNetNodeId (Some i) s).
  assert (Ha : aimedAtBody sa i rid node) by (repeat split; assumption).
  pose proof (toggle_body_fetch sa i rid node Ha He Hc) as T1.
  set (s1 := updateTreeM i loadingUpdater
               (setIsExpanding true (updateTree i (expandedUpdater true) sa))) in *.
  assert (E1 : run fmt sortEntries jsonPretty [Select i; Toggle] (mkSession s None 0) =
               mkSession s1 (Some (mkPending i rid)) 1).
  { unfold run. cbn [foldl step store inFlight fetchCalls]. fold sa.
    rewrite T1. reflexivity. }
  cbv zeta. rewrite E1. cbn [fetchCalls].
  split; [reflexivity|].
  assert (F1 : findNodeById (netTree s1) i =
               Some (Node (withLoading true (withExpanded true (data node)))
                          [metaNode (netId (nextNodeIdRef s + 1)) "(loading response body...)"])).
  { unfold s1. rewrite net_updateTreeM_find by reflexivity.
    change (netTree (setIsExpanding true ?x)) with (netTree x).
    rewrite net_updateTree_find by reflexivity. unfold sa.
    change (netTree (setSelectedNetNodeId (Some i) s)) with (netTree s).
    rewrite Hf. reflexivity. }
  assert (L1 : hasLines s1 = true).
  { unfold s1. rewrite net_updateTreeM_hasLines by reflexivity.
    change (hasLines (setIsExpanding true ?x)) with (hasLines x).
    rewrite net_updateTree_hasLines by reflexivity. exact Hl. }
  (* the body arrives *)
  set (st2 := settle jsonPretty (mkPending i rid) (Fulfilled body b64) s1).
  destruct (formatResponseBody jsonPretty body b64) as [lines hint] eqn:Ef.
  set (s1u := upsertNet rid (patchResponseBody (body, b64)) s1).
  pose proof (bodyChildren_nonempty lines hint (nextNodeIdRef s1u)) as Hne.
  destruct (bodyChildren lines hint (nextNodeIdRef s1u)) as [cs c] eqn:Eb.
  cbn [fst] in Hne.
  assert (E2 : st2 = setIsExpanding false
                       (updateTree i (fun n => Node (withLoading false (data n)) cs)
                                   (setNextNodeId c s1u))).
  { unfold st2, settle, fetchResolved. cbn [fetchRequestId target]. fold s1u.
    rewrite Ef, Eb. reflexivity. }
  set (s2 := setSelectedNetNodeId (Some i) st2).
  set (n2 := Node (withLoading false (withExpanded true (data node))) cs).
  assert (F2 : findNodeById (netTree s2) i = Some n2).
  { unfold s2. rewrite E2.
    change (netTree (setSelectedNetNodeId (Some i) (setIsExpanding false ?x)))
      with (netTree x).
    rewrite net_updateTree_find by reflexivity.
    change (netTree (setNextNodeId c s1u)) with (netTree s1).
    rewrite F1. reflexivity. }
  assert (C2 : cachedBody s2 rid = Some (body, b64)).
  { unfold s2. rewrite E2.
    change (cachedBody (setSelectedNetNodeId (Some i) (setIsExpanding false
              (updateTree i ?f (setNextNodeId c s1u)))) rid)
      with (cachedBody s1u rid).
    apply upsert_cachedBody. }
  assert (L2 : hasLines s2 = true).
  { unfold s2. rewrite E2.
    change (hasLines (setSelectedNetNodeId (Some i) (setIsExpanding false ?x)))
      with (hasLines x).
    rewrite net_updateTree_hasLines by reflexivity.
    change (hasLines (setNextNodeId c s1u)) with (hasLines s1). exact L1. }
  assert (A2 : aimedAtBody s2 i rid n2).
  { unfold s2. rewrite E2. repeat split; try assumption.
    - unfold s2 in L2. rewrite E2 in L2. exact L2.
    - unfold s2 in F2. rewrite E2 in F2. exact F2. }
  (* collapsing *)
  pose proof (toggle_body_collapse s2 i rid n2 A2 eq_refl) as T2.
  set (s3 := setSelectedNetNodeId (Some i) (updateTree i (expandedUpdater false) s2)).
  set (n3 := Node (withExpanded false (data n2)) (children n2)).
  assert (F3 : findNodeById (netTree s3) i = Some n3).
  { unfold s3. change (netTree (setSelectedNetNodeId (Some i) ?x)) with (netTree x).
    rewrite net_updateTree_find by reflexivity. rewrite F2. reflexivity. }
  assert (A3 : aimedAtBody s3 i rid n3).
  { destruct A2 as (G2 & _ & _ & _ & _ & _ & _). repeat split; try assumption.
    unfold s3.
    change (hasLines (setSelectedNetNodeId (Some i) ?x)) with (hasLines x).
    rewrite net_updateTree_hasLines by reflexivity. exact L2. }
  (* expanding again *)
  pose proof (toggle_body_cached s3 i rid n3 body b64
                                 A3 eq_refl C2) as T3.
  rewrite Ef in T3.
  unfold run. cbn [foldl step store inFlight fetchCalls].
  fold st2 s2. rewrite T2. cbn [store inFlight fetchCalls].
  fold s3. rewrite T3. cbn [store inFlight fetchCalls].
  split; [reflexivity|]. split; [reflexivity|].
  unfold setChildrenOf.
  pose proof (bodyChildren_nonempty lines hint
                (nextNodeIdRef (updateTree i (expandedUpdater true) s3))) as Hne'.
  destruct (bodyChildren lines hint
              (nextNodeIdRef (updateTree i (expandedUpdater true) s3))) as [cs' c'].
  cbn [fst] in Hne'. split; [exact C2|].
  exists (Node (withExpanded true (data n3)) cs'). split; [|repeat split; exact Hne'].
  rewrite net_updateTree_find by reflexivity.
  change (netTree (setNextNodeId c' ?x)) with (netTree x).
  rewrite net_updateTree_find by reflexivity. rewrite F3. reflexivity.
Qed.

End Net.
End NetRoundTrip.

(** ** Round trips and the number of fetches *)

Module RoundTripClaim.
Import Tree LogStore.

(** C2, as stated, fails: an argument node whose fetch resolves to no
    property at all (an object without own properties) is fetched again
    when it is collapsed and expanded again; the call counter reaches 2. *)
Lemma round_trip_refetch_counterexample :
  (RoundTrip.valueNode <$> (data <$> findNodeById (logTree (store Samples.twoArgs)) "n1:arg:0")
   = Some true) /\
  fetchCalls Samples.twoArgs = 0%nat /\
  fetchCalls
    (run Samples.describe
         [Select "n1:arg:0"; Toggle; Settle (Fulfilled []);
          Select "n1:arg:0"; Toggle; Select "n1:arg:0"; Toggle]
         Samples.twoArgs) = 2%nat.
Proof. vm_compute. repeat split. Qed.

(** C2, amended. In the log store, an argument or property node that has no
    children yet is fetched once when expanded; when that fetch has
    populated it (it resolved to a non-empty list, or failed and left the
    error sentinel), collapsing and expanding it again issue no fetch and
    the children are kept.  In the network store, a response-body node
    whose body is not cached is fetched once; when the fetch succeeds the
    body is cached on the record, and collapsing and expanding again issue
    no fetch. *)
Theorem round_trip_single_fetch :
  (forall (fmt : RemoteObject -> string) (s : State) (i : string) (node : LogNode)
          (r : FetchResult),
      isExpandingRef s = false ->
      KeyFacts.hasLines fmt s = true ->
      Js.nonEmpty i = true ->
      findNodeById (logTree s) i = Some node ->
      RoundTrip.valueNode (data node) = true ->
      expanded (data node) = false ->
      children node = [] ->
      RoundTrip.populated r = true ->
      let first := run fmt [Select i; Toggle] (mkSession s None 0) in
      let x := run fmt [Settle r; Select i; Toggle; Select i; Toggle] first in
      fetchCalls first = 1%nat /\
      fetchCalls x = 1%nat /\
      inFlight x = None /\
      findNodeById (logTree (store x)) i =
        Some (Node (withLoading false (withExpanded true (data node)))
                   (RoundTrip.childrenAfter r (nextNodeIdRef (store first))))) /\
  (forall (fmt : RemoteObject -> string)
          (sortEntries : NetStore.Headers -> NetStore.Headers)
          (jsonPretty : string -> option string)
          (s : NetStore.State) (i rid : string) (node : LogNode)
          (body : string) (b64 : bool),
      NetStore.isExpandingRef s = false ->
      NetRoundTrip.hasLines fmt s = true ->
      Js.nonEmpty i = true ->
      findNodeById (NetStore.netTree s) i = Some node ->
      kind (data node) = KEntry ->
      (net (data node) = Some (mkNetNodeInfo rid RBody None) \/
       net (data node) = Some (mkNetNodeInfo rid RBody (Some WResponse))) ->
      expanded (data node) = false ->
      NetRoundTrip.cachedBody s rid = None ->
      let first := NetStore.run fmt sortEntries jsonPretty
                     [NetStore.Select i; NetStore.Toggle]
                     (NetStore.mkSession s None 0) in
      let x := NetStore.run fmt sortEntries jsonPretty
                 [NetStore.Settle (NetStore.Fulfilled body b64);
                  NetStore.Select i; NetStore.Toggle;
                  NetStore.Select i; NetStore.Toggle] first in
      NetStore.fetchCalls first = 1%nat /\
      NetStore.fetchCalls x = 1%nat /\
      NetStore.inFlight x = None /\
      NetRoundTrip.cachedBody (NetStore.store x) rid = Some (body, b64) /\
      exists n' : LogNode,
        findNodeById (NetStore.netTree (NetStore.store x)) i = Some n' /\
        expanded (data n') = true /\
        loading (data n') = false /\
        nonEmptyList (children n') = true).
Proof.
  split.
  - intros fmt s i node r. apply RoundTrip.log_round_trip.
  - intros fmt sortEntries jsonPretty s i rid node body b64.
    apply NetRoundTrip.net_round_trip.
Qed.

(** C2 (amended) at a concrete input: the first argument of a two-argument
    entry, whose fetch resolves to one property. *)
Lemma round_trip_single_fetch_witness :
  fetchCalls
    (run Samples.describe
         [Settle (Fulfilled [propNode "prop_1_5" "a" (Samples.remoteObj "o9")]);
          Select "n1:arg:0"; Toggle; Select "n1:arg:0"; Toggle]
         (run Samples.describe [Select "n1:arg:0"; Toggle]
              (mkSession (store Samples.twoArgs) None 0))) = 1%nat.
Proof.
  refine (proj1 (proj2
    (proj1 round_trip_single_fetch Samples.describe (store Samples.twoArgs)
           "n1:arg:0" (argNode "n1:arg:0" (Samples.remoteObj "o1"))
           (Fulfilled [propNode "prop_1_5" "a" (Samples.remoteObj "o9")])
           _ _ _ _ _ _ _ _))); vm_compute; reflexivity.
Defined.

(** The entry branch has no such cache: an entry with a single expandable
    argument fetches that argument's properties at every expansion. *)
Example entry_auto_expand_refetches :
  fetchCalls
    (run Samples.describe
         [Settle (Fulfilled [propNode "prop_1_5" "a" (Samples.remoteObj "o9")]);
          Select "n1"; Toggle; Select "n1"; Toggle]
         Samples.firstInFlight) = 2%nat.
Proof. vm_compute. reflexivity. Qed.

End RoundTripClaim.

(** ** Facts about the string primitives *)

Module JsFacts.
Import Js.

Lemma allWhite_app (a b : string) :
  allWhite (a +:+ b) = allWhite a && allWhite b.
Proof.
  induction a as [|c r IH]; simpl; [reflexivity|].
  now rewrite IH, andb_assoc.
Qed.

Lemma trimEnd_app (a b : string) :
  allWhite b = false -> trimEnd (a +:+ b) = a +:+ trimEnd b.
Proof.
  intros H. induction a as [|c r IH]; [reflexivity|].
  change (String c r +:+ b) with (String c (r +:+ b)).
  change (String c r +:+ trimEnd b) with (String c (r +:+ trimEnd b)).
  change (trimEnd (String c (r +:+ b)))
    with (if isWhite c && allWhite (r +:+ b) then EmptyString
          else String c (trimEnd (r +:+ b))).
  rewrite allWhite_app, H, andb_false_r, andb_false_r. now rewrite IH.
Qed.

Lemma startsWith_refl_app (n r : string) : startsWith n (n +:+ r) = true.
Proof.
  induction n as [|c n IH]; [reflexivity|]. simpl.
  destruct (ascii_dec c c); [exact IH|contradiction].
Qed.

Lemma includes_app_r (n a b : string) :
  includes n b = true -> includes n (a +:+ b) = true.
Proof.
  intros H. induction a as [|c r IH]; [exact H|].
  change (String c r +:+ b) with (String c (r +:+ b)).
  change (includes n (String c (r +:+ b)))
    with (startsWith n (String c (r +:+ b)) || includes n (r +:+ b)).
  rewrite IH. apply orb_true_r.
Qed.

Lemma includes_prefix (n r : string) : includes n (n +:+ r) = true.
Proof.
  destruct n as [|c n]; [destruct r; reflexivity|].
  change (String c n +:+ r) with (String c (n +:+ r)).
  change (includes (String c n) (String c (n +:+ r)))
    with (startsWith (String c n) (String c (n +:+ r)) ||
          includes (String c n) (n +:+ r)).
  change (String c (n +:+ r)) with (String c n +:+ r).
  rewrite startsWith_refl_app. reflexivity.
Qed.

End JsFacts.

(** ** The network reconciler *)

Module ReconcilerFacts.
Import Tree NetStore Cdp.

(** The request node as [ensureNetRequestNode] creates it. *)
Definition requestNode (rid l : string) : LogNode :=
  Node (mkNodeData ("net:" +:+ rid) KEntry None (Some l) None []
                   None None None false false
                   (Some (mkNetNodeInfo rid RRequest None))) [].

Section Reconciler.
Variable formatTime : Z -> string.
Variable sortEntries : Headers -> Headers.

Lemma upsertNet_lookup (rid : string) (patch : Patch) (s : State) :
  netByIdRef (upsertNet rid patch s) !! rid =
  Some (merge (default (freshRecord rid) (netByIdRef s !! rid)) patch).
Proof. unfold upsertNet. cbn [netByIdRef setNetById]. apply lookup_insert_eq. Qed.

Lemma upsertNet_lookup_ne (rid rid' : string) (patch : Patch) (s : State) :
  rid <> rid' ->
  netByIdRef (upsertNet rid patch s) !! rid' = netByIdRef s !! rid'.
Proof.
  intros H. unfold upsertNet. cbn [netByIdRef setNetById].
  now apply lookup_insert_ne.
Qed.

Lemma ensure_new (rid : string) (now : Z) (s : State) :
  netTree s = [] ->
  netTree (ensureNetRequestNode formatTime rid now s) =
  [requestNode rid (getNetLabel formatTime rid now s)].
Proof.
  intros H. unfold ensureNetRequestNode. rewrite H. reflexivity.
Qed.

Lemma find_requestNode (rid l : string) :
  findNodeById [requestNode rid l] ("net:" +:+ rid) = Some (requestNode rid l).
Proof.
  unfold requestNode. cbn [findNodeById]. rewrite TreeFacts.findNode_eq.
  cbn [id]. now rewrite String.eqb_refl.
Qed.

Lemma update_requestNode {S : Type} (rid l : string)
      (u : LogNode -> S -> LogNode * S) (c : S) :
  updateNodeByIdM ("net:" +:+ rid) u [requestNode rid l] c =
  ([fst (u (requestNode rid l) c)], snd (u (requestNode rid l) c)).
Proof.
  unfold updateNodeByIdM, requestNode. cbn [mapUpdate].
  rewrite TreeFacts.updateNode_eq. cbn [id]. rewrite String.eqb_refl.
  destruct (u _ c). reflexivity.
Qed.

Lemma ensure_existing (rid l : string) (now : Z) (s : State) :
  netTree s = [requestNode rid l] ->
  netTree (ensureNetRequestNode formatTime rid now s) =
  [requestNode rid (getNetLabel formatTime rid now s)].
Proof.
  intros H. unfold ensureNetRequestNode. rewrite H, find_requestNode.
  unfold updateTree, updateNodeById. cbn [netTree setNetTree]. rewrite H.
  rewrite update_requestNode. reflexivity.
Qed.

Lemma relabel_existing (rid l : string) (now : Z) (s : State) :
  netTree s = [requestNode rid l] ->
  netTree (updateNetNodeLabel formatTime sortEntries rid now s) =
  [requestNode rid (getNetLabel formatTime rid now s)].
Proof.
  intros H. unfold updateNetNodeLabel, updateTreeM. rewrite H.
  rewrite update_requestNode. reflexivity.
Qed.

Lemma ensure_records (rid : string) (now : Z) (s : State) :
  netByIdRef (ensureNetRequestNode formatTime rid now s) = netByIdRef s.
Proof.
  unfold ensureNetRequestNode.
  destruct (findNodeById (netTree s) ("net:" +:+ rid)); reflexivity.
Qed.

Lemma relabel_records (rid : string) (now : Z) (s : State) :
  netByIdRef (updateNetNodeLabel formatTime sortEntries rid now s) = netByIdRef s.
Proof. apply NetRoundTrip.updateTreeM_records. Qed.

Lemma getNetLabel_records (rid : string) (now : Z) (s s' : State) :
  netByIdRef s = netByIdRef s' ->
  getNetLabel formatTime rid now s = getNetLabel formatTime rid now s'.
Proof. intros H. unfold getNetLabel. now rewrite H. Qed.

(** What a patch does to one field: a key the patch lacks keeps the old
    value, a key it has takes the patch's value. *)
Definition patched {A : Type} (p : option A) (old new : A) : Prop :=
  match p with None => new = old | Some v => new = v end.

Lemma merge_fields (prev : NetRecord) (p : Patch) :
  patched (p_requestId p) (r_requestId prev) (r_requestId (merge prev p)) /\
  patched (p_startTimestamp p) (startTimestamp prev) (startTimestamp (merge prev p)) /\
  patched (p_endTimestamp p) (endTimestamp prev) (endTimestamp (merge prev p)) /\
  patched (p_method p) (method prev) (method (merge prev p)) /\
  patched (p_url p) (url prev) (url (merge prev p)) /\
  patched (p_requestHeaders p) (requestHeaders prev) (requestHeaders (merge prev p)) /\
  patched (p_postData p) (postData prev) (postData (merge prev p)) /\
  patched (p_initiator p) (initiator prev) (initiator (merge prev p)) /\
  patched (p_type p) (r_type prev) (r_type (merge prev p)) /\
  patched (p_status p) (status prev) (status (merge prev p)) /\
  patched (p_statusText p) (statusText prev) (statusText (merge prev p)) /\
  patched (p_mimeType p) (mimeType prev) (mimeType (merge prev p)) /\
  patched (p_protocol p) (protocol prev) (protocol (merge prev p)) /\
  patched (p_remoteIPAddress p) (remoteIPAddress prev) (remoteIPAddress (merge prev p)) /\
  patched (p_remotePort p) (remotePort prev) (remotePort (merge prev p)) /\
  patched (p_fromDiskCache p) (fromDiskCache prev) (fromDiskCache (merge prev p)) /\
  patched (p_fromServiceWorker p) (fromServiceWorker prev) (fromServiceWorker (merge prev p)) /\
  patched (p_responseHeaders p) (responseHeaders prev) (responseHeaders (merge prev p)) /\
  patched (p_encodedDataLength p) (encodedDataLength prev) (encodedDataLength (merge prev p)) /\
  patched (p_errorText p) (errorText prev) (errorText (merge prev p)) /\
  patched (p_canceled p) (canceled prev) (canceled (merge prev p)) /\
  patched (p_responseBody p) (responseBody prev) (responseBody (merge prev p)).
Proof.
  destruct p; cbn [merge p_requestId p_startTimestamp p_endTimestamp p_method p_url
    p_requestHeaders p_postData p_initiator p_type p_status p_statusText p_mimeType
    p_protocol p_remoteIPAddress p_remotePort p_fromDiskCache p_fromServiceWorker
    p_responseHeaders p_encodedDataLength p_errorText p_canceled p_responseBody].
  repeat split;
    match goal with |- patched ?o _ _ => destruct o; reflexivity end.
Qed.

(** The three events of the example, as the listeners of the protocol
    client turn them into patches. *)
Definition exampleRun (ts1 ts3 now1 now2 now3 : Z) : State :=
  onNetworkFinished formatTime sortEntries "r1"
    (loadingFinished (Some ts3) (Some 512%Z)) now3
    (onNetworkResponse formatTime sortEntries "r1"
       (responseReceived (Some 200%Z) None None None None None None None None) now2
       (onNetworkRequest formatTime "r1"
          (requestWillBeSent (Some ts1) (Some "GET") (Some "http://a")
                             None None None None) now1 initial)).

Lemma exampleRun_record (ts1 ts3 now1 now2 now3 : Z) :
  exists r : NetRecord,
    netByIdRef (exampleRun ts1 ts3 now1 now2 now3) !! "r1" = Some r /\
    method r = Some "GET" /\ url r = Some "http://a" /\
    status r = Some 200%Z /\ encodedDataLength r = Some 512%Z /\
    startTimestamp r = Some ts1 /\ errorText r = None.
Proof.
  unfold exampleRun, onNetworkFinished, onNetworkResponse, onNetworkUpdate,
    onNetworkRequest.
  rewrite relabel_records, ensure_records.
  eexists. split; [apply upsertNet_lookup|].
  rewrite relabel_records, ensure_records, upsertNet_lookup.
  rewrite ensure_records, upsertNet_lookup.
  repeat split.
Qed.

Lemma pretty_200 : pretty 200%Z = "200".
Proof. vm_compute. reflexivity. Qed.

Lemma label_example (t : string) :
  Js.includes "GET http://a 200"
    (Js.trimEnd ("[" +:+ t +:+ "] " +:+ "GET" +:+ " " +:+ "http://a" +:+ " " +:+ pretty 200%Z))
  = true.
Proof.
  rewrite pretty_200.
  change ("[" +:+ t +:+ "] " +:+ "GET" +:+ " " +:+ "http://a" +:+ " " +:+ "200")
    with (("[" +:+ t) +:+ "] GET http://a 200").
  rewrite (JsFacts.trimEnd_app ("[" +:+ t) "] GET http://a 200") by reflexivity.
  apply JsFacts.includes_app_r. reflexivity.
Qed.

Lemma getNetLabel_example (rid : string) (now : Z) (s : State) (r : NetRecord) :
  netByIdRef s !! rid = Some r ->
  method r = Some "GET" -> url r = Some "http://a" -> status r = Some 200%Z ->
  errorText r = None ->
  Js.includes "GET http://a 200" (getNetLabel formatTime rid now s) = true.
Proof.
  intros Hr Hm Hu Hs He. unfold getNetLabel. rewrite Hr.
  cbn [mbind option_bind]. rewrite Hm, Hu, Hs, He.
  apply (label_example (formatTime (default now (startTimestamp r)))).
Qed.

Lemma exampleRun_last (ts1 ts3 now1 now2 now3 : Z) :
  exists s : State,
    exampleRun ts1 ts3 now1 now2 now3 =
    updateNetNodeLabel formatTime sortEntries "r1" now3 s /\
    netByIdRef s = netByIdRef (exampleRun ts1 ts3 now1 now2 now3) /\
    exists l : string, netTree s = [requestNode "r1" l].
Proof.
  eexists. split; [reflexivity|]. split.
  - unfold exampleRun, onNetworkFinished, onNetworkUpdate.
    now rewrite relabel_records.
  - unfold onNetworkResponse, onNetworkUpdate, onNetworkRequest.
    eexists. eapply ensure_existing.
    change (netTree (upsertNet ?a ?b ?s)) with (netTree s).
    eapply relabel_existing. eapply ensure_existing.
    change (netTree (upsertNet ?a ?b ?s)) with (netTree s).
    apply ensure_new. reflexivity.
Qed.

Lemma exampleRun_tree (ts1 ts3 now1 now2 now3 : Z) :
  exists l : string,
    netTree (exampleRun ts1 ts3 now1 now2 now3) = [requestNode "r1" l] /\
    Js.includes "GET http://a 200" l = true.
Proof.
  destruct (exampleRun_last ts1 ts3 now1 now2 now3) as (s & E & Hrec & l0 & Ht).
  destruct (exampleRun_record ts1 ts3 now1 now2 now3)
    as (r & Hr & Hm & Hu & Hs & _ & _ & He).
  rewrite <- Hrec in Hr. rewrite E.
  exists (getNetLabel formatTime "r1" now3 s). split.
  - eapply relabel_existing. exact Ht.
  - now apply (getNetLabel_example "r1" now3 s r).
Qed.
End Reconciler.

(** C5. Every event is merged into the record of its request, key by key:
    a field the patch does not mention keeps its value, so nothing an
    earlier event stored is lost.  After request-started (GET, http://a),
    response-received (200) and loading-finished (512 bytes) for "r1", the
    record holds method, url, status and byte count together, and the one
    projection node, "net:r1", has a label containing "GET http://a 200". *)
Theorem patch_merge_completeness :
  (forall (rid : string) (patch : Patch) (s : State),
      netByIdRef (upsertNet rid patch s) !! rid =
      Some (merge (default (freshRecord rid) (netByIdRef s !! rid)) patch)) /\
  (forall (prev : NetRecord) (p : Patch),
      patched (p_method p) (method prev) (method (merge prev p)) /\
      patched (p_url p) (url prev) (url (merge prev p)) /\
      patched (p_status p) (status prev) (status (merge prev p)) /\
      patched (p_encodedDataLength p) (encodedDataLength prev)
              (encodedDataLength (merge prev p))) /\
  (forall (formatTime : Z -> string) (sortEntries : Headers -> Headers)
          (ts1 ts3 now1 now2 now3 : Z),
      (exists r : NetRecord,
          netByIdRef (exampleRun formatTime sortEntries ts1 ts3 now1 now2 now3) !! "r1"
          = Some r /\
          method r = Some "GET" /\ url r = Some "http://a" /\
          status r = Some 200%Z /\ encodedDataLength r = Some 512%Z) /\
      (exists l : string,
          netTree (exampleRun formatTime sortEntries ts1 ts3 now1 now2 now3)
          = [requestNode "r1" l] /\
          Js.includes "GET http://a 200" l = true)).
Proof.
  split; [|split].
  - apply upsertNet_lookup.
  - intros prev p. pose proof (merge_fields prev p) as H. tauto.
  - intros formatTime sortEntries ts1 ts3 now1 now2 now3. split.
    + destruct (exampleRun_record formatTime sortEntries ts1 ts3 now1 now2 now3)
        as (r & H1 & H2 & H3 & H4 & H5 & _).
      exists r. repeat split; assumption.
    + apply exampleRun_tree.
Qed.

End ReconcilerFacts.

(** ** Follow-tail at the cap *)

Module FollowFacts.
Import Tree LogStore Samples.

(** C6, at the failing input.  With follow-tail on and the store filled to
    its cap, the selection is the last line.  One more line is appended: the
    oldest line is evicted, the flattened length is unchanged, so is every
    entry of the effect's dependency array, and the effect does not run.
    The renders settle with follow-tail still on and the selection still on
    "n5000", while the last flattened line is "n5001". *)
Theorem follow_tail_stale_at_cap :
  (followTail (st atCap) = true /\
   length (flatLogs describe (st atCap)) = LOG_MAX_LINES /\
   selectedLogNodeId (st atCap) = Some "n5000" /\
   lastNodeId (flatLogs describe (st atCap)) = Some "n5000" /\
   logScrollTop (st atCap) = 4980%Z) /\
  (followTail (st pastCap) = true /\
   length (flatLogs describe (st pastCap)) = LOG_MAX_LINES /\
   selectedLogNodeId (st pastCap) = Some "n5000" /\
   lastNodeId (flatLogs describe (st pastCap)) = Some "n5001" /\
   selectedLogIndex describe (st pastCap) = 4998%Z /\
   commit describe 20 pastCap = pastCap).
Proof. vm_compute. repeat split. Qed.

End FollowFacts.

(** ** Identifiers of fetched properties *)

Module IdFacts.
Import Tree LogStore Samples.

(** C9, at the failing input.  Two entries are expanded one after the
    other; both property fetches complete within the same millisecond.
    [getProperties] numbers the nodes of each call from 1 and appends the
    reading of the clock, so both calls name their first node
    "prop_1_1000": the store then holds two nodes with that identifier, and
    looking the identifier up only ever reaches the first. *)
Theorem property_ids_collide :
  occurrences "prop_1_1000" (logTree (store sameMillisecond)) = 2%nat /\
  NoDup (nodeIds (logTree (store firstInFlight))) /\
  ~ NoDup (nodeIds (logTree (store sameMillisecond))) /\
  (name <$> (data <$> findNodeById (logTree (store sameMillisecond)) "prop_1_1000"))
  = Some (Some "a").
Proof.
  split; [vm_compute; reflexivity|]. split; [|split].
  - apply (bool_decide_unpack (NoDup (nodeIds (logTree (store firstInFlight))))).
    vm_compute. exact I.
  - apply (bool_decide_unpack (~ NoDup (nodeIds (logTree (store sameMillisecond))))).
    vm_compute. exact I.
  - vm_compute. reflexivity.
Qed.

End IdFacts.

(** * Further properties of the tree utilities *)

Module TreeProps.
Import Tree TreeFacts PointFacts.

(** ** Splitting a text into lines *)

Lemma join_cons_line (c : ascii) (h : string) (t : list string) :
  Js.join (String Js.newline EmptyString) (String c h :: t) =
  String c (Js.join (String Js.newline EmptyString) (h :: t)).
Proof. destruct t; reflexivity. Qed.

Lemma splitLines_join (s : string) :
  Js.join (String Js.newline EmptyString) (splitLines s) = s.
Proof.
  assert (H : Js.join (String Js.newline EmptyString) (splitLines s) = s /\
              splitLines s <> []).
  { induction s as [|c r (IHj & IHn)]; [split; [reflexivity|discriminate]|].
    cbn [splitLines]. destruct (ascii_dec c Js.newline) as [->|Hc].
    - split; [|discriminate].
      destruct (splitLines r) as [|h t]; [contradiction|].
      change (Js.join (String Js.newline EmptyString) (EmptyString :: h :: t))
        with (String Js.newline (Js.join (String Js.newline EmptyString) (h :: t))).
      now rewrite IHj.
    - destruct (splitLines r) as [|h t]; [contradiction|].
      rewrite join_cons_line, IHj. split; [reflexivity|discriminate]. }
  exact (proj1 H).
Qed.

(** X1. [splitLines] never returns an empty list, none of the lines it
    returns contains a line feed, and joining them with line feeds gives the
    text back. *)
Theorem splitLines_round_trip (s : string) :
  Js.join (String Js.newline EmptyString) (splitLines s) = s /\
  splitLines s <> [] /\
  Forall (fun l => CapFacts.hasNewline l = false) (splitLines s).
Proof.
  induction s as [|c r (IHj & IHn & IHf)].
  - repeat split; [discriminate|]. repeat constructor.
  - cbn [splitLines]. destruct (ascii_dec c Js.newline) as [->|Hc].
    + repeat split; [|discriminate|constructor; [reflexivity|exact IHf]].
      destruct (splitLines r) as [|h t]; [contradiction|].
      change (Js.join (String Js.newline EmptyString) (EmptyString :: h :: t))
        with (String Js.newline (Js.join (String Js.newline EmptyString) (h :: t))).
      now rewrite IHj.
    + destruct (splitLines r) as [|h t]; [contradiction|].
      rewrite join_cons_line, IHj.
      repeat split; [discriminate|].
      inversion IHf as [|? ? Hh Ht]; subst. constructor; [|exact Ht].
      cbn [CapFacts.hasNewline]. destruct (ascii_dec c Js.newline); [contradiction|exact Hh].
Qed.

(** ** Lookup after a point mutation *)

(** X2. After [updateNodeById] with an updater that keeps identifiers,
    [findNodeById] for the same identifier returns the updater's result on
    the node it returned before (run in the updater's initial state), and
    nothing when it returned nothing before. *)
Theorem find_after_update {S : Type} (i : string)
        (updater : LogNode -> S -> LogNode * S) (nodes : list LogNode) (s : S) :
  (forall n t, nodeId (fst (updater n t)) = nodeId n) ->
  findNodeById (fst (updateNodeByIdM i updater nodes s)) i =
  (fun n => fst (updater n s)) <$> findNodeById nodes i.
Proof. intros H. now apply find_updateNodeByIdM. Qed.

(** X2 at a concrete input: collapsing the second of two roots. *)
Lemma find_after_update_witness :
  findNodeById
    (fst (updateNodeByIdM "b" (pureUpdater (fun n => Node (withExpanded true (data n)) (children n)))
                          [textNode "a" "x"; textNode "b" "y"] tt)) "b" =
  Some (Node (withExpanded true (data (textNode "b" "y"))) []).
Proof.
  exact (find_after_update "b"
           (pureUpdater (fun n => Node (withExpanded true (data n)) (children n)))
           [textNode "a" "x"; textNode "b" "y"] tt (fun n t => eq_refl)).
Defined.

(** ** Composition of point mutations *)

Lemma updateNode_first {S : Type} (i : string) (u : LogNode -> S -> LogNode * S)
      (d : NodeData) (cs : list LogNode) (s : S) :
  fst (fst (updateNode i u (Node d cs) s)) =
  if String.eqb (id d) i then fst (u (Node d cs) s)
  else Node d (fst (fst (mapUpdate i u cs s))).
Proof.
  rewrite updateNode_eq. destruct (String.eqb (id d) i).
  - destruct (u (Node d cs) s). reflexivity.
  - destruct (hasIdIn i cs) eqn:E.
    + destruct (trace_spec i u cs s) as (cells & s' & _ & Hm & _).
      rewrite Hm, E. reflexivity.
    + rewrite (mapUpdate_absent i u cs s E). reflexivity.
Qed.

Lemma mapUpdate_first_cons (i : string) (f : LogNode -> LogNode)
      (n : LogNode) (r : list LogNode) :
  fst (fst (mapUpdate i (pureUpdater f) (n :: r) tt)) =
  fst (fst (updateNode i (pureUpdater f) n tt)) ::
  fst (fst (mapUpdate i (pureUpdater f) r tt)).
Proof.
  cbn [mapUpdate].
  destruct (updateNode i (pureUpdater f) n tt) as [[n' b1] []].
  destruct (mapUpdate i (pureUpdater f) r tt) as [[r' b2] s2]. reflexivity.
Qed.

Lemma mapUpdate_compose (i : string) (f g : LogNode -> LogNode) (l : list LogNode) :
  (forall n, nodeId (f n) = nodeId n) ->
  fst (fst (mapUpdate i (pureUpdater g)
                      (fst (fst (mapUpdate i (pureUpdater f) l tt))) tt)) =
  fst (fst (mapUpdate i (pureUpdater (fun n => g (f n))) l tt)).
Proof.
  intros Hf. revert l.
  apply (forest_ind
    (fun n => fst (fst (updateNode i (pureUpdater g)
                          (fst (fst (updateNode i (pureUpdater f) n tt))) tt)) =
              fst (fst (updateNode i (pureUpdater (fun n => g (f n))) n tt)))
    (fun l => fst (fst (mapUpdate i (pureUpdater g)
                          (fst (fst (mapUpdate i (pureUpdater f) l tt))) tt)) =
              fst (fst (mapUpdate i (pureUpdater (fun n => g (f n))) l tt)))).
  - intros d cs IH. rewrite !(updateNode_first i _ d cs tt).
    destruct (String.eqb (id d) i) eqn:E.
    + unfold pureUpdater. cbn [fst].
      specialize (Hf (Node d cs)). destruct (f (Node d cs)) as [d' cs'].
      unfold nodeId in Hf. cbn [data] in Hf.
      rewrite updateNode_first, Hf, E. reflexivity.
    + rewrite updateNode_first, E, IH. reflexivity.
  - reflexivity.
  - intros n ns Hn Hns. rewrite !mapUpdate_first_cons, Hn, Hns. reflexivity.
Qed.

(** X3. Two point mutations of the same identifier compose: when the first
    updater keeps identifiers, applying [f] and then [g] through
    [updateNodeById] is applying their composition once. *)
Theorem updateNodeById_compose (i : string) (f g : LogNode -> LogNode)
        (nodes : list LogNode) :
  (forall n, nodeId (f n) = nodeId n) ->
  updateNodeById (updateNodeById nodes i f) i g =
  updateNodeById nodes i (fun n => g (f n)).
Proof.
  intros Hf. unfold updateNodeById. rewrite !updateNodeByIdM_map. cbn [fst].
  now apply mapUpdate_compose.
Qed.

(** X3 at a concrete input: expand, then mark as loading. *)
Lemma updateNodeById_compose_witness :
  updateNodeById
    (updateNodeById [textNode "a" "x"] "a"
                    (fun n => Node (withExpanded true (data n)) (children n)))
    "a" (fun n => Node (withLoading true (data n)) (children n)) =
  updateNodeById [textNode "a" "x"] "a"
    (fun n => Node (withLoading true
                      (data (Node (withExpanded true (data n)) (children n))))
                   (children (Node (withExpanded true (data n)) (children n)))).
Proof.
  exact (updateNodeById_compose "a"
           (fun n => Node (withExpanded true (data n)) (children n))
           (fun n => Node (withLoading true (data n)) (children n))
           [textNode "a" "x"] (fun n => eq_refl)).
Defined.

(** ** What the flattener shows *)

Lemma idsOf_eq (d : NodeData) (cs : list LogNode) :
  idsOf (Node d cs) = id d :: nodeIds cs.
Proof.
  simpl. f_equal; induction cs as [|c r IH]; simpl; try reflexivity; now rewrite IH.
Qed.

(** Every node of the forest is expanded. *)
Fixpoint wholeExpanded (n : LogNode) : bool :=
  match n with
  | Node d cs =>
      expanded d &&
      (fix go (l : list LogNode) : bool :=
         match l with
         | [] => true
         | c :: r => wholeExpanded c && go r
         end) cs
  end.

Fixpoint allExpanded (l : list LogNode) : bool :=
  match l with
  | [] => true
  | c :: r => wholeExpanded c && allExpanded r
  end.

Lemma wholeExpanded_eq (d : NodeData) (cs : list LogNode) :
  wholeExpanded (Node d cs) = expanded d && allExpanded cs.
Proof.
  simpl. f_equal; induction cs as [|c r IH]; simpl; try reflexivity; now rewrite IH.
Qed.

(** X4. The flattened sequence names nodes of the forest, in the forest's
    depth-first order and each at most once per occurrence: its identifiers
    form a sublist of the forest's identifiers.  It has at least one line
    per root, at most one per node, and exactly the forest's identifiers
    when every node is expanded. *)
Theorem flatten_shows_nodes (fmt : RemoteObject -> string)
        (nodes : list LogNode) (p : option string) (k : Z) :
  sublist (map fl_nodeId (flattenLogTree fmt nodes p k)) (nodeIds nodes) /\
  (length nodes <= length (flattenLogTree fmt nodes p k))%nat /\
  (length (flattenLogTree fmt nodes p k) <= length (nodeIds nodes))%nat /\
  (if allExpanded nodes
   then map fl_nodeId (flattenLogTree fmt nodes p k) = nodeIds nodes
   else True).
Proof.
  assert (H : sublist (map fl_nodeId (flattenLogTree fmt nodes p k)) (nodeIds nodes) /\
              (length nodes <= length (flattenLogTree fmt nodes p k))%nat /\
              (if allExpanded nodes
               then map fl_nodeId (flattenLogTree fmt nodes p k) = nodeIds nodes
               else True)).
  { revert nodes p k.
    apply (forest_ind
      (fun n => forall p k,
           sublist (map fl_nodeId (flattenNode fmt p k n)) (idsOf n) /\
           (1 <= length (flattenNode fmt p k n))%nat /\
           (if wholeExpanded n
            then map fl_nodeId (flattenNode fmt p k n) = idsOf n else True))
      (fun l => forall p k,
           sublist (map fl_nodeId (flattenLogTree fmt l p k)) (nodeIds l) /\
           (length l <= length (flattenLogTree fmt l p k))%nat /\
           (if allExpanded l
            then map fl_nodeId (flattenLogTree fmt l p k) = nodeIds l else True))).
    - intros d cs IH p k. rewrite flattenNode_eq, idsOf_eq, wholeExpanded_eq.
      destruct (IH (Some (id d)) (k + 1)%Z) as (Hs & _ & He).
      cbn [map length fl_nodeId lineOf nodeId data].
      destruct (expanded d); cbn [andb].
      + split; [now apply sublist_skip|]. split; [lia|].
        destruct (allExpanded cs); [now rewrite He|exact I].
      + split; [apply sublist_skip, sublist_nil_l|]. split; [simpl; lia|exact I].
    - intros p k. repeat split; constructor.
    - intros n ns Hn Hns p k. cbn [flattenLogTree nodeIds allExpanded length].
      destruct (Hn p k) as (Hs1 & Hl1 & He1). destruct (Hns p k) as (Hs2 & Hl2 & He2).
      rewrite map_app, length_app. split; [now apply sublist_app|]. split; [lia|].
      destruct (wholeExpanded n); cbn [andb]; [|exact I].
      destruct (allExpanded ns); [now rewrite He1, He2|exact I]. }
  destruct H as (Hs & Hl & He). repeat split; try assumption.
  rewrite <- (length_map fl_nodeId). now apply sublist_length.
Qed.

End TreeProps.

(** * The viewport and follow controller *)

Module ViewportProps.
Import Tree LogStore.

Lemma findIndex_spec (i : string) (flat : list FlatLogLine) :
  (findIndex i flat = (-1)%Z /\ ~ In i (map fl_nodeId flat)) \/
  ((0 <= findIndex i flat < Z.of_nat (length flat))%Z /\
   fl_nodeId <$> flat !! Z.to_nat (findIndex i flat) = Some i).
Proof.
  induction flat as [|l r IH]; [left; split; [reflexivity|intros []]|].
  cbn [findIndex map length].
  destruct (String.eqb (fl_nodeId l) i) eqn:E.
  - right. apply String.eqb_eq in E. split; [lia|]. now rewrite <- E.
  - apply String.eqb_neq in E. destruct IH as [[Hk Hn]|[Hk Hn]].
    + left. rewrite Hk. split; [reflexivity|]. intros [H|H]; [now apply E|now apply Hn].
    + right. destruct (Z.ltb_spec (findIndex i r) 0); [lia|].
      split; [lia|].
      replace (Z.to_nat (findIndex i r + 1)) with (Datatypes.S (Z.to_nat (findIndex i r))) by lia.
      exact Hn.
Qed.

Section WithFormat.
Variable fmt : RemoteObject -> string.

(** X5. [selectedLogIndex] is -1 exactly when nothing is shown; otherwise
    it is a valid index into the flattened sequence, and when the selected
    identifier is on screen it is the index of a line of that node. *)
Theorem selectedLogIndex_valid (s : State) :
  match flatLogs fmt s with
  | [] => selectedLogIndex fmt s = (-1)%Z
  | _ :: _ =>
      (0 <= selectedLogIndex fmt s < Z.of_nat (length (flatLogs fmt s)))%Z /\
      (match selectedLogNodeId s with
       | Some i =>
           if Js.nonEmpty i && bool_decide (i ∈ map fl_nodeId (flatLogs fmt s))
           then fl_nodeId <$> flatLogs fmt s !! Z.to_nat (selectedLogIndex fmt s) = Some i
           else selectedLogIndex fmt s = (Z.of_nat (length (flatLogs fmt s)) - 1)%Z
       | None => selectedLogIndex fmt s = (Z.of_nat (length (flatLogs fmt s)) - 1)%Z
       end)
  end.
Proof.
  unfold selectedLogIndex.
  destruct (flatLogs fmt s) as [|l r] eqn:E; [reflexivity|].
  set (flat := l :: r). set (n := Z.of_nat (length flat)).
  assert (Hn : (0 < n)%Z) by (unfold n, flat; simpl; lia).
  destruct (selectedLogNodeId s) as [i|]; [|split; [lia|reflexivity]].
  destruct (Js.nonEmpty i); cbn [andb]; [|split; [lia|reflexivity]].
  destruct (findIndex_spec i flat) as [[Hk Hnot]|[Hk Hat]].
  - rewrite Hk. cbn [Z.leb Z.compare]. split; [lia|].
    rewrite bool_decide_eq_false_2 by (rewrite list_elem_of_In; exact Hnot). reflexivity.
  - fold n in Hk. destruct (Z.leb_spec 0 (findIndex i flat)); [|lia].
    split; [lia|].
    destruct (bool_decide (i ∈ map fl_nodeId flat)) eqn:B; [exact Hat|].
    apply bool_decide_eq_false in B. exfalso. apply B.
    destruct (flat !! Z.to_nat (findIndex i flat)) as [x|] eqn:Ex; [|discriminate].
    injection Hat as <-. apply list_elem_of_In, in_map, list_elem_of_In.
    eapply list_elem_of_lookup_2. exact Ex.
Qed.

Variable visibleLogLines : Z.

Definition depsOf (s : State) : Deps :=
  mkDeps (Z.of_nat (length (flatLogs fmt s))) (followTail s) visibleLogLines
         (selectedLogNodeId s).

(** Both effects have seen the current state. *)
Definition Settled (h : Hook) : Prop :=
  followDeps h = Some (depsOf (st h)) /\ searchDeps h = Some (logSearchQuery (st h)).

Definition scrollInRange (s : State) : Prop :=
  (0 <= logScrollTop s <=
   Z.max 0 (Z.of_nat (length (flatLogs fmt s)) - visibleLogLines))%Z.

Definition runFollow (h : Hook) : bool :=
  match followDeps h with
  | Some d => negb (depsEqb d (depsOf (st h)))
  | None => true
  end.

Definition runSearch (h : Hook) : bool :=
  match searchDeps h with
  | Some q => negb (String.eqb q (logSearchQuery (st h)))
  | None => true
  end.

Lemma optStringEqb_refl (o : option string) : optStringEqb o o = true.
Proof. destruct o; [apply String.eqb_refl|reflexivity]. Qed.

Lemma depsEqb_refl (d : Deps) : depsEqb d d = true.
Proof.
  unfold depsEqb. rewrite !Z.eqb_refl, eqb_reflx, optStringEqb_refl. reflexivity.
Qed.

Lemma depsEqb_length (a b : Deps) : depsEqb a b = true -> depLength a = depLength b.
Proof.
  unfold depsEqb. intros H.
  apply andb_true_iff in H as [H _]. apply andb_true_iff in H as [H _].
  apply andb_true_iff in H as [H _]. now apply Z.eqb_eq.
Qed.

Definition afterSearch (h : Hook) (s : State) : State :=
  if runSearch h then
    (if Js.nonEmpty (Js.trim (logSearchQuery (st h))) then setFollowTail false s else s)
  else s.

Lemma commit_eq (h : Hook) :
  commit fmt visibleLogLines h =
  mkHook (afterSearch h
            (if runFollow h
             then followEffect (flatLogs fmt (st h)) visibleLogLines (st h)
             else st h))
         (Some (depsOf (st h))) (Some (logSearchQuery (st h))).
Proof. reflexivity. Qed.

Lemma followEffect_flat (flat : list FlatLogLine) (s : State) :
  flatLogs fmt (followEffect flat visibleLogLines s) = flatLogs fmt s.
Proof.
  destruct s as [t ft sc sel so q c g]. unfold followEffect.
  destruct flat; [reflexivity|].
  cbn [selectedLogNodeId followTail]. destruct (negb (truthy sel)), ft; reflexivity.
Qed.

Lemma followEffect_query (flat : list FlatLogLine) (s : State) :
  logSearchQuery (followEffect flat visibleLogLines s) = logSearchQuery s.
Proof.
  destruct s as [t ft sc sel so q c g]. unfold followEffect.
  destruct flat; [reflexivity|].
  cbn [selectedLogNodeId followTail]. destruct (negb (truthy sel)), ft; reflexivity.
Qed.

Lemma followEffect_follow (flat : list FlatLogLine) (s : State) :
  followTail (followEffect flat visibleLogLines s) = followTail s.
Proof.
  destruct s as [t ft sc sel so q c g]. unfold followEffect.
  destruct flat; [reflexivity|].
  cbn [selectedLogNodeId followTail]. destruct (negb (truthy sel)), ft; reflexivity.
Qed.

Lemma clamp_idem (x m : Z) : clamp (clamp x 0 m) 0 m = clamp x 0 m.
Proof. unfold clamp. lia. Qed.

Lemma followEffect_idem (flat : list FlatLogLine) (s : State) :
  followEffect flat visibleLogLines (followEffect flat visibleLogLines s) =
  followEffect flat visibleLogLines s.
Proof.
  destruct s as [t ft sc sel so q c g]. unfold followEffect.
  destruct flat as [|l r]; [reflexivity|].
  cbn [selectedLogNodeId followTail logScrollTop setSelectedLogNodeId setLogScrollTop
       logTree logSearchOpen logSearchQuery nextNodeIdRef isExpandingRef].
  destruct ft.
  - destruct (negb (truthy sel));
      cbn [selectedLogNodeId followTail logScrollTop setSelectedLogNodeId setLogScrollTop
           logTree logSearchOpen logSearchQuery nextNodeIdRef isExpandingRef];
      destruct (negb (truthy (lastNodeId (l :: r)))); reflexivity.
  - destruct (negb (truthy sel)) eqn:E;
      cbn [selectedLogNodeId followTail logScrollTop setSelectedLogNodeId setLogScrollTop
           logTree logSearchOpen logSearchQuery nextNodeIdRef isExpandingRef].
    + destruct (negb (truthy (lastNodeId (l :: r))));
        cbn [selectedLogNodeId followTail logScrollTop setSelectedLogNodeId setLogScrollTop
           logTree logSearchOpen logSearchQuery nextNodeIdRef isExpandingRef];
        now rewrite clamp_idem.
    + rewrite E.
      cbn [selectedLogNodeId followTail logScrollTop setSelectedLogNodeId setLogScrollTop
           logTree logSearchOpen logSearchQuery nextNodeIdRef isExpandingRef].
      now rewrite clamp_idem.
Qed.

Lemma followEffect_range (s : State) :
  scrollInRange (followEffect (flatLogs fmt s) visibleLogLines s).
Proof.
  unfold scrollInRange. rewrite followEffect_flat. unfold followEffect.
  destruct (flatLogs fmt s) as [|l r]; [simpl; lia|].
  destruct s as [t ft sc sel so q c g]. cbn [selectedLogNodeId followTail].
  destruct (negb (truthy sel)), ft;
    cbn [logScrollTop setLogScrollTop setSelectedLogNodeId]; unfold clamp; lia.
Qed.

Lemma afterSearch_flat (h : Hook) (s : State) :
  flatLogs fmt (afterSearch h s) = flatLogs fmt s.
Proof.
  unfold afterSearch. destruct (runSearch h); [|reflexivity].
  destruct (Js.nonEmpty _); reflexivity.
Qed.

Lemma afterSearch_scroll (h : Hook) (s : State) :
  logScrollTop (afterSearch h s) = logScrollTop s.
Proof.
  unfold afterSearch. destruct (runSearch h); [|reflexivity].
  destruct (Js.nonEmpty _); reflexivity.
Qed.

Lemma afterSearch_query (h : Hook) (s : State) :
  logSearchQuery (afterSearch h s) = logSearchQuery s.
Proof.
  unfold afterSearch. destruct (runSearch h); [|reflexivity].
  destruct (Js.nonEmpty _); reflexivity.
Qed.

Lemma commit_query (h : Hook) :
  logSearchQuery (st (commit fmt visibleLogLines h)) = logSearchQuery (st h).
Proof.
  rewrite commit_eq. cbn [st]. rewrite afterSearch_query.
  destruct (runFollow h); [apply followEffect_query|reflexivity].
Qed.

Lemma commit_flat (h : Hook) :
  flatLogs fmt (st (commit fmt visibleLogLines h)) = flatLogs fmt (st h).
Proof.
  rewrite commit_eq. cbn [st]. rewrite afterSearch_flat.
  destruct (runFollow h); [apply followEffect_flat|reflexivity].
Qed.

(** A hook whose search effect has seen the current query. *)
Definition searchSeen (h : Hook) : Prop :=
  searchDeps h = Some (logSearchQuery (st h)).

Lemma searchSeen_commit (h : Hook) : searchSeen (commit fmt visibleLogLines h).
Proof. unfold searchSeen. rewrite commit_query. reflexivity. Qed.

Lemma commit_searchSeen (h : Hook) :
  searchSeen h ->
  st (commit fmt visibleLogLines h) =
  if runFollow h then followEffect (flatLogs fmt (st h)) visibleLogLines (st h)
  else st h.
Proof.
  intros H. rewrite commit_eq. cbn [st]. unfold afterSearch, runSearch.
  rewrite H, String.eqb_refl. reflexivity.
Qed.

Lemma commit_settled (h : Hook) : Settled h -> commit fmt visibleLogLines h = h.
Proof.
  intros [Hf Hs]. rewrite commit_eq. unfold afterSearch, runSearch, runFollow.
  rewrite Hf, Hs, depsEqb_refl, String.eqb_refl. cbn [negb].
  destruct h as [s fd sd]. cbn [st followDeps searchDeps] in *. now rewrite Hf, Hs.
Qed.

(** Once the search effect has seen the query, a second commit leaves the
    state where the first put it. *)
Lemma commit_twice_state (h : Hook) :
  searchSeen h ->
  st (commit fmt visibleLogLines (commit fmt visibleLogLines h)) =
  st (commit fmt visibleLogLines h).
Proof.
  intros H.
  rewrite (commit_searchSeen (commit fmt visibleLogLines h)) by apply searchSeen_commit.
  rewrite commit_flat.
  unfold runFollow at 1. rewrite commit_eq at 1. cbn [followDeps].
  rewrite (commit_searchSeen h H).
  destruct (runFollow h) eqn:R.
  - destruct (negb _); [apply followEffect_idem|reflexivity].
  - rewrite depsEqb_refl. reflexivity.
Qed.

Lemma commit_thrice_settled (h : Hook) :
  Settled (render fmt visibleLogLines h).
Proof.
  unfold render.
  set (h1 := commit fmt visibleLogLines h).
  assert (S1 : searchSeen h1) by apply searchSeen_commit.
  pose proof (commit_twice_state h1 S1) as E.
  set (h2 := commit fmt visibleLogLines h1) in *.
  split.
  - rewrite E. reflexivity.
  - apply searchSeen_commit.
Qed.

(** X6. Three rounds of render-and-effects reach a fixed point from any
    state of the hook: one more round changes nothing, and both effects have
    then seen the state as it is. *)
Theorem render_fixed_point (h : Hook) :
  commit fmt visibleLogLines (render fmt visibleLogLines h) = render fmt visibleLogLines h /\
  followDeps (render fmt visibleLogLines h) =
    Some (depsOf (st (render fmt visibleLogLines h))) /\
  searchDeps (render fmt visibleLogLines h) =
    Some (logSearchQuery (st (render fmt visibleLogLines h))).
Proof.
  pose proof (commit_thrice_settled h) as S.
  split; [now apply commit_settled|exact S].
Qed.

Lemma commit_range (h : Hook) :
  scrollInRange (st h) -> scrollInRange (st (commit fmt visibleLogLines h)).
Proof.
  intros H. rewrite commit_eq. cbn [st]. unfold scrollInRange.
  rewrite afterSearch_scroll, afterSearch_flat.
  destruct (runFollow h); [apply followEffect_range|exact H].
Qed.

Lemma commit_follow_seen (h : Hook) :
  searchSeen h ->
  followTail (st (commit fmt visibleLogLines h)) = followTail (st h).
Proof.
  intros H. rewrite (commit_searchSeen h H).
  destruct (runFollow h); [apply followEffect_follow|reflexivity].
Qed.

Lemma render_state_seen (h : Hook) :
  searchSeen h ->
  st (render fmt visibleLogLines h) = st (commit fmt visibleLogLines h).
Proof.
  intros H. unfold render.
  rewrite (commit_twice_state (commit fmt visibleLogLines h)) by apply searchSeen_commit.
  now apply commit_twice_state.
Qed.

(** X7. The scroll offset stays within [0, max(0, lines - visible)]: if it
    is in range once the effects have settled, then after any transition
    that leaves the offset alone or resets it to 0 (appending, expanding,
    collapsing, a fetch settling, clearing, moving the selection, changing
    the query or the follow flag) and the renders that follow, it is in
    range again and the effects have settled again. *)
Theorem scroll_stays_in_range (h : Hook) (f : State -> State) :
  Settled h ->
  scrollInRange (st h) ->
  logScrollTop (f (st h)) = logScrollTop (st h) \/ logScrollTop (f (st h)) = 0%Z ->
  scrollInRange (st (act fmt visibleLogLines f h)) /\
  Settled (act fmt visibleLogLines f h).
Proof.
  intros [Hf Hs] Hr Hsc. split; [|apply commit_thrice_settled].
  unfold act, render. do 2 apply commit_range.
  set (h0 := mkHook (f (st h)) (followDeps h) (searchDeps h)).
  rewrite commit_eq. cbn [st]. unfold scrollInRange.
  rewrite afterSearch_scroll, afterSearch_flat.
  destruct (runFollow h0) eqn:R; [apply followEffect_range|].
  unfold runFollow, h0 in R. cbn [followDeps st] in R. rewrite Hf in R.
  apply negb_false_iff, depsEqb_length in R. cbn [depsOf depLength] in R.
  unfold h0. cbn [st]. rewrite <- R.
  unfold scrollInRange in Hr. destruct Hsc as [-> | ->]; lia.
Qed.

(** X8. Follow-tail does follow whenever an update changes the number of
    flattened lines: with follow on and the query untouched, the renders
    settle with the selection on the last flattened line and the view
    scrolled to the bottom. *)
Theorem follow_tail_pins_on_growth (h : Hook) (f : State -> State) :
  Settled h ->
  followTail (f (st h)) = true ->
  logSearchQuery (f (st h)) = logSearchQuery (st h) ->
  length (flatLogs fmt (f (st h))) <> length (flatLogs fmt (st h)) ->
  followTail (st (act fmt visibleLogLines f h)) = true /\
  selectedLogNodeId (st (act fmt visibleLogLines f h)) =
    lastNodeId (flatLogs fmt (st (act fmt visibleLogLines f h))) /\
  logScrollTop (st (act fmt visibleLogLines f h)) =
    match flatLogs fmt (st (act fmt visibleLogLines f h)) with
    | [] => 0%Z
    | _ :: _ => Z.max 0 (Z.of_nat (length (flatLogs fmt (st (act fmt visibleLogLines f h))))
                         - visibleLogLines)
    end.
Proof.
  intros [Hf Hs] Hft Hq Hlen. unfold act.
  set (h0 := mkHook (f (st h)) (followDeps h) (searchDeps h)).
  assert (S0 : searchSeen h0) by (unfold searchSeen, h0; cbn [st searchDeps]; now rewrite Hq).
  assert (R : runFollow h0 = true).
  { unfold runFollow, h0. cbn [followDeps st]. rewrite Hf.
    apply negb_true_iff. destruct (depsEqb _ _) eqn:E; [|reflexivity].
    apply depsEqb_length in E. cbn [depsOf depLength] in E. lia. }
  rewrite (render_state_seen h0 S0), (commit_searchSeen h0 S0), R.
  unfold h0. cbn [st]. rewrite followEffect_flat, followEffect_follow.
  split; [exact Hft|].
  unfold followEffect. destruct (flatLogs fmt (f (st h))) as [|l r]; [split; reflexivity|].
  rewrite Hft. split; reflexivity.
Qed.

(** X9. Setting a query that is not blank and differs from the previous one
    turns follow-tail off; turning follow-tail on afterwards keeps it on,
    even though the query is still active, because the search effect only
    runs when the query changes. *)
Theorem search_disengages_follow (h : Hook) (q : string) :
  Settled h ->
  (Js.nonEmpty (Js.trim q) = true -> q <> logSearchQuery (st h) ->
   followTail (st (act fmt visibleLogLines (setLogSearchQuery q) h)) = false) /\
  followTail (st (act fmt visibleLogLines (setFollowTail true) h)) = true.
Proof.
  intros [Hf Hs]. split.
  - intros Hq Hne. unfold act, render.
    set (h0 := mkHook (setLogSearchQuery q (st h)) (followDeps h) (searchDeps h)).
    rewrite !commit_follow_seen by apply searchSeen_commit.
    rewrite commit_eq. cbn [st]. unfold afterSearch, runSearch, h0.
    cbn [searchDeps st]. rewrite Hs.
    change (logSearchQuery (setLogSearchQuery q (st h))) with q. rewrite Hq.
    assert (E : String.eqb (logSearchQuery (st h)) q = false).
    { apply String.eqb_neq. intros E. now apply Hne. }
    rewrite E. reflexivity.
  - unfold act.
    set (h0 := mkHook (setFollowTail true (st h)) (followDeps h) (searchDeps h)).
    assert (S0 : searchSeen h0) by exact Hs.
    unfold render. rewrite !commit_follow_seen by apply searchSeen_commit.
    rewrite (commit_follow_seen h0 S0). reflexivity.
Qed.

End WithFormat.

(** X7, X8 and X9 at concrete inputs: the freshly mounted hook, 20 lines
    visible, to which one line is appended or whose query is set. *)
Lemma scroll_stays_in_range_witness :
  scrollInRange Samples.describe 20
    (st (act Samples.describe 20 (appendTextLog "x") (render Samples.describe 20 mount))).
Proof.
  refine (proj1 (scroll_stays_in_range Samples.describe 20
                   (render Samples.describe 20 mount) (appendTextLog "x") _ _ _)).
  - apply commit_thrice_settled.
  - vm_compute. split; discriminate.
  - left. reflexivity.
Defined.

Lemma follow_tail_pins_on_growth_witness :
  selectedLogNodeId
    (st (act Samples.describe 20 (appendTextLog "x") (render Samples.describe 20 mount))) =
  lastNodeId (flatLogs Samples.describe
    (st (act Samples.describe 20 (appendTextLog "x") (render Samples.describe 20 mount)))).
Proof.
  refine (proj1 (proj2 (follow_tail_pins_on_growth Samples.describe 20
                   (render Samples.describe 20 mount) (appendTextLog "x") _ _ _ _))).
  - apply commit_thrice_settled.
  - reflexivity.
  - reflexivity.
  - vm_compute. discriminate.
Defined.

Lemma search_disengages_follow_witness :
  followTail (st (act Samples.describe 20 (setLogSearchQuery "err")
                      (render Samples.describe 20 mount))) = false.
Proof.
  refine (proj1 (search_disengages_follow Samples.describe 20
                   (render Samples.describe 20 mount) "err" _) _ _).
  - apply commit_thrice_settled.
  - reflexivity.
  - vm_compute. discriminate.
Defined.

End ViewportProps.

(** * Invariants of the stores *)

Module StoreProps.
Import Tree TreeFacts PointFacts.

(** ** The number of roots *)

Lemma mapUpdate_length {S : Type} (i : string) (u : LogNode -> S -> LogNode * S)
      (l : list LogNode) (s : S) :
  length (fst (fst (mapUpdate i u l s))) = length l.
Proof.
  revert s. induction l as [|n r IH]; intros s; [reflexivity|].
  cbn [mapUpdate]. destruct (updateNode i u n s) as [[n' b1] s1].
  specialize (IH s1). destruct (mapUpdate i u r s1) as [[r' b2] s2].
  cbn [fst length] in *. now rewrite IH.
Qed.

Lemma updateNodeByIdM_length {S : Type} (i : string) (u : LogNode -> S -> LogNode * S)
      (l : list LogNode) (s : S) :
  length (fst (updateNodeByIdM i u l s)) = length l.
Proof. rewrite updateNodeByIdM_map. apply mapUpdate_length. Qed.

Lemma log_updateTreeM_length (i : string) (u : LogNode -> N -> LogNode * N)
      (s : LogStore.State) :
  length (LogStore.logTree (LogStore.updateTreeM i u s)) = length (LogStore.logTree s).
Proof.
  unfold LogStore.updateTreeM.
  pose proof (updateNodeByIdM_length i u (LogStore.logTree s) (LogStore.nextNodeIdRef s)) as E.
  destruct (updateNodeByIdM i u (LogStore.logTree s) (LogStore.nextNodeIdRef s)). exact E.
Qed.

Lemma log_updateTree_length (i : string) (f : LogNode -> LogNode) (s : LogStore.State) :
  length (LogStore.logTree (LogStore.updateTree i f s)) = length (LogStore.logTree s).
Proof. apply updateNodeByIdM_length. Qed.

Lemma net_updateTreeM_length (i : string) (u : LogNode -> N -> LogNode * N)
      (s : NetStore.State) :
  length (NetStore.netTree (NetStore.updateTreeM i u s)) = length (NetStore.netTree s).
Proof.
  unfold NetStore.updateTreeM.
  pose proof (updateNodeByIdM_length i u (NetStore.netTree s) (NetStore.nextNodeIdRef s)) as E.
  destruct (updateNodeByIdM i u (NetStore.netTree s) (NetStore.nextNodeIdRef s)). exact E.
Qed.

Lemma net_updateTree_length (i : string) (f : LogNode -> LogNode) (s : NetStore.State) :
  length (NetStore.netTree (NetStore.updateTree i f s)) = length (NetStore.netTree s).
Proof. apply updateNodeByIdM_length. Qed.

Ltac split_toggle :=
  repeat match goal with
         | |- context [if ?b then _ else _] => destruct b
         | |- context [match ?x with _ => _ end] => destruct x
         end.

Lemma log_toggle_length (fmt : RemoteObject -> string) (s : LogStore.State) :
  length (LogStore.logTree (fst (LogStore.toggleExpandSelected fmt s))) =
  length (LogStore.logTree s).
Proof.
  unfold LogStore.toggleExpandSelected. split_toggle; cbn [fst];
    repeat first
      [ reflexivity
      | rewrite log_updateTreeM_length
      | rewrite log_updateTree_length
      | progress change (LogStore.logTree (LogStore.setIsExpanding ?b ?x))
          with (LogStore.logTree x) ].
Qed.

Lemma log_settle_length (p : LogStore.Pending) (r : LogStore.FetchResult)
      (s : LogStore.State) :
  length (LogStore.logTree (LogStore.settle p r s)) = length (LogStore.logTree s).
Proof.
  destruct r; cbn [LogStore.settle]; unfold LogStore.fetchResolved, LogStore.fetchRejected;
    change (LogStore.logTree (LogStore.setIsExpanding ?b ?x)) with (LogStore.logTree x);
    [apply log_updateTree_length|apply log_updateTreeM_length].
Qed.

Lemma log_step_length (fmt : RemoteObject -> string) (g : LogStore.Gesture)
      (x : LogStore.Session) :
  length (LogStore.logTree (LogStore.store (LogStore.step fmt g x))) =
  length (LogStore.logTree (LogStore.store x)).
Proof.
  destruct g as [i| |r]; cbn [LogStore.step].
  - reflexivity.
  - pose proof (log_toggle_length fmt (LogStore.store x)) as E.
    destruct (LogStore.toggleExpandSelected fmt (LogStore.store x)) as [s' [q|]]; exact E.
  - destruct (LogStore.inFlight x); [apply log_settle_length|reflexivity].
Qed.

Lemma keepLast_le {A : Type} (cap : nat) (l : list A) :
  (length (keepLast cap l) <= cap)%nat.
Proof. rewrite CapFacts.keepLast_length. lia. Qed.

(** X10. The log forest never has more than [LOG_MAX_LINES] roots after an
    append, whatever it held before, and selecting, toggling and the
    completion of a fetch never add or remove a root: the bound holds along
    every sequence of gestures. *)
Theorem log_root_count_bounded :
  (forall (line : string) (s : LogStore.State),
      (length (LogStore.logTree (LogStore.appendTextLog line s)) <= LOG_MAX_LINES)%nat) /\
  (forall (l : string) (a : list RemoteObject) (ts : option Z) (s : LogStore.State),
      (length (LogStore.logTree (LogStore.appendEntryLog l a ts s)) <= LOG_MAX_LINES)%nat) /\
  (forall (fmt : RemoteObject -> string) (gs : list LogStore.Gesture)
          (x : LogStore.Session),
      length (LogStore.logTree (LogStore.store (LogStore.run fmt gs x))) =
      length (LogStore.logTree (LogStore.store x))).
Proof.
  split; [|split].
  - intros. apply keepLast_le.
  - intros. apply keepLast_le.
  - intros fmt gs. unfold LogStore.run.
    induction gs as [|g r IH]; intros x; [reflexivity|].
    cbn [foldl]. rewrite IH. apply log_step_length.
Qed.

(** ** Identifiers drawn from the counter *)

Lemma nId_inj (a b : N) : LogStore.nId a = LogStore.nId b -> a = b.
Proof.
  unfold LogStore.nId. intros H.
  change ("n" +:+ pretty a) with (String "n"%char (pretty a)) in H.
  change ("n" +:+ pretty b) with (String "n"%char (pretty b)) in H.
  injection H as H. now apply (inj pretty).
Qed.

Lemma nodeIds_app (a b : list LogNode) : nodeIds (a ++ b) = nodeIds a ++ nodeIds b.
Proof.
  induction a as [|x r IH]; [reflexivity|]. cbn [app nodeIds].
  now rewrite IH, app_assoc.
Qed.

Lemma nodeIds_drop (n : nat) (l : list LogNode) :
  sublist (nodeIds (drop n l)) (nodeIds l).
Proof.
  revert l. induction n as [|n IH]; intros l; [reflexivity|].
  destruct l as [|x r]; [reflexivity|]. cbn [drop nodeIds].
  apply sublist_inserts_l, IH.
Qed.

Lemma numberLines_ids (c : N) (ls : list string) (i : string) :
  i ∈ nodeIds (LogStore.numberLines c ls) ->
  exists k, i = LogStore.nId k /\ (c < k <= c + N.of_nat (length ls))%N.
Proof.
  revert c. induction ls as [|t r IH]; intros c H; [inversion H|].
  cbn [LogStore.numberLines nodeIds idsOf textNode app] in H.
  apply elem_of_cons in H as [->|H].
  - exists (c + 1)%N. split; [reflexivity|]. cbn [length]. lia.
  - destruct (IH (c + 1)%N H) as (k & -> & Hk). exists k. split; [reflexivity|].
    cbn [length]. lia.
Qed.

Lemma numberLines_NoDup (c : N) (ls : list string) :
  NoDup (nodeIds (LogStore.numberLines c ls)).
Proof.
  revert c. induction ls as [|t r IH]; intros c; [constructor|].
  cbn [LogStore.numberLines nodeIds idsOf textNode app].
  constructor; [|apply IH].
  intros H. destruct (numberLines_ids (c + 1) r _ H) as (k & E & Hk).
  apply nId_inj in E. lia.
Qed.

(** Every identifier of the form [`n${k}`] in the forest was drawn from the
    counter: [k] is at most its current value. *)
Definition counterAbove (s : LogStore.State) : Prop :=
  forall k, LogStore.nId k ∈ nodeIds (LogStore.logTree s) ->
            (k <= LogStore.nextNodeIdRef s)%N.

Lemma append_unique (s : LogStore.State) (new : list LogNode) (c' : N) :
  counterAbove s ->
  NoDup (nodeIds (LogStore.logTree s)) ->
  NoDup (nodeIds new) ->
  (LogStore.nextNodeIdRef s <= c')%N ->
  (forall i, i ∈ nodeIds new ->
             exists k, i = LogStore.nId k /\ (LogStore.nextNodeIdRef s < k <= c')%N) ->
  let s' := LogStore.setLogTree (keepLast LOG_MAX_LINES (LogStore.logTree s ++ new))
                                (LogStore.setNextNodeId c' s) in
  NoDup (nodeIds (LogStore.logTree s')) /\ counterAbove s'.
Proof.
  intros Hc Hn Hnew Hle Hids s'.
  assert (Hsub : sublist (nodeIds (LogStore.logTree s'))
                         (nodeIds (LogStore.logTree s) ++ nodeIds new)).
  { unfold s'. cbn [LogStore.logTree LogStore.setLogTree].
    rewrite CapFacts.keepLast_drop, <- nodeIds_app. apply nodeIds_drop. }
  split.
  - eapply sublist_NoDup; [|exact Hsub].
    apply NoDup_app. split; [exact Hn|]. split; [|exact Hnew].
    intros i Hi Hi'. destruct (Hids i Hi') as (k & -> & Hk).
    specialize (Hc k Hi). lia.
  - intros k Hk. unfold s'.
    cbn [LogStore.nextNodeIdRef LogStore.setLogTree LogStore.setNextNodeId].
    eapply elem_of_sublist in Hk; [|exact Hsub].
    apply elem_of_app in Hk as [Hk|Hk].
    + specialize (Hc k Hk). lia.
    + destruct (Hids _ Hk) as (k' & E & Hk'). apply nId_inj in E. lia.
Qed.

(** X11. Appends keep the identifiers of the log forest pairwise distinct:
    if no two nodes share an identifier and every identifier of the form
    [`n${k}`] in the forest was drawn from the counter, the same holds after
    [appendTextLog] and after [appendEntryLog]. *)
Theorem appends_keep_ids_unique (s : LogStore.State) (line l : string)
        (a : list RemoteObject) (ts : option Z) :
  counterAbove s ->
  NoDup (nodeIds (LogStore.logTree s)) ->
  (NoDup (nodeIds (LogStore.logTree (LogStore.appendTextLog line s))) /\
   counterAbove (LogStore.appendTextLog line s)) /\
  (NoDup (nodeIds (LogStore.logTree (LogStore.appendEntryLog l a ts s))) /\
   counterAbove (LogStore.appendEntryLog l a ts s)).
Proof.
  intros Hc Hn. split.
  - apply (append_unique s (LogStore.numberLines (LogStore.nextNodeIdRef s) (splitLines line))
             (LogStore.nextNodeIdRef s + N.of_nat (length (splitLines line)))%N Hc Hn).
    + apply numberLines_NoDup.
    + lia.
    + apply numberLines_ids.
  - apply (append_unique s [entryNode (LogStore.nId (LogStore.nextNodeIdRef s + 1)) l a ts]
             (LogStore.nextNodeIdRef s + 1)%N Hc Hn).
    + cbn [nodeIds idsOf entryNode app]. apply NoDup_singleton.
    + lia.
    + intros i Hi. cbn [nodeIds idsOf entryNode app] in Hi.
      apply list_elem_of_singleton in Hi as ->.
      exists (LogStore.nextNodeIdRef s + 1)%N. split; [reflexivity|lia].
Qed.

(** X11 at a concrete input: two lines appended to the empty store. *)
Lemma appends_keep_ids_unique_witness :
  NoDup (nodeIds (LogStore.logTree (LogStore.appendTextLog "a" LogStore.initial))).
Proof.
  refine (proj1 (proj1 (appends_keep_ids_unique LogStore.initial "a" "e" [] None _ _))).
  - intros k H. inversion H.
  - constructor.
Defined.

(** ** Materialising the arguments of an entry *)

Lemma argChildren_objects (parent : string) (k : N) (a : list RemoteObject) :
  map (fun n => object (data n)) (LogStore.argChildren parent k a) = map Some a /\
  map (fun n => kind (data n)) (LogStore.argChildren parent k a) = map (fun _ => KArg) a /\
  map (fun n => expanded (data n)) (LogStore.argChildren parent k a) = map (fun _ => false) a /\
  map nodeId (LogStore.argChildren parent k a) =
    imap (fun j _ => parent +:+ ":arg:" +:+ pretty (k + N.of_nat j)%N) a.
Proof.
  revert k. induction a as [|o r IH]; intros k; [repeat split|].
  destruct (IH (k + 1)%N) as (H1 & H2 & H3 & H4).
  cbn [LogStore.argChildren map imap]. rewrite H1, H2, H3, H4.
  repeat split.
  unfold nodeId at 1. cbn [argNode data id]. rewrite N.add_0_r. f_equal.
  apply imap_ext. intros j x _. cbn. do 3 f_equal. lia.
Qed.

(** X12. [ensureEntryChildren] materialises the children of an entry once:
    it never changes the node's own fields, applying it twice is applying
    it once, a node that has children (or is no entry) is returned as it
    is, and an entry without children gets one collapsed argument node per
    argument, in order, the [j]-th named [`${id}:arg:${j}`]. *)
Theorem ensureEntryChildren_once (n : LogNode) :
  data (LogStore.ensureEntryChildren n) = data n /\
  LogStore.ensureEntryChildren (LogStore.ensureEntryChildren n) =
    LogStore.ensureEntryChildren n /\
  (if nonEmptyList (children n) then LogStore.ensureEntryChildren n = n else True) /\
  match kind (data n), children n with
  | KEntry, [] =>
      map (fun c => object (data c)) (children (LogStore.ensureEntryChildren n))
        = map Some (args (data n)) /\
      map (fun c => expanded (data c)) (children (LogStore.ensureEntryChildren n))
        = map (fun _ => false) (args (data n)) /\
      map nodeId (children (LogStore.ensureEntryChildren n)) =
        imap (fun j _ => nodeId n +:+ ":arg:" +:+ pretty (N.of_nat j)) (args (data n))
  | _, _ => LogStore.ensureEntryChildren n = n
  end.
Proof.
  destruct n as [d cs]. unfold LogStore.ensureEntryChildren. cbn [data children].
  destruct (kind d) eqn:K; cbn [data children]; rewrite ?K;
    try (repeat split; destruct (nonEmptyList cs); try reflexivity; destruct cs; reflexivity).
  destruct cs as [|c r]; cbn [nonEmptyList data children].
  - rewrite K. cbn [nonEmptyList].
    destruct (argChildren_objects (nodeId (Node d [])) 0 (args d)) as (H1 & _ & H3 & H4).
    repeat split; try assumption.
    unfold nodeId. cbn [data].
    destruct (nonEmptyList (LogStore.argChildren (id d) 0 (args d))); reflexivity.
  - rewrite K. repeat split.
Qed.

End StoreProps.

(** * Keys and scrolling of the log pane *)

Module TuiProps.
Import Tree LogStore Tui.

Lemma findIndex_NoDup (flat : list FlatLogLine) (k : nat) (l : FlatLogLine) :
  NoDup (map fl_nodeId flat) ->
  flat !! k = Some l ->
  findIndex (fl_nodeId l) flat = Z.of_nat k.
Proof.
  revert k. induction flat as [|x r IH]; intros k Hnd Hk; [discriminate|].
  cbn [findIndex]. cbn [map] in Hnd. apply NoDup_cons in Hnd as [Hx Hr].
  destruct k as [|k]; cbn in Hk.
  - injection Hk as ->. now rewrite String.eqb_refl.
  - destruct (String.eqb_spec (fl_nodeId x) (fl_nodeId l)) as [E|E].
    + exfalso. apply Hx. rewrite E.
      apply list_elem_of_In, in_map, list_elem_of_In.
      eapply list_elem_of_lookup_2. exact Hk.
    + rewrite (IH k Hr Hk). destruct (Z.ltb_spec (Z.of_nat k) 0); lia.
Qed.

Lemma scrollIntoView_window (idx len visible top : Z) :
  (0 <= idx < len)%Z -> (1 <= visible)%Z ->
  let r := scrollIntoView idx len visible top in
  (r <= idx < r + visible)%Z /\
  (0 <= r <= Z.max 0 (len - visible))%Z /\
  scrollIntoView idx len visible r = r /\
  scrollTargetIntoView idx len visible top = r.
Proof.
  intros Hi Hv. unfold scrollIntoView, scrollTargetIntoView, clamp. cbn zeta.
  repeat match goal with
         | |- context [Z.ltb ?a ?b] => destruct (Z.ltb_spec a b)
         | |- context [Z.leb ?a ?b] => destruct (Z.leb_spec a b)
         end; lia.
Qed.

Section WithFormat.
Variable fmt : RemoteObject -> string.
Variable visibleLogLines : Z.

Lemma selectedLogIndex_bounds (s : State) :
  flatLogs fmt s <> [] ->
  (0 <= selectedLogIndex fmt s < Z.of_nat (length (flatLogs fmt s)))%Z.
Proof.
  intros Hne. unfold selectedLogIndex.
  destruct (flatLogs fmt s) as [|l r]; [contradiction|].
  set (flat := l :: r).
  assert (0 < Z.of_nat (length flat))%Z by (unfold flat; simpl; lia).
  destruct (selectedLogNodeId s) as [i|]; [|lia].
  destruct (Js.nonEmpty i); [|lia].
  destruct (ViewportProps.findIndex_spec i flat) as [[Hk _]|[Hk _]].
  - rewrite Hk. cbn. lia.
  - destruct (Z.leb_spec 0 (findIndex i flat)); lia.
Qed.

(** X13. When the log pane has the focus and shows something, the
    scroll-into-view effect leaves the selected line inside the window of
    [visibleLogLines] lines that starts at [logScrollTop], the window inside
    the list, and the selection as it was; running the effect again changes
    nothing; and the target list's variant of the updater computes the same
    offset. *)
Theorem scroll_effect_shows_selection (s : State) :
  (1 <= visibleLogLines)%Z ->
  flatLogs fmt s <> [] ->
  let s' := scrollEffect fmt visibleLogLines true s in
  let n := Z.of_nat (length (flatLogs fmt s)) in
  selectedLogIndex fmt s' = selectedLogIndex fmt s /\
  (logScrollTop s' <= selectedLogIndex fmt s' < logScrollTop s' + visibleLogLines)%Z /\
  (0 <= logScrollTop s' <= Z.max 0 (n - visibleLogLines))%Z /\
  scrollEffect fmt visibleLogLines true s' = s' /\
  logScrollTop s' =
    scrollTargetIntoView (selectedLogIndex fmt s) n visibleLogLines (logScrollTop s).
Proof.
  intros Hv Hne s' n.
  pose proof (selectedLogIndex_bounds s Hne) as Hb. fold n in Hb.
  assert (Es : s' = setLogScrollTop
                      (scrollIntoView (selectedLogIndex fmt s) n visibleLogLines
                                      (logScrollTop s)) s).
  { unfold s', scrollEffect. cbn [negb]. fold n.
    destruct (flatLogs fmt s); [contradiction|].
    destruct (Z.ltb_spec (selectedLogIndex fmt s) 0); [lia|reflexivity]. }
  destruct (scrollIntoView_window (selectedLogIndex fmt s) n visibleLogLines
                                  (logScrollTop s) Hb Hv) as (Hw & Hr & Hfix & Ht).
  assert (Ei : selectedLogIndex fmt s' = selectedLogIndex fmt s) by (rewrite Es; reflexivity).
  assert (Ef : flatLogs fmt s' = flatLogs fmt s) by (rewrite Es; reflexivity).
  assert (Et : logScrollTop s' =
               scrollIntoView (selectedLogIndex fmt s) n visibleLogLines (logScrollTop s))
    by (rewrite Es; reflexivity).
  split; [exact Ei|]. rewrite Ei, Et. split; [exact Hw|]. split; [exact Hr|].
  split; [|now rewrite Ht].
  unfold scrollEffect at 1. cbn [negb]. rewrite Ef, Ei. fold n.
  destruct (flatLogs fmt s); [contradiction|].
  destruct (Z.ltb_spec (selectedLogIndex fmt s) 0); [lia|].
  rewrite Et, Hfix. rewrite Es. reflexivity.
Qed.

(** The displacement of the selection a key asks for. *)
Definition delta (k : Key) : Z :=
  match k with
  | KeyUp => -1
  | KeyDown => 1
  | KeyPageUp => - visibleLogLines
  | KeyPageDown => visibleLogLines
  | _ => 0
  end.

Definition isMove (k : Key) : bool :=
  match k with
  | KeyUp | KeyDown | KeyPageUp | KeyPageDown => true
  | _ => false
  end.

Lemma select_index (s s' : State) (j : Z) :
  NoDup (map fl_nodeId (flatLogs fmt s)) ->
  Forall (fun l => Js.nonEmpty (fl_nodeId l) = true) (flatLogs fmt s) ->
  (0 <= j < Z.of_nat (length (flatLogs fmt s)))%Z ->
  logTree s' = logTree s ->
  logSearchQuery s' = logSearchQuery s ->
  selectedLogNodeId s' = fl_nodeId <$> flatLogs fmt s !! Z.to_nat j ->
  flatLogs fmt s' = flatLogs fmt s /\ selectedLogIndex fmt s' = j.
Proof.
  intros Hnd Hne Hj Ht Hq Hsel.
  assert (Ef : flatLogs fmt s' = flatLogs fmt s).
  { unfold flatLogs, filteredLogTree. now rewrite Ht, Hq. }
  split; [exact Ef|].
  unfold selectedLogIndex. rewrite Ef, Hsel.
  destruct (flatLogs fmt s) as [|x r] eqn:E; [cbn in Hj; lia|].
  rewrite <- E in *.
  destruct (flatLogs fmt s !! Z.to_nat j) as [l|] eqn:El.
  - cbn [fmap option_fmap option_map].
    rewrite Forall_forall in Hne. rewrite (Hne l).
    + rewrite (findIndex_NoDup _ _ _ Hnd El).
      destruct (Z.leb_spec 0 (Z.of_nat (Z.to_nat j))); lia.
    + eapply list_elem_of_lookup_2. exact El.
  - apply lookup_ge_None in El. lia.
Qed.

(** X14. With pairwise distinct, non-empty identifiers on screen, the
    arrow and page keys move the selected index by the displacement asked
    for, clamped to the list; they leave the list as it is; and follow mode
    is on afterwards exactly when a downward key reached the last line. *)
Theorem arrows_move_selection (k : Key) (s : State) :
  isMove k = true ->
  flatLogs fmt s <> [] ->
  NoDup (map fl_nodeId (flatLogs fmt s)) ->
  Forall (fun l => Js.nonEmpty (fl_nodeId l) = true) (flatLogs fmt s) ->
  let n := Z.of_nat (length (flatLogs fmt s)) in
  let s' := useInput fmt visibleLogLines k s in
  flatLogs fmt s' = flatLogs fmt s /\
  selectedLogIndex fmt s' = clamp (selectedLogIndex fmt s + delta k) 0 (n - 1) /\
  followTail s' =
    match k with
    | KeyDown | KeyPageDown => (selectedLogIndex fmt s' =? n - 1)%Z
    | _ => false
    end.
Proof.
  intros Hk Hne Hnd Hid n s'.
  assert (Hn : (0 < n)%Z).
  { unfold n. destruct (flatLogs fmt s); [contradiction|]. simpl. lia. }
  assert (Hc : forall z, (0 <= clamp z 0 (n - 1) < n)%Z) by (intros z; unfold clamp; lia).
  assert (Hsel : forall z t,
             logTree t = logTree s -> logSearchQuery t = logSearchQuery s ->
             selectedLogNodeId t = fl_nodeId <$> flatLogs fmt s !! Z.to_nat (clamp z 0 (n - 1)) ->
             flatLogs fmt t = flatLogs fmt s /\
             selectedLogIndex fmt t = clamp z 0 (n - 1)).
  { intros z t. apply (select_index s t _ Hnd Hid (Hc z)). }
  destruct k; try discriminate Hk; unfold s', useInput, delta; fold n;
    destruct (flatLogs fmt s) as [|x r] eqn:E; try contradiction; rewrite <- E in *;
    match goal with
    | |- context [clamp ?z 0 (n - 1)] =>
        edestruct (Hsel z) as [Hf Hi];
        [| | |split; [exact Hf|split; [exact Hi|]]]; try reflexivity
    end.
  all: first [reflexivity | rewrite Hi; reflexivity].
Qed.

End WithFormat.

(** X13 at a concrete input: two entries, one line visible, the stored
    offset far below the list. *)
Lemma scroll_effect_shows_selection_witness :
  let s' := scrollEffect Samples.describe 1 true (setLogScrollTop 7 Samples.twoEntries) in
  (logScrollTop s' <= selectedLogIndex Samples.describe s' < logScrollTop s' + 1)%Z.
Proof.
  refine (proj1 (proj2 (scroll_effect_shows_selection Samples.describe 1
                          (setLogScrollTop 7 Samples.twoEntries) _ _))).
  - lia.
  - vm_compute. discriminate.
Defined.

(** X14 at a concrete input: the up key on two collapsed entries. *)
Lemma arrows_move_selection_witness :
  selectedLogIndex Samples.describe
    (useInput Samples.describe 20 KeyUp Samples.twoEntries) = 0%Z.
Proof.
  refine (eq_trans
            (proj1 (proj2 (arrows_move_selection Samples.describe 20 KeyUp
                             Samples.twoEntries _ _ _ _))) _).
  - reflexivity.
  - vm_compute. discriminate.
  - apply (bool_decide_unpack (NoDup _)). vm_compute. exact I.
  - vm_compute. repeat constructor.
  - vm_compute. reflexivity.
Defined.

End TuiProps.

(** * Copying nodes and response bodies *)

Module ClipProps.
Import Tree Clip NetStore.

Lemma allWhite_trimEnd (s : string) : Js.allWhite (Js.trimEnd s) = Js.allWhite s.
Proof.
  induction s as [|c r IH]; [reflexivity|].
  cbn [Js.trimEnd]. destruct (Js.allWhite (String c r)) eqn:E; [reflexivity|].
  cbn [Js.allWhite] in *. now rewrite IH.
Qed.

Lemma trimEnd_idem (s : string) : Js.trimEnd (Js.trimEnd s) = Js.trimEnd s.
Proof.
  induction s as [|c r IH]; [reflexivity|].
  cbn [Js.trimEnd]. destruct (Js.allWhite (String c r)) eqn:E; [reflexivity|].
  cbn [Js.trimEnd]. cbn [Js.allWhite] in *. now rewrite allWhite_trimEnd, E, IH.
Qed.

Lemma serializeBodyOnly_eq (d : NodeData) (cs : list LogNode) :
  serializeBodyOnly (Node d cs) =
  match kind d with
  | KMeta => []
  | KText => [Js.orElse (text d) ""]
  | _ => flat_map serializeBodyOnly cs
  end.
Proof.
  cbn [serializeBodyOnly].
  destruct (kind d); try reflexivity;
    induction cs as [|c r IH]; cbn [flat_map]; try reflexivity; now rewrite IH.
Qed.

Section WithFormat.
Variable fmt : RemoteObject -> string.

Lemma serializeNodeDeep_eq (d : NodeData) (cs : list LogNode) (k : nat) :
  serializeNodeDeep fmt (Node d cs) k =
  deepLine fmt k d :: flat_map (fun c => serializeNodeDeep fmt c (Datatypes.S k)) cs.
Proof.
  cbn [serializeNodeDeep].
  f_equal; induction cs as [|c r IH]; cbn [flat_map]; try reflexivity; now rewrite IH.
Qed.

Lemma deepLine_trimmed (k : nat) (d : NodeData) :
  Js.trimEnd (deepLine fmt k d) = deepLine fmt k d.
Proof. unfold deepLine. destruct (kind d); apply trimEnd_idem. Qed.

(** X15. Copying a node writes one line for every node below it, whether
    or not its ancestors are expanded, and no line ends in white space. *)
Theorem copy_covers_subtree (n : LogNode) (k : nat) :
  length (serializeNodeDeep fmt n k) = length (idsOf n) /\
  Forall (fun l => Js.trimEnd l = l) (serializeNodeDeep fmt n k).
Proof.
  revert k.
  apply (LogNode_forest_ind
           (fun n => forall k,
                length (serializeNodeDeep fmt n k) = length (idsOf n) /\
                Forall (fun l => Js.trimEnd l = l) (serializeNodeDeep fmt n k))
           (fun cs => forall k,
                length (flat_map (fun c => serializeNodeDeep fmt c k) cs)
                  = length (nodeIds cs) /\
                Forall (fun l => Js.trimEnd l = l)
                       (flat_map (fun c => serializeNodeDeep fmt c k) cs))).
  - intros d cs IH k. rewrite serializeNodeDeep_eq, TreeProps.idsOf_eq.
    destruct (IH (Datatypes.S k)) as [Hl Hf]. cbn [length]. split; [now rewrite Hl|].
    constructor; [apply deepLine_trimmed|exact Hf].
  - intros k. split; [reflexivity|constructor].
  - intros c r IHc IHr k. cbn [flat_map nodeIds].
    destruct (IHc k) as [Hl Hf]. destruct (IHr k) as [Hl' Hf'].
    rewrite !length_app, Hl, Hl'. split; [reflexivity|].
    apply Forall_app. split; assumption.
Qed.

End WithFormat.

(** ** The nodes under a body *)

Fixpoint numberTexts (c : N) (ls : list string) : list LogNode :=
  match ls with
  | [] => []
  | t :: r => textNode (netId (c + 1)) t :: numberTexts (c + 1) r
  end.

Lemma mapGen_newText (ls : list string) (c : N) :
  mapGen newText ls c = (numberTexts c ls, (c + N.of_nat (length ls))%N).
Proof.
  revert c. induction ls as [|t r IH]; intros c.
  - cbn [mapGen numberTexts length]. unfold ret. f_equal. lia.
  - cbn [mapGen numberTexts length]. unfold bind at 1. unfold newText at 1.
    unfold bind at 1. unfold newNodeId at 1. unfold ret at 1. cbn beta iota.
    unfold bind at 1. rewrite IH. unfold ret. f_equal. lia.
Qed.

Definition moreLines (lines : list string) : string :=
  "… (" +:+ pretty (length lines - BODY_LINE_LIMIT)%nat +:+ " more lines)".

Lemma bodyChildren_explicit (lines : list string) (hint : string) (c : N) :
  bodyChildren lines hint c =
  let shown := take BODY_LINE_LIMIT lines in
  let k := (c + 1 + N.of_nat (length shown))%N in
  if (BODY_LINE_LIMIT <? length lines)%nat
  then (metaNode (netId (c + 1)) hint :: numberTexts (c + 1) shown
          ++ [metaNode (netId (k + 1)) (moreLines lines)], (k + 1)%N)
  else (metaNode (netId (c + 1)) hint :: numberTexts (c + 1) shown ++ [], k).
Proof.
  unfold bodyChildren. unfold bind at 1. unfold newMeta at 1.
  unfold bind at 1. unfold newNodeId at 1. unfold ret at 1. cbn beta iota.
  unfold bind at 1. rewrite mapGen_newText.
  unfold bind at 1. unfold pushIf, moreLines. cbn zeta.
  destruct (BODY_LINE_LIMIT <? length lines)%nat; reflexivity.
Qed.

(** The [j]-th node of [cs] carries the [j]-th identifier drawn after [c]. *)
Definition drawnFrom (c : N) (cs : list LogNode) : Prop :=
  forall (j : nat) (n : LogNode),
    cs !! j = Some n -> nodeId n = netId (c + 1 + N.of_nat j).

Lemma drawnFrom_cons (c : N) (x : LogNode) (l : list LogNode) :
  nodeId x = netId (c + 1) -> drawnFrom (c + 1) l -> drawnFrom c (x :: l).
Proof.
  intros Hx Hl [|j] n H; cbn in H.
  - injection H as <-. rewrite Hx. f_equal. lia.
  - rewrite (Hl j n H). f_equal. lia.
Qed.

Lemma drawnFrom_app (c : N) (a b : list LogNode) :
  drawnFrom c a -> drawnFrom (c + N.of_nat (length a)) b -> drawnFrom c (a ++ b).
Proof.
  intros Ha Hb j n H. apply lookup_app_Some in H as [H|[Hj H]].
  - now apply Ha.
  - rewrite (Hb _ n H). f_equal. lia.
Qed.

Lemma drawnFrom_numberTexts (c : N) (ls : list string) :
  drawnFrom c (numberTexts c ls).
Proof.
  revert c. induction ls as [|t r IH]; intros c; [intros j n H; discriminate|].
  cbn [numberTexts]. apply drawnFrom_cons; [reflexivity|apply IH].
Qed.

Lemma numberTexts_length (c : N) (ls : list string) :
  length (numberTexts c ls) = length ls.
Proof. revert c. induction ls as [|t r IH]; intros c; cbn; [reflexivity|now rewrite IH]. Qed.

Lemma netId_inj (a b : N) : netId a = netId b -> a = b.
Proof.
  unfold netId. intros H.
  change ("net_n" +:+ pretty a) with
    (String "n"%char (String "e"%char (String "t"%char (String "_"%char
       (String "n"%char (pretty a)))))) in H.
  change ("net_n" +:+ pretty b) with
    (String "n"%char (String "e"%char (String "t"%char (String "_"%char
       (String "n"%char (pretty b)))))) in H.
  injection H as H. now apply (inj pretty).
Qed.

Lemma drawnFrom_NoDup (c : N) (cs : list LogNode) :
  drawnFrom c cs -> NoDup (map nodeId cs).
Proof.
  intros H. apply NoDup_alt. intros i j x Hi Hj.
  change (map nodeId cs) with (nodeId <$> cs) in *.
  rewrite list_lookup_fmap in Hi, Hj.
  destruct (cs !! i) as [a|] eqn:Ea; [|discriminate].
  destruct (cs !! j) as [b|] eqn:Eb; [|discriminate].
  cbn in Hi, Hj. rewrite (H i a Ea) in Hi. rewrite (H j b Eb) in Hj.
  rewrite <- Hj in Hi. apply (inj Some) in Hi. apply netId_inj in Hi. lia.
Qed.

Lemma serializeBodyOnly_numberTexts (c : N) (ls : list string) :
  flat_map serializeBodyOnly (numberTexts c ls) = ls.
Proof.
  revert c. induction ls as [|t r IH]; intros c; [reflexivity|].
  cbn [numberTexts flat_map]. rewrite IH. reflexivity.
Qed.

(** X16. The nodes put under a body are one hint line, at most
    [BODY_LINE_LIMIT] text lines and, when lines were cut, one marker; the
    [j]-th of them carries the [j]-th identifier drawn from the counter, the
    counter advances by their number, and no two share an identifier. *)
Theorem bodyChildren_bounded_and_numbered (lines : list string) (hint : string) (c : N) :
  let cs := fst (bodyChildren lines hint c) in
  (length cs = 1 + Nat.min BODY_LINE_LIMIT (length lines)
               + (if (BODY_LINE_LIMIT <? length lines)%nat then 1 else 0))%nat /\
  (length cs <= BODY_LINE_LIMIT + 2)%nat /\
  snd (bodyChildren lines hint c) = (c + N.of_nat (length cs))%N /\
  (forall j n, cs !! j = Some n -> nodeId n = netId (c + 1 + N.of_nat j)) /\
  NoDup (map nodeId cs).
Proof.
  cbn zeta. rewrite bodyChildren_explicit. cbn zeta. unfold moreLines.
  generalize BODY_LINE_LIMIT. intros L.
  assert (Hd : forall more,
             drawnFrom (c + 1 + N.of_nat (length (take L lines))) more ->
             drawnFrom c (metaNode (netId (c + 1)) hint
                            :: numberTexts (c + 1) (take L lines) ++ more)).
  { intros more Hm. apply drawnFrom_cons; [reflexivity|].
    apply drawnFrom_app; [apply drawnFrom_numberTexts|].
    now rewrite numberTexts_length. }
  destruct (Nat.ltb_spec L (length lines)) as [Hlt|Hge];
    cbn [fst snd length]; rewrite length_app, numberTexts_length, length_take; cbn [length].
  - assert (D := Hd [metaNode (netId (c + 1 + N.of_nat (length (take L lines)) + 1))
                              ("… (" +:+ pretty (length lines - L)%nat +:+ " more lines)")]).
    rewrite length_take in D.
    repeat split; try lia.
    + apply D. intros [|j] n H; [|discriminate]. injection H as <-.
      unfold nodeId. cbn [metaNode data id]. f_equal. lia.
    + apply (drawnFrom_NoDup c). apply D.
      intros [|j] n H; [|discriminate]. injection H as <-.
      unfold nodeId. cbn [metaNode data id]. f_equal. lia.
  - assert (D := Hd []).
    repeat split; try lia.
    + apply D. intros j n H. discriminate.
    + apply (drawnFrom_NoDup c). apply D. intros j n H. discriminate.
Qed.

Section Body.
Variable fmt : RemoteObject -> string.
Variable jsonPretty : string -> option string.

(** X17. Copying a body node whose lines were loaded gives the lines
    shown, without the hint and the marker: for a body that is not base64
    and not JSON, of at most [BODY_LINE_LIMIT] lines, the text copied is
    the body itself. *)
Theorem copy_body_round_trip (d : NodeData) (rid : string) (w : option NetWhich)
        (body : string) (c : N) :
  kind d = KEntry ->
  net d = Some (mkNetNodeInfo rid RBody w) ->
  (forall lines hint,
      serializeBodyOnly (Node d (fst (bodyChildren lines hint c)))
      = take BODY_LINE_LIMIT lines) /\
  (snd (tryPrettifyJson jsonPretty body) = false ->
   (length (splitLines body) <= BODY_LINE_LIMIT)%nat ->
   copyText fmt
     (Node d (fst (bodyChildren (fst (formatResponseBody jsonPretty body false))
                                (snd (formatResponseBody jsonPretty body false)) c)))
   = body).
Proof.
  intros Hk Hn.
  assert (Hs : forall lines hint,
             serializeBodyOnly (Node d (fst (bodyChildren lines hint c)))
             = take BODY_LINE_LIMIT lines).
  { intros lines hint. rewrite serializeBodyOnly_eq, Hk, bodyChildren_explicit. cbn zeta.
    destruct (BODY_LINE_LIMIT <? length lines)%nat; cbn [fst flat_map];
      rewrite flat_map_app, serializeBodyOnly_numberTexts; cbn [flat_map];
      rewrite ?serializeBodyOnly_eq; cbn [metaNode kind app];
      now rewrite ?app_nil_r. }
  split; [exact Hs|]. intros Hj Hl.
  unfold copyText. cbn [data]. rewrite Hn, Hs.
  unfold formatResponseBody.
  destruct (tryPrettifyJson jsonPretty body) as [formatted isJson] eqn:E.
  cbn [snd] in Hj. subst isJson. cbn [fst].
  assert (formatted = body) as ->.
  { unfold tryPrettifyJson in E.
    destruct (negb (Js.startsWith "{" (Js.trim body))
              && negb (Js.startsWith "[" (Js.trim body))); [congruence|].
    destruct (jsonPretty (Js.trim body)); congruence. }
  rewrite take_ge by exact Hl.
  apply TreeProps.splitLines_join.
Qed.

End Body.

(** X17 at a concrete input: a two-line text body. *)
Lemma copy_body_round_trip_witness :
  serializeBodyOnly
    (Node (mkNodeData "net:1:body" KEntry None (Some "Response Body") None []
                      None None None true false
                      (Some (mkNetNodeInfo "1" RBody None)))
          (fst (bodyChildren ["a"; "b"] "(text)" 0%N)))
  = ["a"; "b"].
Proof.
  refine (proj1 (copy_body_round_trip Samples.describe Samples.notJson
                   (mkNodeData "net:1:body" KEntry None (Some "Response Body") None []
                               None None None true false
                               (Some (mkNetNodeInfo "1" RBody None)))
                   "1" None "a" 0%N _ _) ["a"; "b"] "(text)").
  - reflexivity.
  - reflexivity.
Defined.

End ClipProps.

(** * Collapsing the region of the selection *)

Module RegionProps.
Import Tree LogStore Region.

(** Every line of [flat] hangs under [parent], at depth [indent], or under
    a line before it, one level deeper than that line. *)
Definition Precedes (parent : option string) (indent : Z)
           (flat : list FlatLogLine) : Prop :=
  forall (k : nat) (l : FlatLogLine),
    flat !! k = Some l ->
    (fl_parentId l = parent /\ fl_indent l = indent) \/
    exists (j : nat) (x : FlatLogLine),
      (j < k)%nat /\ flat !! j = Some x /\
      fl_parentId l = Some (fl_nodeId x) /\ fl_indent l = (fl_indent x + 1)%Z.

Lemma Precedes_nil (parent : option string) (indent : Z) : Precedes parent indent [].
Proof. intros k l H. discriminate. Qed.

Lemma Precedes_app (parent : option string) (indent : Z) (a b : list FlatLogLine) :
  Precedes parent indent a -> Precedes parent indent b -> Precedes parent indent (a ++ b).
Proof.
  intros Ha Hb k l H. apply lookup_app_Some in H as [H|[Hk H]].
  - destruct (Ha k l H) as [E|(j & x & Hj & Hx & E)]; [now left|right].
    exists j, x. repeat split; try tauto.
    rewrite lookup_app_l; [exact Hx|].
    apply lookup_lt_Some in H. lia.
  - destruct (Hb _ l H) as [E|(j & x & Hj & Hx & E)]; [now left|right].
    exists (length a + j)%nat, x. repeat split; [lia| |tauto|tauto].
    rewrite lookup_app_r by lia.
    now replace (length a + j - length a)%nat with j by lia.
Qed.

Lemma Precedes_cons (parent : option string) (indent : Z) (x : FlatLogLine)
      (body : list FlatLogLine) :
  fl_parentId x = parent -> fl_indent x = indent ->
  Precedes (Some (fl_nodeId x)) (indent + 1) body ->
  Precedes parent indent (x :: body).
Proof.
  intros Hx Hi Hb [|k] l H; cbn in H.
  - injection H as <-. now left.
  - right. destruct (Hb k l H) as [[E E']|(j & y & Hj & Hy & E)].
    + exists 0%nat, x. repeat split; [lia|exact E|]. now rewrite Hi.
    + exists (Datatypes.S j), y. repeat split; [lia|exact Hy|tauto|tauto].
Qed.

Lemma flatten_precedes (fmt : RemoteObject -> string) (nodes : list LogNode)
      (parent : option string) (indent : Z) :
  Precedes parent indent (flattenLogTree fmt nodes parent indent).
Proof.
  revert nodes parent indent.
  apply (forest_ind
           (fun n => forall parent indent,
                Precedes parent indent (flattenNode fmt parent indent n))
           (fun nodes => forall parent indent,
                Precedes parent indent (flattenLogTree fmt nodes parent indent))).
  - intros d cs IH parent indent. rewrite TreeFacts.flattenNode_eq.
    apply Precedes_cons; [reflexivity|reflexivity|].
    destruct (expanded d); [apply IH|apply Precedes_nil].
  - intros parent indent. apply Precedes_nil.
  - intros c r IHc IHr parent indent. cbn [flattenLogTree].
    apply Precedes_app; [apply IHc|apply IHr].
Qed.

(** X19. In the flattened view every line either is a root, with no parent
    and indent 0, or follows a line of its parent whose indent is one
    less: parents are listed before their children. *)
Theorem flat_lines_follow_their_parent (fmt : RemoteObject -> string)
        (nodes : list LogNode) (k : nat) (l : FlatLogLine) :
  flattenLogTree fmt nodes None 0 !! k = Some l ->
  (fl_parentId l = None /\ fl_indent l = 0%Z) \/
  exists (j : nat) (x : FlatLogLine),
    (j < k)%nat /\ flattenLogTree fmt nodes None 0 !! j = Some x /\
    fl_parentId l = Some (fl_nodeId x) /\ fl_indent l = (fl_indent x + 1)%Z.
Proof. apply (flatten_precedes fmt nodes None 0). Qed.

(** X19 at a concrete input: the argument line of an expanded entry. *)
Lemma flat_lines_follow_their_parent_witness :
  exists (j : nat) (x : FlatLogLine),
    (j < 1)%nat /\
    flatLogs Samples.describe (store Samples.firstInFlight) !! j = Some x /\
    fl_nodeId x = "n1".
Proof.
  destruct (flat_lines_follow_their_parent Samples.describe
              (logTree (store Samples.firstInFlight)) 1
              (mkFlatLogLine "n1:arg:0" (Some "n1") 1 "Object" true true))
    as [[E _]|(j & x & Hj & Hx & Hp & _)].
  - vm_compute. reflexivity.
  - discriminate E.
  - exists j, x. repeat split; [exact Hj|exact Hx|].
    cbn [fl_parentId] in Hp. now injection Hp as <-.
Defined.






Section WithFormat.
Variable fmt : RemoteObject -> string.



End WithFormat.

End RegionProps.

(** * Late completions, network events and fetched properties *)

Module EdgeProps.
Import Tree.

(** X20. A property fetch that settles after its node has left the log
    tree (cleared, or evicted by the cap) changes nothing but the guard:
    the tree, the counter and the view are as they were, whether the fetch
    succeeded or failed. *)
Theorem stale_completion_ignored (p : LogStore.Pending) (r : LogStore.FetchResult)
        (s : LogStore.State) :
  findNodeById (LogStore.logTree s) (LogStore.target p) = None ->
  LogStore.settle p r s = LogStore.setIsExpanding false s.
Proof.
  intros H. destruct r as [cs|err]; cbn [LogStore.settle].
  - unfold LogStore.fetchResolved, LogStore.updateTree, updateNodeById.
    rewrite PointFacts.updateNodeByIdM_absent by exact H.
    destruct s; reflexivity.
  - unfold LogStore.fetchRejected, LogStore.updateTreeM.
    rewrite PointFacts.updateNodeByIdM_absent by exact H.
    destruct s; reflexivity.
Qed.

(** X20 at a concrete input: the logs were cleared while the fetch of the
    first argument was in flight. *)
Lemma stale_completion_ignored_witness :
  LogStore.settle (LogStore.mkPending "n1:arg:0" "o1") (LogStore.Failed "gone")
                  (LogStore.clearLogs (LogStore.store Samples.firstInFlight))
  = LogStore.setIsExpanding false
      (LogStore.clearLogs (LogStore.store Samples.firstInFlight)).
Proof.
  apply (stale_completion_ignored (LogStore.mkPending "n1:arg:0" "o1")
           (LogStore.Failed "gone")
           (LogStore.clearLogs (LogStore.store Samples.firstInFlight))).
  reflexivity.
Defined.

Section Net.
Import NetStore.
Variable formatTime : Z -> string.
Variable sortEntries : Headers -> Headers.

Lemma net_updateTreeM_records (i : string) (u : LogNode -> N -> LogNode * N) (s : State) :
  netByIdRef (updateTreeM i u s) = netByIdRef s.
Proof.
  unfold updateTreeM. destruct (updateNodeByIdM i u (netTree s) (nextNodeIdRef s)).
  reflexivity.
Qed.

Lemma ensure_keeps_records (rid : string) (now : Z) (s : State) :
  netByIdRef (ensureNetRequestNode formatTime rid now s) = netByIdRef s.
Proof.
  unfold ensureNetRequestNode.
  destruct (findNodeById (netTree s) ("net:" +:+ rid)); reflexivity.
Qed.

Lemma ensure_length (rid : string) (now : Z) (s : State) :
  (length (netTree s) <= NET_MAX_ITEMS)%nat ->
  (length (netTree (ensureNetRequestNode formatTime rid now s)) <= NET_MAX_ITEMS)%nat.
Proof.
  intros H. unfold ensureNetRequestNode.
  destruct (findNodeById (netTree s) ("net:" +:+ rid)).
  - now rewrite StoreProps.net_updateTree_length.
  - cbn [netTree setNetTree]. apply StoreProps.keepLast_le.
Qed.

(** X21. Network events keep the tree within [NET_MAX_ITEMS] roots but
    never drop a record: after an event for [rid] the record of [rid] is
    the merge of the patch into the previous record (or into a fresh one),
    and the records of all other requests are as before, also those whose
    node the cap has evicted. *)
Theorem events_cap_nodes_keep_records (rid : string) (patch : Patch) (now : Z)
        (s : State) :
  (length (netTree s) <= NET_MAX_ITEMS)%nat ->
  let s1 := onNetworkRequest formatTime rid patch now s in
  let s2 := onNetworkUpdate formatTime sortEntries rid patch now s in
  (length (netTree s1) <= NET_MAX_ITEMS)%nat /\
  (length (netTree s2) <= NET_MAX_ITEMS)%nat /\
  netByIdRef s1 = netByIdRef s2 /\
  getNetRecord rid s2 =
    Some (merge (default (freshRecord rid) (getNetRecord rid s)) patch) /\
  (forall rid', rid' <> rid -> getNetRecord rid' s2 = getNetRecord rid' s).
Proof.
  intros H s1 s2.
  assert (L1 : (length (netTree s1) <= NET_MAX_ITEMS)%nat).
  { unfold s1, onNetworkRequest. apply ensure_length. exact H. }
  assert (R1 : netByIdRef s1 = <[rid := merge (default (freshRecord rid) (netByIdRef s !! rid))
                                              patch]> (netByIdRef s)).
  { unfold s1, onNetworkRequest. rewrite ensure_keeps_records. reflexivity. }
  assert (R2 : netByIdRef s2 = netByIdRef s1).
  { unfold s2, onNetworkUpdate, updateNetNodeLabel.
    now rewrite net_updateTreeM_records. }
  split; [exact L1|]. split.
  { unfold s2, onNetworkUpdate, updateNetNodeLabel.
    rewrite StoreProps.net_updateTreeM_length. exact L1. }
  split; [now rewrite R2|]. unfold getNetRecord. rewrite R2, R1. split.
  - apply lookup_insert_eq.
  - intros rid' Hr. now apply lookup_insert_ne.
Qed.

End Net.

(** X21 at a concrete input: the first event of a connection. *)
Lemma events_cap_nodes_keep_records_witness :
  (length (NetStore.netTree
             (NetStore.onNetworkRequest Samples.clockTime "r1" NetStore.emptyPatch 0
                                        NetStore.initial)) <= NET_MAX_ITEMS)%nat.
Proof.
  refine (proj1 (events_cap_nodes_keep_records Samples.clockTime Samples.keepOrder
                   "r1" NetStore.emptyPatch 0 NetStore.initial _)).
  cbn [NetStore.netTree NetStore.initial length]. lia.
Defined.

(** ** The nodes built from fetched properties *)

Lemma propNodes_length (clock : N -> Z) (k : N) (items : list Cdp.PropertyItem) :
  length (Cdp.propNodes clock k items) = length items.
Proof.
  revert k. induction items as [|it r IH]; intros k; cbn; [reflexivity|now rewrite IH].
Qed.

Lemma propNodes_lookup (clock : N -> Z) (k : N) (items : list Cdp.PropertyItem)
      (j : nat) (it : Cdp.PropertyItem) :
  items !! j = Some it ->
  Cdp.propNodes clock k items !! j =
  Some (propNode (Cdp.propId (k + N.of_nat j + 1) (clock (k + N.of_nat j + 1)%N))
                 (Cdp.pi_name it) (Cdp.pi_value it)).
Proof.
  revert k j. induction items as [|x r IH]; intros k j H; [discriminate|].
  destruct j as [|j]; cbn in H; cbn [Cdp.propNodes].
  - injection H as ->. cbn [lookup list_lookup]. rewrite N.add_0_r. reflexivity.
  - cbn [lookup list_lookup]. change (r !! j = Some it) in H.
    specialize (IH (k + 1)%N j H).
    change (Cdp.propNodes clock (k + 1) r !! j =
            Some (propNode (Cdp.propId (k + N.of_nat (Datatypes.S j) + 1)
                                       (clock (k + N.of_nat (Datatypes.S j) + 1)%N))
                           (Cdp.pi_name it) (Cdp.pi_value it))).
    rewrite IH.
    replace (k + N.of_nat (Datatypes.S j) + 1)%N with (k + 1 + N.of_nat j + 1)%N by lia.
    reflexivity.
Qed.

(** X22. [getProperties] resolves to at most [LIMIT] property nodes, one
    for each of the first [LIMIT] items and in their order, each collapsed
    and without children; when items were left out, one more node, a
    marker, follows them. *)
Theorem getProperties_bounded (clock : N -> Z) (items : list Cdp.PropertyItem) :
  let cs := Cdp.getPropertiesNodes clock items in
  (length cs = Nat.min Cdp.LIMIT (length items)
               + (if (Cdp.LIMIT <? length items)%nat then 1 else 0))%nat /\
  (length cs <= Cdp.LIMIT + 1)%nat /\
  (forall j it,
      (j < Cdp.LIMIT)%nat -> items !! j = Some it ->
      cs !! j = Some (propNode (Cdp.propId (N.of_nat j + 1) (clock (N.of_nat j + 1)%N))
                               (Cdp.pi_name it) (Cdp.pi_value it))) /\
  (if (Cdp.LIMIT <? length items)%nat
   then exists n, cs !! Cdp.LIMIT = Some n /\ kind (data n) = KMeta /\ children n = []
   else cs !! length items = None).
Proof.
  unfold Cdp.getPropertiesNodes. generalize Cdp.LIMIT. intros L. cbn zeta.
  assert (Hlook : forall j it,
             (j < L)%nat -> items !! j = Some it ->
             Cdp.propNodes clock 0 (take L items) !! j =
             Some (propNode (Cdp.propId (N.of_nat j + 1) (clock (N.of_nat j + 1)%N))
                            (Cdp.pi_name it) (Cdp.pi_value it))).
  { intros j it Hj Hit.
    rewrite (propNodes_lookup clock 0 (take L items) j it).
    - reflexivity.
    - rewrite lookup_take_lt by exact Hj. exact Hit. }
  destruct (Nat.ltb_spec L (length items)) as [Hlt|Hge].
  - rewrite length_app, propNodes_length, length_take. cbn [length].
    repeat split; try lia.
    + intros j it Hj Hit. rewrite lookup_app_l.
      * now apply Hlook.
      * rewrite propNodes_length, length_take. lia.
    + eexists. split.
      { rewrite lookup_app_r by (rewrite propNodes_length, length_take; lia).
        rewrite propNodes_length, length_take.
        replace (L - L `min` length items)%nat with 0%nat by lia. reflexivity. }
      split; reflexivity.
  - rewrite propNodes_length, length_take.
    repeat split; try lia.
    + intros j it Hj Hit. now apply Hlook.
    + apply lookup_ge_None. rewrite propNodes_length, length_take. lia.
Qed.

End EdgeProps.

(** * The cached response body *)

Module CacheProps.
Import Tree NetStore.

Definition cached (s : State) (rid : string) : option (string * bool) :=
  getNetRecord rid s ≫= responseBody.

(** The patches built by the four protocol listeners. *)
Inductive FromListener : Patch -> Prop :=
| from_request ts method url headers postData initiatorUrl type :
    FromListener (Cdp.requestWillBeSent ts method url headers postData initiatorUrl type)
| from_response status statusText mimeType protocol ip port disk sw headers :
    FromListener (Cdp.responseReceived status statusText mimeType protocol ip port
                                       disk sw headers)
| from_finished ts len : FromListener (Cdp.loadingFinished ts len)
| from_failed ts errorText canceled :
    FromListener (Cdp.loadingFailed ts errorText canceled).

Lemma merge_listener_body (r : NetRecord) (p : Patch) :
  FromListener p -> responseBody (merge r p) = responseBody r.
Proof. intros []; reflexivity. Qed.

Lemma bodyChildren_counter (lines : list string) (hint : string) (c : N) :
  (c < snd (bodyChildren lines hint c))%N.
Proof.
  rewrite ClipProps.bodyChildren_explicit. cbn zeta.
  destruct (BODY_LINE_LIMIT <? length lines)%nat; cbn [snd]; lia.
Qed.

Section Net.
Variable formatTime : Z -> string.
Variable sortEntries : Headers -> Headers.
Variable jsonPretty : string -> option string.

(** X23. No protocol event touches a cached response body: after the
    callback for a patch built by any of the four listeners, every request
    has the cached body it had before (none, if it had none). *)
Theorem events_keep_cached_body (rid rid' : string) (p : Patch) (now : Z) (s : State) :
  FromListener p ->
  cached (onNetworkUpdate formatTime sortEntries rid p now s) rid' = cached s rid' /\
  cached (onNetworkRequest formatTime rid p now s) rid' = cached s rid'.
Proof.
  intros Hp.
  assert (E : netByIdRef (onNetworkRequest formatTime rid p now s) =
              <[rid := merge (default (freshRecord rid) (netByIdRef s !! rid)) p]>
                (netByIdRef s)).
  { unfold onNetworkRequest. rewrite EdgeProps.ensure_keeps_records. reflexivity. }
  assert (E' : netByIdRef (onNetworkUpdate formatTime sortEntries rid p now s) =
               netByIdRef (onNetworkRequest formatTime rid p now s)).
  { unfold onNetworkUpdate, updateNetNodeLabel.
    now rewrite EdgeProps.net_updateTreeM_records. }
  unfold cached, getNetRecord. rewrite E', E.
  assert (H : (<[rid := merge (default (freshRecord rid) (netByIdRef s !! rid)) p]>
                 (netByIdRef s) !! rid') ≫= responseBody
              = (netByIdRef s !! rid') ≫= responseBody).
  { destruct (decide (rid' = rid)) as [->|Hne].
    - rewrite lookup_insert_eq. cbn [mbind option_bind].
      rewrite (merge_listener_body _ p Hp).
      destruct (netByIdRef s !! rid); reflexivity.
    - now rewrite lookup_insert_ne. }
  split; exact H.
Qed.

(** X24. A response body that arrives after its node has left the tree is
    still cached on the record, and the guard is released; the tree is as
    it was.  A failure that arrives late changes nothing but the guard. *)
Theorem late_body_is_cached (p : Pending) (body : string) (base64Encoded : bool)
        (err : string) (s : State) :
  findNodeById (netTree s) (target p) = None ->
  let s' := fetchResolved jsonPretty p body base64Encoded s in
  netTree s' = netTree s /\
  isExpandingRef s' = false /\
  cached s' (fetchRequestId p) = Some (body, base64Encoded) /\
  (nextNodeIdRef s < nextNodeIdRef s')%N /\
  fetchRejected p err s = setIsExpanding false s.
Proof.
  intros H s'.
  set (s1 := upsertNet (fetchRequestId p) (patchResponseBody (body, base64Encoded)) s).
  assert (Hrej : fetchRejected p err s = setIsExpanding false s).
  { unfold fetchRejected, updateTreeM.
    rewrite PointFacts.updateNodeByIdM_absent by exact H.
    destruct s; reflexivity. }
  assert (E : exists c, (nextNodeIdRef s < c)%N /\
                        s' = setIsExpanding false (setNextNodeId c s1)).
  { unfold s', fetchResolved. fold s1.
    destruct (formatResponseBody jsonPretty body base64Encoded) as [lines hint].
    pose proof (bodyChildren_counter lines hint (nextNodeIdRef s1)) as Hc.
    destruct (bodyChildren lines hint (nextNodeIdRef s1)) as [cs c].
    cbn [snd] in Hc. exists c. split; [exact Hc|].
    unfold updateTree, updateNodeById.
    change (netTree (setNextNodeId c s1)) with (netTree s).
    rewrite PointFacts.updateNodeByIdM_absent by exact H.
    destruct s; reflexivity. }
  destruct E as (c & Hc & ->).
  repeat split; [|exact Hc|exact Hrej].
  apply (NetRoundTrip.upsert_cachedBody (fetchRequestId p) (body, base64Encoded) s).
Qed.

End Net.

(** X23 at a concrete input: a request is reported as finished. *)
Lemma events_keep_cached_body_witness :
  cached (onNetworkUpdate Samples.clockTime Samples.keepOrder "r1"
            (Cdp.loadingFinished (Some 2%Z) None) 0 initial) "r1" = None.
Proof.
  refine (eq_trans
            (proj1 (events_keep_cached_body Samples.clockTime Samples.keepOrder
                      "r1" "r1" (Cdp.loadingFinished (Some 2%Z) None) 0 initial _)) _).
  - constructor.
  - reflexivity.
Defined.

(** X24 at a concrete input: the network pane was cleared meanwhile. *)
Lemma late_body_is_cached_witness :
  cached (fetchResolved Samples.notJson (mkPending "net:r1:body" "r1") "hello" false
                        initial) "r1" = Some ("hello", false).
Proof.
  refine (proj1 (proj2 (proj2
            (late_body_is_cached Samples.notJson (mkPending "net:r1:body" "r1")
                                 "hello" false "gone" initial _)))).
  reflexivity.
Defined.

End CacheProps.
